(** * morph: annotation chains, the shape cache and the traversal engine

    A shallow embedding of the Go package [morph] (struct-tag driven, in-place
    normalisation of nested records) and the properties its specification
    states about it.

    Conventions of the embedding.
    - A Go [string] is a byte sequence: Rocq's [string], one [ascii] per byte.
    - Go's [int] is the 64-bit one; parsed integers are [Z] within its range.
    - A record instance is a tree ([value]): a pointer owns its pointee, a
      slice its elements, a map its entries.  This is the acyclic ownership
      the engine assumes; two pointers to one cell are not represented.
    - A [reflect.Value] is a handle: the content it reads plus its
      addressability flag.  Functions that mutate through a handle return the
      new content of the storage the handle was taken from.
    - Errors are returned values ([Err]); a Go run-time panic is the separate
      outcome [Panic]; the traversal is defined by recursion on a fuel that
      bounds the nesting depth ([OutOfFuel] below it).
    - The mutex is not represented: every function is a sequential step on
      the explicit state [cache]. *)

From Stdlib Require Import ZArith Lia Bool Ascii String List Permutation.
From stdpp Require Import base option list gmap strings.

Import ListNotations.
Local Open Scope string_scope.
Local Open Scope list_scope.

(** ** Byte strings and the few functions of Go's [strings] the package calls *)

Module GoStrings.

Definition byteZ (a : ascii) : Z := Z.of_N (N_of_ascii a).

(** [len(s)] *)
Definition len (s : string) : Z := Z.of_nat (String.length s).

(** [strings.IndexRune(s, r)] for an ASCII [r]: the index of the first byte
    equal to [r], [None] for Go's [-1]. *)
Fixpoint IndexRune (s : string) (r : ascii) : option nat :=
  match s with
  | EmptyString => None
  | String c rest =>
      if Ascii.eqb c r then Some 0%nat
      else match IndexRune rest r with
           | Some i => Some (S i)
           | None => None
           end
  end.

(** The pieces of [s] between the bytes equal to [sep]: the first piece and
    the list of the following ones. *)
Fixpoint splitOn (sep : ascii) (s : string) : string * list string :=
  match s with
  | EmptyString => (EmptyString, [])
  | String c rest =>
      let '(hd, tl) := splitOn sep rest in
      if Ascii.eqb c sep then (EmptyString, hd :: tl) else (String c hd, tl)
  end.

Definition nonEmpty (s : string) : bool :=
  match s with EmptyString => false | _ => true end.

(** [strings.FieldsFunc(s, func(r rune) bool { return r == sep })] for an
    ASCII [sep]: the maximal runs of bytes other than [sep], in order; no
    empty field is returned. *)
Definition FieldsFunc (s : string) (sep : ascii) : list string :=
  let '(hd, tl) := splitOn sep s in List.filter nonEmpty (hd :: tl).

(** Decimal rendering of a field index, [%d]. *)
Definition digit (n : nat) : ascii := ascii_of_nat (48 + n).

Fixpoint itoa_go (fuel n : nat) (acc : string) : string :=
  match fuel with
  | O => acc
  | S fuel' =>
      let acc' := String (digit (n mod 10)) acc in
      if (n / 10 =? 0)%nat then acc' else itoa_go fuel' (n / 10) acc'
  end.

Definition itoa (n : nat) : string := itoa_go (S n) n EmptyString.

(** *** UTF-8 decoding, as [unicode/utf8] does it *)

Local Open Scope Z_scope.

Definition RuneError : Z := 0xFFFD.
Definition RuneSelf : Z := 0x80.
Definition UTFMax : Z := 4.

(** The table [first]: what the first byte of a sequence announces. *)
Definition xx : Z := 0xF1.
Definition as_ : Z := 0xF0.
Definition s1 : Z := 0x02.
Definition s2 : Z := 0x13.
Definition s3 : Z := 0x03.
Definition s4 : Z := 0x23.
Definition s5 : Z := 0x34.
Definition s6 : Z := 0x04.
Definition s7 : Z := 0x44.

Definition first (b : Z) : Z :=
  if b <? 0x80 then as_
  else if b <? 0xC2 then xx
  else if b <? 0xE0 then s1
  else if b =? 0xE0 then s2
  else if b <? 0xED then s3
  else if b =? 0xED then s4
  else if b <? 0xF0 then s3
  else if b =? 0xF0 then s5
  else if b <? 0xF4 then s6
  else if b =? 0xF4 then s7
  else xx.

Definition locb : Z := 0x80.
Definition hicb : Z := 0xBF.

(** [acceptRanges]: lowest and highest second byte. *)
Definition acceptRanges (i : Z) : Z * Z :=
  if i =? 0 then (locb, hicb)
  else if i =? 1 then (0xA0, hicb)
  else if i =? 2 then (locb, 0x9F)
  else if i =? 3 then (0x90, hicb)
  else if i =? 4 then (locb, 0x8F)
  else (0, 0).

Definition byteAt (s : list ascii) (i : nat) : Z :=
  match nth_error s i with Some a => byteZ a | None => 0 end.

(** [utf8.DecodeRuneInString]: the first rune of [s] and its width in bytes;
    an invalid or short sequence is [(RuneError, 1)]. *)
Definition DecodeRuneInString (s : list ascii) : Z * nat :=
  match s with
  | [] => (RuneError, 0%nat)
  | a0 :: _ =>
      let s0 := byteZ a0 in
      let x := first s0 in
      if as_ <=? x then ((if Z.odd x then RuneError else s0), 1%nat)
      else
        let sz := Z.land x 7 in
        let '(lo, hi) := acceptRanges (Z.shiftr x 4) in
        if Z.of_nat (List.length s) <? sz then (RuneError, 1%nat)
        else
          let b1 := byteAt s 1 in
          if (b1 <? lo) || (hi <? b1) then (RuneError, 1%nat)
          else if sz <=? 2 then
            (Z.lor (Z.shiftl (Z.land s0 0x1F) 6) (Z.land b1 0x3F), 2%nat)
          else
            let b2 := byteAt s 2 in
            if (b2 <? locb) || (hicb <? b2) then (RuneError, 1%nat)
            else if sz <=? 3 then
              (Z.lor (Z.lor (Z.shiftl (Z.land s0 0x0F) 12)
                            (Z.shiftl (Z.land b1 0x3F) 6))
                     (Z.land b2 0x3F), 3%nat)
            else
              let b3 := byteAt s 3 in
              if (b3 <? locb) || (hicb <? b3) then (RuneError, 1%nat)
              else
                (Z.lor (Z.lor (Z.lor (Z.shiftl (Z.land s0 0x07) 18)
                                     (Z.shiftl (Z.land b1 0x3F) 12))
                              (Z.shiftl (Z.land b2 0x3F) 6))
                       (Z.land b3 0x3F), 4%nat)
  end.

(** [utf8.RuneStart]: not a continuation byte. *)
Definition RuneStart (b : Z) : bool := negb (Z.land b 0xC0 =? 0x80).

(** The backward scan of [DecodeLastRuneInString] for the start of the last
    rune: from [start] down to [lim], at most [n] steps. *)
Fixpoint lastStart (s : list ascii) (start lim : Z) (n : nat) : Z :=
  match n with
  | O => start
  | S n' =>
      if start <? lim then start
      else if RuneStart (byteAt s (Z.to_nat start)) then start
      else lastStart s (start - 1) lim n'
  end.

(** [utf8.DecodeLastRuneInString] *)
Definition DecodeLastRuneInString (s : list ascii) : Z * nat :=
  let end_ := Z.of_nat (List.length s) in
  if end_ =? 0 then (RuneError, 0%nat)
  else
    let r := byteAt s (Z.to_nat (end_ - 1)) in
    if r <? RuneSelf then (r, 1%nat)
    else
      let lim := Z.max (end_ - UTFMax) 0 in
      let start := lastStart s (end_ - 2) lim 4 in
      let start := Z.max start 0 in
      let '(r, size) := DecodeRuneInString (skipn (Z.to_nat start) s) in
      if start + Z.of_nat size =? end_ then (r, size) else (RuneError, 1%nat).

(** [asciiSpace]: tab, newline, vertical tab, form feed, return, space. *)
Definition asciiSpace (c : Z) : bool :=
  ((9 <=? c) && (c <=? 13)) || (c =? 32).

(** [unicode.IsSpace]: the Latin-1 cases, then the [White_Space] table. *)
Definition IsSpace (r : Z) : bool :=
  if (0 <=? r) && (r <=? 0xFF) then
    asciiSpace r || (r =? 0x85) || (r =? 0xA0)
  else
    (r =? 0x1680) || ((0x2000 <=? r) && (r <=? 0x200A)) ||
    ((0x2028 <=? r) && (r <=? 0x2029)) || (r =? 0x202F) ||
    (r =? 0x205F) || (r =? 0x3000).

(** [indexFunc(s, f, truth)]: the byte index of the first rune whose [f] is
    [truth].  [skip] counts the bytes of the current rune still to pass. *)
Fixpoint indexFunc_from (f : Z -> bool) (truth : bool) (s : list ascii)
    (skip i : nat) : option nat :=
  match s with
  | [] => None
  | _ :: rest =>
      match skip with
      | S k => indexFunc_from f truth rest k (S i)
      | O =>
          let '(r, size) := DecodeRuneInString s in
          if Bool.eqb (f r) truth then Some i
          else indexFunc_from f truth rest (size - 1)%nat (S i)
      end
  end.

Definition indexFunc (s : list ascii) (f : Z -> bool) (truth : bool) : option nat :=
  indexFunc_from f truth s 0%nat 0%nat.

(** [lastIndexFunc(s, f, truth)]: walk the runes from the end. *)
Fixpoint lastIndexFunc_from (f : Z -> bool) (truth : bool) (s : list ascii)
    (fuel i : nat) : option nat :=
  match fuel with
  | O => None
  | S fuel' =>
      if (i =? 0)%nat then None
      else
        let '(r, size) := DecodeLastRuneInString (firstn i s) in
        let i' := (i - size)%nat in
        if Bool.eqb (f r) truth then Some i'
        else lastIndexFunc_from f truth s fuel' i'
  end.

Definition lastIndexFunc (s : list ascii) (f : Z -> bool) (truth : bool) : option nat :=
  lastIndexFunc_from f truth s (List.length s) (List.length s).

(** [strings.TrimLeftFunc] *)
Definition TrimLeftFunc (s : list ascii) (f : Z -> bool) : list ascii :=
  match indexFunc s f false with
  | None => []
  | Some i => skipn i s
  end.

(** [strings.TrimRightFunc] *)
Definition TrimRightFunc (s : list ascii) (f : Z -> bool) : list ascii :=
  match lastIndexFunc s f false with
  | Some i =>
      if RuneSelf <=? byteAt s i
      then firstn (i + snd (DecodeRuneInString (skipn i s)))%nat s
      else firstn (S i) s
  | None => firstn 0 s
  end.

(** [strings.TrimFunc] *)
Definition TrimFunc (s : list ascii) (f : Z -> bool) : list ascii :=
  TrimRightFunc (TrimLeftFunc s f) f.

(** The second loop of [TrimSpace], on the reversed remainder: drop ASCII
    space from the end; a non-ASCII byte hands over to [TrimRightFunc]. *)
Fixpoint trimSpaceStop (rs : list ascii) : list ascii :=
  match rs with
  | [] => []
  | c :: rest =>
      if RuneSelf <=? byteZ c then TrimRightFunc (rev rs) IsSpace
      else if asciiSpace (byteZ c) then trimSpaceStop rest
      else rev rs
  end.

(** The first loop of [TrimSpace]: drop ASCII space from the front; a
    non-ASCII byte hands over to [TrimFunc]. *)
Fixpoint trimSpaceStart (s : list ascii) : list ascii :=
  match s with
  | [] => trimSpaceStop (rev s)
  | c :: rest =>
      if RuneSelf <=? byteZ c then TrimFunc s IsSpace
      else if asciiSpace (byteZ c) then trimSpaceStart rest
      else trimSpaceStop (rev s)
  end.

(** [strings.TrimSpace] *)
Definition TrimSpace (s : string) : string :=
  string_of_list_ascii (trimSpaceStart (list_ascii_of_string s)).

(** *** Case mapping and integer parsing *)

Definition isASCII (s : string) : bool :=
  forallb (fun c => byteZ c <? RuneSelf) (list_ascii_of_string s).

Definition mapBytes (f : Z -> Z) (s : string) : string :=
  string_of_list_ascii
    (List.map (fun c => ascii_of_N (Z.to_N (f (byteZ c)))) (list_ascii_of_string s)).

Definition lowerByte (c : Z) : Z := if (65 <=? c) && (c <=? 90) then c + 32 else c.
Definition upperByte (c : Z) : Z := if (97 <=? c) && (c <=? 122) then c - 32 else c.

(** [strings.ToLower] and [strings.ToUpper] on an ASCII-only string (the
    fast path of the library).  A string with a non-ASCII byte goes through
    the Unicode case tables, which are not part of this development:
    [None]. *)
Definition ToLower (s : string) : option string :=
  if isASCII s then Some (mapBytes lowerByte s) else None.
Definition ToUpper (s : string) : option string :=
  if isASCII s then Some (mapBytes upperByte s) else None.

Definition isDigit (c : ascii) : bool := (48 <=? byteZ c) && (byteZ c <=? 57).

Fixpoint digitsValue (s : list ascii) (acc : Z) : Z :=
  match s with
  | [] => acc
  | c :: rest => digitsValue rest (acc * 10 + (byteZ c - 48))
  end.

Definition minInt : Z := - 2 ^ 63.
Definition maxInt : Z := 2 ^ 63 - 1.

(** [strconv.Atoi] with a 64-bit [int]: an optional sign, then one or more
    decimal digits and nothing else; the value must fit the type.  [None]
    stands for a non-nil error (syntax or range). *)
Definition Atoi (s : string) : option Z :=
  let bytes := list_ascii_of_string s in
  let '(neg, digits) :=
    match bytes with
    | c :: rest =>
        if Ascii.eqb c "-"%char then (true, rest)
        else if Ascii.eqb c "+"%char then (false, rest)
        else (false, bytes)
    | [] => (false, bytes)
    end in
  match digits with
  | [] => None
  | _ =>
      if forallb isDigit digits then
        let n := digitsValue digits 0 in
        let v := if neg then - n else n in
        if (minInt <=? v) && (v <=? maxInt) then Some v else None
      else None
  end.

End GoStrings.

(** ** Errors ([errors.go]) *)

(** The message constants; an error keeps its constant and the arguments it
    was built with. *)
Inductive ErrFormat :=
| ErrNotAPointer
| ErrNotAStruct
| ErrInvalidTagName
| ErrInvalidTransformer
| ErrUnknownTagFmt
| ErrInvalidDiveFmt
| ErrUnexpectedValue
| ErrReservedTagOverride
| ErrInvalidParameters
| ErrMissingParametersFmt.

Record ErrMorph := { message : ErrFormat; args : list string }.

Definition newError (m : ErrFormat) : ErrMorph := {| message := m; args := [] |}.
Definition newErrorf (m : ErrFormat) (a : list string) : ErrMorph :=
  {| message := m; args := a |}.

(** What a call ends with: [nil], an error value, a run-time panic, the
    fuel of the embedding exhausted, or a library computation this
    development does not embed (floating point, Unicode case tables). *)
Inductive outcome :=
| Ok
| Err (e : ErrMorph)
| Panic (what : string)
| OutOfFuel
| Beyond (what : string).

Definition isOk (o : outcome) : bool := match o with Ok => true | _ => false end.

(** ** Run-time types and values ([reflect]) *)

Inductive Kind :=
| KInvalid | KBool
| KInt | KInt8 | KInt16 | KInt32 | KInt64
| KUint | KUint8 | KUint16 | KUint32 | KUint64 | KUintptr
| KFloat32 | KFloat64 | KComplex64 | KComplex128
| KArray | KChan | KFunc | KInterface | KMap | KPtr | KSlice | KString | KStruct
| KUnsafePointer.

Definition Kind_eqb (a b : Kind) : bool :=
  match a, b with
  | KInvalid, KInvalid | KBool, KBool | KInt, KInt | KInt8, KInt8
  | KInt16, KInt16 | KInt32, KInt32 | KInt64, KInt64 | KUint, KUint
  | KUint8, KUint8 | KUint16, KUint16 | KUint32, KUint32 | KUint64, KUint64
  | KUintptr, KUintptr | KFloat32, KFloat32 | KFloat64, KFloat64
  | KComplex64, KComplex64 | KComplex128, KComplex128 | KArray, KArray
  | KChan, KChan | KFunc, KFunc | KInterface, KInterface | KMap, KMap
  | KPtr, KPtr | KSlice, KSlice | KString, KString | KStruct, KStruct
  | KUnsafePointer, KUnsafePointer => true
  | _, _ => false
  end.

(** [Kind.String()] *)
Definition Kind_String (k : Kind) : string :=
  match k with
  | KInvalid => "invalid" | KBool => "bool"
  | KInt => "int" | KInt8 => "int8" | KInt16 => "int16" | KInt32 => "int32"
  | KInt64 => "int64"
  | KUint => "uint" | KUint8 => "uint8" | KUint16 => "uint16"
  | KUint32 => "uint32" | KUint64 => "uint64" | KUintptr => "uintptr"
  | KFloat32 => "float32" | KFloat64 => "float64"
  | KComplex64 => "complex64" | KComplex128 => "complex128"
  | KArray => "array" | KChan => "chan" | KFunc => "func"
  | KInterface => "interface" | KMap => "map" | KPtr => "ptr"
  | KSlice => "slice" | KString => "string" | KStruct => "struct"
  | KUnsafePointer => "unsafe.Pointer"
  end.

(** The kinds of values without parts: booleans, numbers, and the opaque
    channel, function and unsafe-pointer values. *)
Inductive ScalarKind :=
| SBool
| SInt | SInt8 | SInt16 | SInt32 | SInt64
| SUint | SUint8 | SUint16 | SUint32 | SUint64 | SUintptr
| SFloat32 | SFloat64 | SComplex64 | SComplex128
| SChan | SFunc | SUnsafePointer.

Definition scalarKind (k : ScalarKind) : Kind :=
  match k with
  | SBool => KBool
  | SInt => KInt | SInt8 => KInt8 | SInt16 => KInt16 | SInt32 => KInt32
  | SInt64 => KInt64
  | SUint => KUint | SUint8 => KUint8 | SUint16 => KUint16 | SUint32 => KUint32
  | SUint64 => KUint64 | SUintptr => KUintptr
  | SFloat32 => KFloat32 | SFloat64 => KFloat64
  | SComplex64 => KComplex64 | SComplex128 => KComplex128
  | SChan => KChan | SFunc => KFunc | SUnsafePointer => KUnsafePointer
  end.

(** [reflect.StructField]: what the cache builder reads of a field.  [Tag]
    is the struct tag as the key/value pairs [StructTag.Get] looks up. *)
Record StructField := {
  FieldName : string;
  IsExported : bool;
  Tag : list (string * string)
}.

(** [field.Tag.Get(key)]: the value of the first pair under [key], the empty
    string when there is none. *)
Fixpoint Tag_Get (tag : list (string * string)) (key : string) : string :=
  match tag with
  | [] => ""
  | (k, v) :: rest => if String.eqb k key then v else Tag_Get rest key
  end.

(** A struct type: the package path and name [getStructCache] keys on, the
    rendering [Type.String()] that [getParamsKey] uses, and the fields. *)
Record StructTypeOf (T : Type) := {
  PkgPath : string;
  TypeName : string;
  TypeString : string;
  Fields : list (StructField * T)
}.
Arguments PkgPath {T}.
Arguments TypeName {T}.
Arguments TypeString {T}.
Arguments Fields {T}.

Scheme All for list.
Scheme All for option.
Scheme All for prod.
Scheme All for StructTypeOf.

Inductive rtype :=
| TScalar (k : ScalarKind)
| TString
| TPtr (elem : rtype)
| TInterface
| TSlice (elem : rtype)
| TArray (n : nat) (elem : rtype)
| TMap (key elem : rtype)
| TStruct (st : StructTypeOf rtype).

Definition StructType := StructTypeOf rtype.

(** A value as a tree.  [VScalar k bits] is a value of the scalar kind [k]
    with its stored bits (no function embedded here reads them). A nil pointer keeps its element type; a nil interface, nil
    slice and nil map are [VInterface None], [VSlice []] and [VMap []]. The
    entries of a map are listed in the order [MapKeys] returns the keys. *)
Inductive value :=
| VScalar (k : ScalarKind) (bits : Z)
| VString (s : string)
| VPtr (elem : rtype) (p : option value)
| VInterface (x : option value)
| VStruct (t : StructType) (fields : list value)
| VSlice (items : list value)
| VArray (items : list value)
| VMap (entries : list (value * value)).

(** [Value.Kind()] *)
Definition kindOf (v : value) : Kind :=
  match v with
  | VScalar k _ => scalarKind k
  | VString _ => KString
  | VPtr _ _ => KPtr
  | VInterface _ => KInterface
  | VStruct _ _ => KStruct
  | VSlice _ => KSlice
  | VArray _ => KArray
  | VMap _ => KMap
  end.

(** [reflect.New(t).Elem()]: the zero value of [t]. *)
Fixpoint zero (t : rtype) : value :=
  match t with
  | TScalar k => VScalar k 0
  | TString => VString ""
  | TPtr e => VPtr e None
  | TInterface => VInterface None
  | TSlice _ => VSlice []
  | TArray n e => VArray (repeat (zero e) n)
  | TMap _ _ => VMap []
  | TStruct st => VStruct st (List.map (fun ft => zero (snd ft)) (Fields st))
  end.

(** A [reflect.Value]: the content it reads, whether it is addressable, and
    which cell it reads and writes: the storage the field handle was taken
    from, or a cell of its own made by [reflect.New]. *)
Inductive cellId := cell_original | cell_fresh.

Record Value := {
  content : value;
  CanAddr : bool;
  cell : cellId
}.

(** The Go variables whose address the traversal takes; a [*reflect.Value]
    is the variable it points to together with the handle stored there. *)
Inductive goVar :=
| var_fieldValue
| var_dataValueElement (depth : nat)
| var_newValue.

Definition goVar_eqb (a b : goVar) : bool :=
  match a, b with
  | var_fieldValue, var_fieldValue => true
  | var_dataValueElement m, var_dataValueElement n => Nat.eqb m n
  | var_newValue, var_newValue => true
  | _, _ => false
  end.

Record ValuePtr := {
  var : goVar;
  deref : Value
}.

(** ** The transformer protocol ([field_transformers.go]) *)

(** Tag names. *)
Definition TagTrim := "trim".
Definition TagLower := "lower".
Definition TagUpper := "upper".
Definition TagTruncate := "truncate".
Definition TagCeil := "ceil".
Definition TagFloor := "floor".
Definition TagRound := "round".
Definition TagPrecision := "precision".
Definition TagDive := "dive".
Definition TagKeys := "keys".
Definition TagExit := "exit".
Definition TagIgnore := "-".
Definition DefaultTag := "morph".
Definition TagSeparator : ascii := ","%char.
Definition ParamsSign : ascii := "="%char.

Definition navigationalTags : gmap string bool :=
  <[TagDive := true]> (<[TagKeys := true]> (<[TagExit := true]>
    (<[TagIgnore := true]> ∅))).

(** The [Values] maps of the [IntParameterTransformer]s, by instance: the
    parameter store.  In Go each map lives inside its transformer object;
    here the objects are immutable records and their maps are state. *)
Abbreviation paramStore := (gmap string (gmap string Z)).

(** [FieldTransformer]: the two methods.  [Transform] receives the content
    of the (addressable) cell its handle points to and the [paramsKey]
    pointer ([None] for nil), and returns the cell's new content;
    [Cache] receives the parameters and the key to store them under. *)
Record FieldTransformer := {
  Transform : paramStore -> value -> option string -> value * outcome;
  Cache : paramStore -> string -> string -> paramStore * outcome
}.

Definition Values (store : paramStore) (inst : string) : gmap string Z :=
  default ∅ (store !! inst).

(** [IntParameterTransformer.Cache] of the instance [inst] *)
Definition IntParameterTransformer_Cache (inst : string)
    (store : paramStore) (params key : string) : paramStore * outcome :=
  match GoStrings.Atoi params with
  | None => (store, Err (newErrorf ErrInvalidParameters [TagPrecision; params]))
  | Some v => (<[inst := <[key := v]> (Values store inst)]> store, Ok)
  end.

(** [ParameterlessTransformer.Cache] *)
Definition ParameterlessTransformer_Cache
    (store : paramStore) (_ _ : string) : paramStore * outcome :=
  (store, Ok).

Definition unexpected (tag : string) (v : value) : value * outcome :=
  (v, Err (newErrorf ErrUnexpectedValue [tag; Kind_String (kindOf v)])).

Definition nilDereference : string := "invalid memory address or nil pointer dereference".

Definition trimTransformer : FieldTransformer := {|
  Transform := fun _ v _ =>
    match v with
    | VString s => (VString (GoStrings.TrimSpace s), Ok)
    | _ => unexpected TagTrim v
    end;
  Cache := ParameterlessTransformer_Cache
|}.

Definition toLowerTransformer : FieldTransformer := {|
  Transform := fun _ v _ =>
    match v with
    | VString s =>
        match GoStrings.ToLower s with
        | Some s' => (VString s', Ok)
        | None => (v, Beyond "strings.ToLower")
        end
    | _ => unexpected TagLower v
    end;
  Cache := ParameterlessTransformer_Cache
|}.

Definition toUpperTransformer : FieldTransformer := {|
  Transform := fun _ v _ =>
    match v with
    | VString s =>
        match GoStrings.ToUpper s with
        | Some s' => (VString s', Ok)
        | None => (v, Beyond "strings.ToUpper")
        end
    | _ => unexpected TagUpper v
    end;
  Cache := ParameterlessTransformer_Cache
|}.

(** [truncateTransformer] over the instance [inst] of the int parameters *)
Definition truncateTransformer (inst : string) : FieldTransformer := {|
  Transform := fun store v paramsKey =>
    match v with
    | VString s =>
        match paramsKey with
        | None => (v, Panic nilDereference)
        | Some key =>
            match Values store inst !! key with
            | None => (v, Err (newErrorf ErrMissingParametersFmt [TagTruncate]))
            | Some limit =>
                if (limit <? 0)%Z then (v, Err (newErrorf ErrInvalidParameters []))
                else if (limit <? GoStrings.len s)%Z
                     then (VString (substring 0 (Z.to_nat limit) s), Ok)
                     else (v, Ok)
            end
        end
    | _ => unexpected TagTruncate v
    end;
  Cache := IntParameterTransformer_Cache inst
|}.

Definition isFloat (v : value) : bool :=
  Kind_eqb (kindOf v) KFloat64 || Kind_eqb (kindOf v) KFloat32.

(** [ceil], [floor], [round]: the kind check, then floating point. *)
Definition floatTransformer (tag what : string) : FieldTransformer := {|
  Transform := fun _ v _ =>
    if isFloat v then (v, Beyond what) else unexpected tag v;
  Cache := ParameterlessTransformer_Cache
|}.

Definition ceilTransformer := floatTransformer TagCeil "math.Ceil".
Definition floorTransformer := floatTransformer TagFloor "math.Floor".
Definition roundTransformer := floatTransformer TagRound "math.Round".

(** [precisionTransformer]: the kind check and the parameter lookup, then
    floating point. *)
Definition precisionTransformer (inst : string) : FieldTransformer := {|
  Transform := fun store v key =>
    if isFloat v then
      match key with
      | None => (v, Panic nilDereference)
      | Some k =>
          match Values store inst !! k with
          | None => (v, Err (newErrorf ErrMissingParametersFmt [TagPrecision]))
          | Some _ => (v, Beyond "float64 arithmetic")
          end
      end
    else unexpected TagPrecision v;
  Cache := IntParameterTransformer_Cache inst
|}.

(** ** The compiled chains and the cache ([cache.go]) *)

(** [*tagChainCache]: nil, or a node. *)
Inductive tagChainCache :=
| nilTag
| mkTag (tag : string) (params : string) (paramsKey : option string)
        (transformer : option FieldTransformer)
        (next : tagChainCache) (keysChain : tagChainCache).

Record fieldCache := { index : nat; tags : tagChainCache }.

Record structCache := { fieldsLength : nat; fields : list fieldCache }.

(** The state shared by all calls: [cache] with the parameter store. *)
Record cache := {
  tagName : string;
  transformers : gmap string FieldTransformer;
  structsCache : gmap string structCache;
  intParams : paramStore
}.

Definition withParams (c : cache) (p : paramStore) : cache :=
  {| tagName := tagName c; transformers := transformers c;
     structsCache := structsCache c; intParams := p |}.

Definition withStruct (c : cache) (key : string) (sc : structCache) : cache :=
  {| tagName := tagName c; transformers := transformers c;
     structsCache := <[key := sc]> (structsCache c); intParams := intParams c |}.

Definition withTransformer (c : cache) (tag : string) (tr : FieldTransformer) : cache :=
  {| tagName := tagName c; transformers := <[tag := tr]> (transformers c);
     structsCache := structsCache c; intParams := intParams c |}.

(** [getParamsKey] *)
Definition getParamsKey (valueType : string) (fieldIndex : nat) : string :=
  valueType ++ "." ++ GoStrings.itoa fieldIndex.

(** [cache.buildTagCache] *)
Definition buildTagCache (c : cache) (tag : string) (paramsKey : string)
    : cache * (tagChainCache + outcome) :=
  let '(tag, params) :=
    match GoStrings.IndexRune tag ParamsSign with
    | Some (S i) => (substring 0 (S i) tag,
                     substring (S (S i)) (String.length tag - S (S i)) tag)
    | _ => (tag, "")
    end in
  let tr := transformers c !! tag in
  let ok := match tr with Some _ => true | None => false end in
  if negb ok && negb (default false (navigationalTags !! tag))
  then (c, inr (Err (newErrorf ErrUnknownTagFmt [tag])))
  else
    match tr with
    | Some t =>
        match Cache t (intParams c) params paramsKey with
        | (store, Ok) =>
            (withParams c store, inl (mkTag tag params None tr nilTag nilTag))
        | (store, err) => (withParams c store, inr err)
        end
    | None => (c, inl (mkTag tag params None tr nilTag nilTag))
    end.

Definition setNext (node next : tagChainCache) : tagChainCache :=
  match node with
  | nilTag => nilTag
  | mkTag t p k tr _ kc => mkTag t p k tr next kc
  end.

Definition setKeysChain (node keysChain : tagChainCache) : tagChainCache :=
  match node with
  | nilTag => nilTag
  | mkTag t p k tr n _ => mkTag t p k tr n keysChain
  end.

Definition setParamsKey (node : tagChainCache) (key : string) : tagChainCache :=
  match node with
  | nilTag => nilTag
  | mkTag t p _ tr n kc => mkTag t p (Some key) tr n kc
  end.

(** The two loops of [cache.buildTagsCache] over the tokens still to read.
    [buildTagsFrom] is the outer loop at index [i]: it compiles the token,
    and when the token is [keys] and another one follows, the inner loop fills
    the key chain.  [buildKeysFrom] is the inner loop: it stops at [exit] or
    at the end, and the outer loop then resumes one token later (its [i++]
    steps over [exit]); it returns the key chain and the rest of the outer
    chain.  Tokens are compiled, and [Cache] is called, in reading order. *)
Fixpoint buildTagsFrom (c : cache) (allTags : list string) (paramsKey : string)
    {struct allTags} : cache * (tagChainCache + outcome) :=
  match allTags with
  | [] => (c, inl nilTag)
  | tag :: rest =>
      match buildTagCache c tag paramsKey with
      | (c1, inr err) => (c1, inr err)
      | (c1, inl newTagCache) =>
          if String.eqb tag TagKeys && negb (Nat.eqb (List.length rest) 0) then
            match buildKeysFrom c1 rest paramsKey with
            | (c2, inr err) => (c2, inr err)
            | (c2, inl (keyTagCache, outer)) =>
                (c2, inl (setNext (setKeysChain newTagCache keyTagCache) outer))
            end
          else
            match buildTagsFrom c1 rest paramsKey with
            | (c2, inr err) => (c2, inr err)
            | (c2, inl outer) => (c2, inl (setNext newTagCache outer))
            end
      end
  end
with buildKeysFrom (c : cache) (allTags : list string) (paramsKey : string)
    {struct allTags} : cache * (tagChainCache * tagChainCache + outcome) :=
  match allTags with
  | [] => (c, inl (nilTag, nilTag))
  | keyTag :: rest =>
      if String.eqb keyTag TagExit then
        match buildTagsFrom c rest paramsKey with
        | (c1, inr err) => (c1, inr err)
        | (c1, inl outer) => (c1, inl (nilTag, outer))
        end
      else
        match buildTagCache c keyTag paramsKey with
        | (c1, inr errBuild) => (c1, inr errBuild)
        | (c1, inl newKeyTagCache) =>
            match buildKeysFrom c1 rest paramsKey with
            | (c2, inr err) => (c2, inr err)
            | (c2, inl (keys, outer)) =>
                (c2, inl (setNext newKeyTagCache keys, outer))
            end
        end
  end.

(** [cache.buildTagsCache] *)
Definition buildTagsCache (c : cache) (tagsRaw paramsKey : string)
    : cache * (tagChainCache + outcome) :=
  buildTagsFrom c (GoStrings.FieldsFunc tagsRaw TagSeparator) paramsKey.

(** The loop of [cache.buildStructCache] from field [i] on. *)
Fixpoint buildFieldsFrom (c : cache) (typeString : string)
    (decls : list (StructField * rtype)) (i : nat)
    : cache * (list fieldCache + outcome) :=
  match decls with
  | [] => (c, inl [])
  | (field, _) :: rest =>
      if negb (IsExported field) then buildFieldsFrom c typeString rest (S i)
      else
        let tagsRaw := Tag_Get (Tag field) (tagName c) in
        if String.eqb tagsRaw TagIgnore then buildFieldsFrom c typeString rest (S i)
        else
          let '(c1, built) :=
            if Nat.ltb 0 (String.length tagsRaw) then
              let paramsKey := getParamsKey typeString i in
              match buildTagsCache c tagsRaw paramsKey with
              | (c1, inr err) => (c1, inr err)
              | (c1, inl tagsCache) => (c1, inl (setParamsKey tagsCache paramsKey))
              end
            else (c, inl nilTag) in
          match built with
          | inr err => (c1, inr err)
          | inl tags =>
              match buildFieldsFrom c1 typeString rest (S i) with
              | (c2, inr err) => (c2, inr err)
              | (c2, inl more) => (c2, inl ({| index := i; tags := tags |} :: more))
              end
          end
  end.

(** [cache.buildStructCache], on the type of the struct value *)
Definition buildStructCache (c : cache) (t : StructType)
    : cache * (structCache + outcome) :=
  match buildFieldsFrom c (TypeString t) (Fields t) 0 with
  | (c1, inr err) => (c1, inr err)
  | (c1, inl fs) => (c1, inl {| fieldsLength := List.length fs; fields := fs |})
  end.

Definition structKey (t : StructType) : string :=
  PkgPath t ++ "/" ++ TypeName t.

(** [cache.getStructCache] *)
Definition getStructCache (c : cache) (t : StructType)
    : cache * (structCache + outcome) :=
  let key := structKey t in
  match structsCache c !! key with
  | Some strCache => (c, inl strCache)
  | None =>
      match buildStructCache c t with
      | (c1, inr err) => (c1, inr err)
      | (c1, inl newCache) => (withStruct c1 key newCache, inl newCache)
      end
  end.

(** ** Equality of values: Go's [==] on map keys

    Structural: two keys are the same key when they have the same type and
    the same content.  (A pointer is compared by what it points to: the tree
    has no addresses.) *)

Definition StructField_eqb (a b : StructField) : bool :=
  String.eqb (FieldName a) (FieldName b) &&
  Bool.eqb (IsExported a) (IsExported b) &&
  (fix go (l1 l2 : list (string * string)) : bool :=
     match l1, l2 with
     | [], [] => true
     | (k1, v1) :: r1, (k2, v2) :: r2 =>
         String.eqb k1 k2 && String.eqb v1 v2 && go r1 r2
     | _, _ => false
     end) (Tag a) (Tag b).

Fixpoint rtype_eqb (a b : rtype) {struct a} : bool :=
  match a, b with
  | TScalar k1, TScalar k2 => Kind_eqb (scalarKind k1) (scalarKind k2)
  | TString, TString => true
  | TPtr e1, TPtr e2 => rtype_eqb e1 e2
  | TInterface, TInterface => true
  | TSlice e1, TSlice e2 => rtype_eqb e1 e2
  | TArray n1 e1, TArray n2 e2 => Nat.eqb n1 n2 && rtype_eqb e1 e2
  | TMap k1 e1, TMap k2 e2 => rtype_eqb k1 k2 && rtype_eqb e1 e2
  | TStruct st1, TStruct st2 =>
      String.eqb (PkgPath st1) (PkgPath st2) &&
      String.eqb (TypeName st1) (TypeName st2) &&
      String.eqb (TypeString st1) (TypeString st2) &&
      (fix go (l1 l2 : list (StructField * rtype)) : bool :=
         match l1, l2 with
         | [], [] => true
         | (f1, t1) :: r1, (f2, t2) :: r2 =>
             StructField_eqb f1 f2 && rtype_eqb t1 t2 && go r1 r2
         | _, _ => false
         end) (Fields st1) (Fields st2)
  | _, _ => false
  end.

Definition StructType_eqb (a b : StructType) : bool :=
  rtype_eqb (TStruct a) (TStruct b).

Fixpoint value_eqb (a b : value) {struct a} : bool :=
  match a, b with
  | VScalar k1 z1, VScalar k2 z2 =>
      Kind_eqb (scalarKind k1) (scalarKind k2) && (z1 =? z2)%Z
  | VString s1, VString s2 => String.eqb s1 s2
  | VPtr e1 None, VPtr e2 None => rtype_eqb e1 e2
  | VPtr e1 (Some p1), VPtr e2 (Some p2) => rtype_eqb e1 e2 && value_eqb p1 p2
  | VInterface None, VInterface None => true
  | VInterface (Some x1), VInterface (Some x2) => value_eqb x1 x2
  | VStruct t1 f1, VStruct t2 f2 =>
      StructType_eqb t1 t2 &&
      (fix go (l1 l2 : list value) : bool :=
         match l1, l2 with
         | [], [] => true
         | x1 :: r1, x2 :: r2 => value_eqb x1 x2 && go r1 r2
         | _, _ => false
         end) f1 f2
  | VSlice i1, VSlice i2 | VArray i1, VArray i2 =>
      (fix go (l1 l2 : list value) : bool :=
         match l1, l2 with
         | [], [] => true
         | x1 :: r1, x2 :: r2 => value_eqb x1 x2 && go r1 r2
         | _, _ => false
         end) i1 i2
  | VMap m1, VMap m2 =>
      (fix go (l1 l2 : list (value * value)) : bool :=
         match l1, l2 with
         | [], [] => true
         | (k1, x1) :: r1, (k2, x2) :: r2 =>
             value_eqb k1 k2 && value_eqb x1 x2 && go r1 r2
         | _, _ => false
         end) m1 m2
  | _, _ => false
  end.

(** ** Maps as ordered entry lists *)

(** [mapValue.MapKeys()] *)
Definition MapKeys (m : list (value * value)) : list value := List.map fst m.

(** [mapValue.MapIndex(key)]: [None] for the zero [Value] of a missing key. *)
Fixpoint MapIndex (m : list (value * value)) (key : value) : option value :=
  match m with
  | [] => None
  | (k, v) :: rest => if value_eqb k key then Some v else MapIndex rest key
  end.

Definition mapDelete (m : list (value * value)) (key : value) : list (value * value) :=
  List.filter (fun kv => negb (value_eqb (fst kv) key)) m.

(** [mapValue.SetMapIndex(key, elem)]: with the zero [Value] ([None]) the
    key is deleted; otherwise the entry is stored, over an entry the key
    already has. *)
Definition SetMapIndex (m : list (value * value)) (key : value) (elem : option value)
    : list (value * value) :=
  match elem with
  | None => mapDelete m key
  | Some v => mapDelete m key ++ [(key, v)]
  end.

(** ** Handles ([util.go]) *)

Definition mkValue (v : value) (addr : bool) : Value :=
  {| content := v; CanAddr := addr; cell := cell_original |}.

Definition setContent (h : ValuePtr) (v : value) : ValuePtr :=
  {| var := var h;
     deref := {| content := v; CanAddr := CanAddr (deref h); cell := cell (deref h) |} |}.

(** The wrappers [getActualValue] passes through on its way in; the result
    of the traversal is put back under them. *)
Inductive wrapper := WPtr (elem : rtype) | WInterface.

Fixpoint rewrap (path : list wrapper) (v : value) : value :=
  match path with
  | [] => v
  | WPtr e :: rest => VPtr e (Some (rewrap rest v))
  | WInterface :: rest => VInterface (Some (rewrap rest v))
  end.

(** [getActualValue]: follow non-nil pointers and interfaces.  The element
    of a pointer is addressable, the element of an interface is not; each
    recursive call returns the address of its own local [dataValueElement],
    the outermost call the pointer it was given. *)
Fixpoint getActualValue_in (v : value) (addr : bool) (x : goVar) (depth : nat)
    : list wrapper * ValuePtr :=
  match v with
  | VPtr e (Some p) =>
      let '(path, r) := getActualValue_in p true (var_dataValueElement depth) (S depth) in
      (WPtr e :: path, r)
  | VInterface (Some y) =>
      let '(path, r) := getActualValue_in y false (var_dataValueElement depth) (S depth) in
      (WInterface :: path, r)
  | _ => ([], {| var := x; deref := mkValue v addr |})
  end.

Definition getActualValue (dataValue : ValuePtr) : list wrapper * ValuePtr :=
  getActualValue_in (content (deref dataValue)) (CanAddr (deref dataValue))
                    (var dataValue) 0.

(** [getAssignableValue]: the handle the transformers work on, in the
    local variable [newValue].  For a pointer (here always a nil one) and for
    a value that is not addressable it is a cell of its own; otherwise it
    is a copy of the handle, onto the same storage. *)
Definition getAssignableValue (value_ : ValuePtr) (kind : Kind) : ValuePtr :=
  let v := deref value_ in
  let newValue :=
    if Kind_eqb kind KPtr then
      match content v with
      | VPtr e None => {| content := zero e; CanAddr := true; cell := cell_fresh |}
      | VPtr e (Some p) => {| content := p; CanAddr := true; cell := cell_fresh |}
      | _ => v
      end
    else if negb (CanAddr v) then
      {| content := content v; CanAddr := true; cell := cell_fresh |}
    else v in
  {| var := var_newValue; deref := newValue |}.

Definition unaddressable : string := "reflect: reflect.Value.Set using unaddressable value".

(** [assignValue]: the new content of [target]. *)
Definition assignValue (target value_ : ValuePtr) (targetKind : Kind) : value * outcome :=
  let t := deref target in
  if Kind_eqb targetKind KPtr then
    match content t with
    | VPtr e _ =>
        if CanAddr t && CanAddr (deref value_)
        then (VPtr e (Some (content (deref value_))), Ok)
        else (content t, Panic unaddressable)
    | _ => (content t, Panic unaddressable)
    end
  else if negb (CanAddr t) then (content t, Panic unaddressable)
  else (content t, Ok).

(** ** The traversal ([morph.go]) *)

(** What [morphField] computes: the new state, the new content of the
    storage behind [fieldValue], and the error. *)
Definition morphFieldT := cache -> Value -> tagChainCache -> cache * value * outcome.

Definition nextOf (t : tagChainCache) : tagChainCache :=
  match t with nilTag => nilTag | mkTag _ _ _ _ n _ => n end.
Definition keysChainOf (t : tagChainCache) : tagChainCache :=
  match t with nilTag => nilTag | mkTag _ _ _ _ _ kc => kc end.
Definition tagOf (t : tagChainCache) : string :=
  match t with nilTag => "" | mkTag tg _ _ _ _ _ => tg end.
Definition isNil (t : tagChainCache) : bool :=
  match t with nilTag => true | _ => false end.

Section Traversal.

(** The recursive call [c.morphField], one level down. *)
Variable morphField : morphFieldT.

Definition fieldOutOfRange : string := "reflect: Field index out of range".
Definition indexOutOfRange : string := "runtime error: index out of range".
Definition notAStructValue : string := "reflect: call of reflect.Value.NumField on non-struct Value".
Definition setZeroValue : string := "reflect: call of reflect.Value.Set on zero Value".

(** The loop of [morphStruct] over [strCache.fields[i]] for [n] more
    rounds; [fs] is the content of the struct's fields so far. *)
Fixpoint morphStruct_loop (c : cache) (addr : bool) (fcs : list fieldCache)
    (n : nat) (fs : list value) : cache * list value * outcome :=
  match n with
  | O => (c, fs, Ok)
  | S n' =>
      match fcs with
      | [] => (c, fs, Panic indexOutOfRange)
      | field :: more =>
          match fs !! index field with
          | None => (c, fs, Panic fieldOutOfRange)
          | Some x =>
              match morphField c (mkValue x addr) (tags field) with
              | (c1, x', Ok) =>
                  morphStruct_loop c1 addr more n' (<[index field := x']> fs)
              | (c1, x', err) => (c1, <[index field := x']> fs, err)
              end
          end
      end
  end.

(** [morpher.morphStruct] *)
Definition morphStruct (c : cache) (structValue : Value) : cache * value * outcome :=
  match content structValue with
  | VStruct t fs =>
      match getStructCache c t with
      | (c1, inr err) => (c1, VStruct t fs, err)
      | (c1, inl strCache) =>
          let '(c2, fs', err) :=
            morphStruct_loop c1 (CanAddr structValue) (fields strCache)
                             (fieldsLength strCache) fs in
          (c2, VStruct t fs', err)
      end
  | v => (c, v, Panic notAStructValue)
  end.

(** The loop of [morphCollection]: element by element while [err == nil]. *)
Fixpoint morphCollection_loop (c : cache) (addr : bool) (tags : tagChainCache)
    (items : list value) : cache * list value * outcome :=
  match items with
  | [] => (c, [], Ok)
  | x :: rest =>
      match morphField c (mkValue x addr) tags with
      | (c1, x', Ok) =>
          let '(c2, rest', err) := morphCollection_loop c1 addr tags rest in
          (c2, x' :: rest', err)
      | (c1, x', err) => (c1, x' :: rest, err)
      end
  end.

(** [morpher.morphCollection]: [sliceValue.Index(i)] is addressable for a
    slice, and for an array when the array is. *)
Definition morphCollection (c : cache) (sliceValue : Value) (tags : tagChainCache)
    : cache * value * outcome :=
  match content sliceValue with
  | VSlice items =>
      let '(c1, items', err) := morphCollection_loop c true tags items in
      (c1, VSlice items', err)
  | VArray items =>
      let '(c1, items', err) :=
        morphCollection_loop c (CanAddr sliceValue) tags items in
      (c1, VArray items', err)
  | v => (c, v, Panic "reflect: call of reflect.Value.Len on a value that has no length")
  end.

(** [morpher.morphMapKey]: the key is copied into an addressable cell and
    morphed there; the new content of that cell is the new key. *)
Definition morphMapKey (c : cache) (key : value) (tags : tagChainCache)
    : cache * value * outcome :=
  morphField c (mkValue key true) tags.

(** The loop of [morphMap] over the keys [MapKeys] returned. *)
Fixpoint morphMap_loop (c : cache) (shouldMorphKeys : bool) (tags : tagChainCache)
    (keys : list value) (m : list (value * value))
    : cache * list (value * value) * outcome :=
  match keys with
  | [] => (c, m, Ok)
  | key :: rest =>
      match MapIndex m key with
      | None => (c, m, Panic setZeroValue)
      | Some elem =>
          let morphedValue := mkValue elem true in
          if shouldMorphKeys then
            let m1 := SetMapIndex m key None in
            match morphMapKey c key (keysChainOf tags) with
            | (c1, key', Ok) =>
                match morphField c1 morphedValue (nextOf tags) with
                | (c2, elem', Ok) =>
                    morphMap_loop c2 shouldMorphKeys tags rest
                                  (SetMapIndex m1 key' (Some elem'))
                | (c2, _, err) => (c2, m1, err)
                end
            | (c1, _, err) => (c1, m1, err)
            end
          else
            match morphField c morphedValue tags with
            | (c1, elem', Ok) =>
                morphMap_loop c1 shouldMorphKeys tags rest
                              (SetMapIndex m key (Some elem'))
            | (c1, _, err) => (c1, m, err)
            end
      end
  end.

(** [morpher.morphMap] *)
Definition morphMap (c : cache) (mapValue : Value) (tags : tagChainCache)
    : cache * value * outcome :=
  let shouldMorphKeys :=
    negb (isNil tags) && String.eqb (tagOf tags) TagKeys
    && negb (isNil (keysChainOf tags)) in
  match content mapValue with
  | VMap m =>
      let '(c1, m', err) := morphMap_loop c shouldMorphKeys tags (MapKeys m) m in
      (c1, VMap m', err)
  | v => (c, v, Panic "reflect: call of reflect.Value.MapKeys on a value that is not a map")
  end.

(** [morpher.dive]: the new content of [actualValue]. *)
Definition dive (c : cache) (actualValue : ValuePtr) (actualKind : Kind)
    (tag : tagChainCache) : cache * value * outcome :=
  match actualKind with
  | KSlice | KArray => morphCollection c (deref actualValue) tag
  | KMap => morphMap c (deref actualValue) tag
  | _ => (c, content (deref actualValue),
          Err (newErrorf ErrInvalidDiveFmt [Kind_String actualKind]))
  end.

(** Two handles onto one cell see each other's writes. *)
Definition sameCell (a b : ValuePtr) : bool :=
  match cell (deref a), cell (deref b) with
  | cell_original, cell_original => true
  | _, _ => false
  end.

(** The chain loop of [morphField]: [for currentTag := tag; currentTag !=
    nil && err == nil; currentTag = currentTag.next].  It returns the two
    handles with what their cells hold afterwards. *)
Fixpoint morphField_loop (c : cache) (actualValue newValue : ValuePtr)
    (actualKind : Kind) (currentTag : tagChainCache)
    : cache * ValuePtr * ValuePtr * outcome :=
  match currentTag with
  | nilTag => (c, actualValue, newValue, Ok)
  | mkTag tag _ paramsKey transformer next _ =>
      if String.eqb tag TagDive then
        let '(c1, a', err) := dive c actualValue actualKind next in
        (c1, setContent actualValue a',
         (if sameCell newValue actualValue then setContent newValue a' else newValue),
         err)
      else
        match transformer with
        | None => morphField_loop c actualValue newValue actualKind next
        | Some t =>
            let '(w', err) :=
              Transform t (intParams c) (content (deref newValue)) paramsKey in
            let actualValue' :=
              if sameCell newValue actualValue then setContent actualValue w'
              else actualValue in
            let newValue' := setContent newValue w' in
            if isOk err
            then morphField_loop c actualValue' newValue' actualKind next
            else (c, actualValue', newValue', err)
        end
  end.

(** The body of [morpher.morphField]. *)
Definition morphField_body (c : cache) (fieldValue : Value) (tag : tagChainCache)
    : cache * value * outcome :=
  let '(path, actualValue) :=
    getActualValue {| var := var_fieldValue; deref := fieldValue |} in
  let actualKind := kindOf (content (deref actualValue)) in
  if Kind_eqb actualKind KStruct then
    let '(c1, v', err) := morphStruct c (deref actualValue) in
    (c1, rewrap path v', err)
  else
    let newValue := getAssignableValue actualValue actualKind in
    let '(c1, actualValue', newValue', err) :=
      morphField_loop c actualValue newValue actualKind tag in
    if negb (isOk err) || negb (goVar_eqb (var newValue') (var actualValue')) then
      (c1, rewrap path (content (deref actualValue')), err)
    else
      let '(v', err') := assignValue actualValue' newValue' actualKind in
      (c1, rewrap path v', err').

End Traversal.

(** [morpher.morphField], with the nesting depth it may descend. *)
Fixpoint morphField (fuel : nat) (c : cache) (fieldValue : Value)
    (tag : tagChainCache) {struct fuel} : cache * value * outcome :=
  match fuel with
  | O => (c, content fieldValue, OutOfFuel)
  | S fuel' => morphField_body (morphField fuel') c fieldValue tag
  end.

(** The argument of [Struct]: an [interface{}], nil or holding a value. *)
Definition Struct (fuel : nat) (c : cache) (structPtr : option value)
    : cache * option value * outcome :=
  match structPtr with
  | None => (c, structPtr, Err (newError ErrNotAPointer))
  | Some dataValue =>
      if negb (Kind_eqb (kindOf dataValue) KPtr) then
        (c, structPtr, Err (newError ErrNotAPointer))
      else
        match dataValue with
        | VPtr e (Some pointee) =>
            if negb (Kind_eqb (kindOf pointee) KStruct) then
              (c, structPtr, Err (newError ErrNotAStruct))
            else
              let '(c1, pointee', err) :=
                morphStruct (morphField fuel) c (mkValue pointee true) in
              (c1, Some (VPtr e (Some pointee')), err)
        | _ => (c, structPtr, Err (newError ErrNotAStruct))
        end
  end.

(** [morpher.Register]; [None] is the nil transformer. *)
Definition Register (c : cache) (tag : string) (transformer : option FieldTransformer)
    : cache * outcome :=
  let tag := GoStrings.TrimSpace tag in
  if Nat.eqb (String.length tag) 0 then (c, Err (newError ErrInvalidTagName))
  else
    match navigationalTags !! tag with
    | Some _ => (c, Err (newErrorf ErrReservedTagOverride [tag]))
    | None =>
        match transformer with
        | None => (c, Err (newError ErrInvalidTransformer))
        | Some tr => (withTransformer c tag tr, Ok)
        end
    end.

(** [morpher.WithTag]; the panic carries [ErrInvalidTagName]. *)
Definition WithTag (c : cache) (tag : string) : cache * outcome :=
  let tag := GoStrings.TrimSpace tag in
  if Nat.eqb (String.length tag) 0 then (c, Panic "invalid tag name")
  else
    ({| tagName := tag; transformers := transformers c;
        structsCache := structsCache c; intParams := intParams c |}, Ok).

(** [New] *)
Definition New : cache := {|
  tagName := DefaultTag;
  transformers :=
    <[TagTrim := trimTransformer]> (
    <[TagLower := toLowerTransformer]> (
    <[TagUpper := toUpperTransformer]> (
    <[TagTruncate := truncateTransformer TagTruncate]> (
    <[TagCeil := ceilTransformer]> (
    <[TagFloor := floorTransformer]> (
    <[TagRound := roundTransformer]> (
    <[TagPrecision := precisionTransformer TagPrecision]> ∅)))))));
  structsCache := ∅;
  intParams := ∅
|}.

(** * Terms of the statements *)

(** The functions, shapes and transformers the properties below are stated
    with.  None of them is part of the program. *)

(** ** For: reading the compiler's results *)

(** Sequencing of two compilation steps: the second runs in the state the
    first leaves, unless the first failed. *)
Definition bindC {A B : Type} (m : cache * (A + outcome))
    (k : cache -> A -> cache * (B + outcome)) : cache * (B + outcome) :=
  match m with
  | (c, inl a) => k c a
  | (c, inr err) => (c, inr err)
  end.

(** The chain the specification describes for tokens without key handling:
    every token compiled in order, each linked to the next. *)
Fixpoint buildLinear (c : cache) (tokens : list string) (paramsKey : string)
    : cache * (tagChainCache + outcome) :=
  match tokens with
  | [] => (c, inl nilTag)
  | t :: rest =>
      bindC (buildTagCache c t paramsKey) (fun c1 node =>
      bindC (buildLinear c1 rest paramsKey) (fun c2 more =>
        (c2, inl (setNext node more))))
  end.

(** [appendChain a b]: the chain [a] continued by [b] along [next]. *)
Fixpoint appendChain (a b : tagChainCache) : tagChainCache :=
  match a with
  | nilTag => b
  | mkTag t p k tr n kc => mkTag t p k tr (appendChain n b) kc
  end.

(** The tokens before the first [exit], and those after it. *)
Fixpoint untilExit (tokens : list string) : list string :=
  match tokens with
  | [] => []
  | t :: rest => if String.eqb t TagExit then [] else t :: untilExit rest
  end.

Fixpoint afterExit (tokens : list string) : list string :=
  match tokens with
  | [] => []
  | t :: rest => if String.eqb t TagExit then rest else afterExit rest
  end.

(** ** For: integer parameters *)

(** The bytes of a parameter after one leading sign. *)
Definition afterSign (s : string) : list ascii :=
  match list_ascii_of_string s with
  | c :: rest =>
      if Ascii.eqb c "-"%char || Ascii.eqb c "+"%char then rest else c :: rest
  | [] => []
  end.

(** ** For: whitespace trimming *)

Module TrimSpaceTerms.
Import GoStrings.
Local Open Scope Z_scope.

(** The part of [DecodeRuneInString] after the first byte has announced a
    sequence of [sz] bytes whose second byte lies in [lo, hi]. *)
Definition decodeLead (sz lo hi : Z) (s : list ascii) : Z * nat :=
  let s0 := byteAt s 0 in
  if Z.of_nat (List.length s) <? sz then (RuneError, 1%nat)
  else
    let b1 := byteAt s 1 in
    if (b1 <? lo) || (hi <? b1) then (RuneError, 1%nat)
    else if sz <=? 2 then
      (Z.lor (Z.shiftl (Z.land s0 0x1F) 6) (Z.land b1 0x3F), 2%nat)
    else
      let b2 := byteAt s 2 in
      if (b2 <? locb) || (hicb <? b2) then (RuneError, 1%nat)
      else if sz <=? 3 then
        (Z.lor (Z.lor (Z.shiftl (Z.land s0 0x0F) 12)
                      (Z.shiftl (Z.land b1 0x3F) 6))
               (Z.land b2 0x3F), 3%nat)
      else
        let b3 := byteAt s 3 in
        if (b3 <? locb) || (hicb <? b3) then (RuneError, 1%nat)
        else
          (Z.lor (Z.lor (Z.lor (Z.shiftl (Z.land s0 0x07) 18)
                               (Z.shiftl (Z.land b1 0x3F) 12))
                        (Z.shiftl (Z.land b2 0x3F) 6))
                 (Z.land b3 0x3F), 4%nat).

(** A well-formed sequence: its width, the continuation bytes it is made
    of, and its independence of what follows. *)
Definition wellFormed (dec : list ascii -> Z * nat) (x : list ascii)
    (r : Z) (n : nat) : Prop :=
  (2 <= n <= List.length x)%nat /\
  (forall i, (1 <= i < n)%nat -> RuneStart (byteAt x i) = false) /\
  (forall y, firstn n y = firstn n x -> dec y = (r, n)).

(** Where [TrimRightFunc] cuts: the end of the last rune that is not
    space, walking the runes from the end as [lastIndexFunc] does. *)
Fixpoint rightEnd (s : list ascii) (fuel i : nat) : nat :=
  match fuel with
  | O => 0%nat
  | S fuel' =>
      if (i =? 0)%nat then 0%nat
      else
        let '(r, size) := DecodeLastRuneInString (firstn i s) in
        if IsSpace r then rightEnd s fuel' (i - size)%nat else i
  end.

(** What [TrimRightFunc] returns once [lastIndexFunc] has answered. *)
Definition cutAt (u : list ascii) (found : option nat) : list ascii :=
  match found with
  | Some i =>
      if RuneSelf <=? byteAt u i
      then firstn (i + snd (DecodeRuneInString (skipn i u)))%nat u
      else firstn (S i) u
  | None => firstn 0 u
  end.

End TrimSpaceTerms.

(** ** For: the shape descriptor cache *)

(** Two record shapes of the test suite: both are declared as [testData],
    each inside its own test function of package [morph]. *)
Definition morphPkg : string := "github.com/antony-jekov/morph".

Definition testData_trim : StructType := {|
  PkgPath := morphPkg; TypeName := "testData"; TypeString := "morph.testData";
  Fields := [({| FieldName := "String"; IsExported := true;
                 Tag := [(DefaultTag, "trim")] |}, TString)]
|}.

Definition testData_upper : StructType := {|
  PkgPath := morphPkg; TypeName := "testData"; TypeString := "morph.testData";
  Fields := [({| FieldName := "String"; IsExported := true;
                 Tag := [(DefaultTag, "upper")] |}, TString)]
|}.

Definition structArg (t : StructType) (fs : list value) : option value :=
  Some (VPtr (TStruct t) (Some (VStruct t fs))).

(** A record shape with no annotation at all: two fields of unnamed struct
    types, [struct { X string }] and [struct {}]. *)
Definition anonX : StructType := {|
  PkgPath := ""; TypeName := ""; TypeString := "struct { X string }";
  Fields := [({| FieldName := "X"; IsExported := true; Tag := [] |}, TString)]
|}.

Definition anonEmpty : StructType := {|
  PkgPath := ""; TypeName := ""; TypeString := "struct {}"; Fields := []
|}.

Definition plainRecord : StructType := {|
  PkgPath := "main"; TypeName := "R"; TypeString := "main.R";
  Fields := [({| FieldName := "A"; IsExported := true; Tag := [] |}, TStruct anonX);
             ({| FieldName := "B"; IsExported := true; Tag := [] |}, TStruct anonEmpty)]
|}.

(** ** For: records without annotations *)

(** The descriptor of a shape none of whose fields carries an annotation:
    its exported fields, each without a chain. *)
Fixpoint plainFields (decls : list (StructField * rtype)) (i : nat) : list fieldCache :=
  match decls with
  | [] => []
  | (field, _) :: rest =>
      if IsExported field
      then {| index := i; tags := nilTag |} :: plainFields rest (S i)
      else plainFields rest (S i)
  end.

Definition plainDescriptor (t : StructType) : structCache :=
  {| fieldsLength := List.length (plainFields (Fields t) 0);
     fields := plainFields (Fields t) 0 |}.

(** No field of [t] carries an annotation under the tag name [tn]: the
    annotation string is empty or made of separators only. *)
Definition unannotated (tn : string) (t : StructType) : bool :=
  forallb (fun d =>
             match GoStrings.FieldsFunc (Tag_Get (Tag (fst d)) tn) TagSeparator with
             | [] => true
             | _ => false
             end) (Fields t).

(** The record [v] and the records nested in it (behind pointers and
    interfaces, and in fields) carry no annotation and have a value for
    every declared field. *)
Fixpoint plainValue (tn : string) (v : value) : bool :=
  match v with
  | VPtr _ (Some p) => plainValue tn p
  | VInterface (Some x) => plainValue tn x
  | VStruct t fs =>
      Nat.eqb (List.length fs) (List.length (Fields t)) && unannotated tn t
      && forallb (plainValue tn) fs
  | _ => true
  end.

(** The struct shapes a traversal without [dive] meets in [v]. *)
Fixpoint shapes (v : value) : list StructType :=
  match v with
  | VPtr _ (Some p) => shapes p
  | VInterface (Some x) => shapes x
  | VStruct t fs => t :: flat_map shapes fs
  | _ => []
  end.

(** The nesting depth of records in [v]. *)
Fixpoint depth (v : value) : nat :=
  match v with
  | VPtr _ (Some p) => depth p
  | VInterface (Some x) => depth x
  | VStruct _ fs => S (list_max (List.map depth fs))
  | _ => 0
  end.

(** The state keeps the tag name [tn], and holds for the shapes [known]
    only descriptors built from them. *)
Definition coherent (tn : string) (known : list StructType) (c : cache) : Prop :=
  tagName c = tn /\
  forall t d, In t known -> structsCache c !! structKey t = Some d ->
              d = plainDescriptor t.

(** A record with nested records, none with an annotation under the tag
    name [morph]: [Inner] has a [json] tag, [Outer] an annotation made of a
    separator only and an unexported field. *)
Definition plainInner : StructType := {|
  PkgPath := "main"; TypeName := "Inner"; TypeString := "main.Inner";
  Fields := [({| FieldName := "X"; IsExported := true; Tag := [("json", "x")] |},
              TString)]
|}.

Definition plainOuter : StructType := {|
  PkgPath := "main"; TypeName := "Outer"; TypeString := "main.Outer";
  Fields := [({| FieldName := "Name"; IsExported := true;
                 Tag := [(DefaultTag, ",")] |}, TString);
             ({| FieldName := "hidden"; IsExported := false; Tag := [] |}, TString);
             ({| FieldName := "In"; IsExported := true; Tag := [] |},
              TStruct plainInner);
             ({| FieldName := "P"; IsExported := true; Tag := [] |},
              TPtr (TStruct plainInner))]
|}.

Definition plainOuterValue : value :=
  VStruct plainOuter
    [VString " n "; VString " h "; VStruct plainInner [VString " x "];
     VPtr (TStruct plainInner) (Some (VStruct plainInner [VString " y "]))].

(** ** For: diving into sequences *)

(** [visited mf addr tags c items c' items']: the elements of [items] were
    processed one after the other, in index order, each by [mf] on the
    element alone and each without error, giving [items']. *)
Inductive visited (mf : morphFieldT) (addr : bool) (tags : tagChainCache)
    : cache -> list value -> cache -> list value -> Prop :=
| visited_nil c : visited mf addr tags c [] c []
| visited_cons c x c1 x' rest c2 rest' :
    mf c (mkValue x addr) tags = (c1, x', Ok) ->
    visited mf addr tags c1 rest c2 rest' ->
    visited mf addr tags c (x :: rest) c2 (x' :: rest').

Definition trimNode : tagChainCache :=
  mkTag TagTrim "" None (Some trimTransformer) nilTag nilTag.

(** ** For: writing back *)

(** The custom transformer of the test suite ([Test_StructWithCustomTag]):
    [SetString("baba")]. *)
Definition babaTransformer : FieldTransformer := {|
  Transform := fun _ v _ =>
    match v with
    | VString _ => (VString "baba", Ok)
    | _ => (v, Panic "reflect: call of reflect.Value.SetString on a value that is not a string")
    end;
  Cache := ParameterlessTransformer_Cache
|}.

Definition testData_babaPtr : StructType := {|
  PkgPath := morphPkg; TypeName := "testData"; TypeString := "morph.testData";
  Fields := [({| FieldName := "String"; IsExported := true;
                 Tag := [(DefaultTag, "baba")] |}, TPtr TString)]
|}.

Definition testData_trimInterface : StructType := {|
  PkgPath := morphPkg; TypeName := "testData"; TypeString := "morph.testData";
  Fields := [({| FieldName := "Value"; IsExported := true;
                 Tag := [(DefaultTag, "trim")] |}, TInterface)]
|}.

(** ** For: diving into maps *)




(** ** For: registration after compilation *)

(** The shape of the value behind [fieldValue] is a struct shape with no
    descriptor in the cache. *)
Definition shapeMissing (c : cache) (fieldValue : Value) : bool :=
  let '(_, actualValue) :=
    getActualValue {| var := var_fieldValue; deref := fieldValue |} in
  match content (deref actualValue) with
  | VStruct t _ =>
      match structsCache c !! structKey t with
      | Some _ => false
      | None => true
      end
  | _ => false
  end.

Definition notCached : outcome := Beyond "shape not cached".

(** [morphField] restricted to the descriptors already cached: it stops with
    [notCached] at the first struct whose shape would have to be compiled. *)
Fixpoint morphFieldCached (fuel : nat) (c : cache) (fieldValue : Value)
    (tag : tagChainCache) {struct fuel} : cache * value * outcome :=
  match fuel with
  | O => (c, content fieldValue, OutOfFuel)
  | S fuel' =>
      if shapeMissing c fieldValue then (c, content fieldValue, notCached)
      else morphField_body (morphFieldCached fuel') c fieldValue tag
  end.

(** Two states with the same descriptors and parameters (the registries may
    differ). *)
Definition sameCompiled (c c2 : cache) : Prop :=
  structsCache c = structsCache c2 /\ intParams c = intParams c2.

(** [mfB] does in any state with the same descriptors what [mfA] does, as
    long as [mfA] does not stop with [notCached]; and [mfA] leaves the state
    as it is. *)
Definition follows (mfA mfB : morphFieldT) : Prop :=
  forall c c2 fv tg c1 r err,
    sameCompiled c c2 ->
    mfA c fv tg = (c1, r, err) -> err <> notCached ->
    mfB c2 fv tg = (c2, r, err) /\ c1 = c.

(** A morpher that has processed one record of the shape [testData_trim]. *)
Definition trimCached : cache :=
  fst (fst (Struct 2 New (structArg testData_trim [VString " data "]))).

(** ** For: registration and the compilation of one directive *)

(** The four reserved directives. *)
Definition isNavigational (t : string) : bool :=
  String.eqb t TagDive || String.eqb t TagKeys || String.eqb t TagExit
  || String.eqb t TagIgnore.

(** What [buildTagCache] does once the directive is split into the name
    [t] and the parameters [p], for a registered transformer [tr]. *)
Definition compileWith (c : cache) (t p pk : string) (tr : FieldTransformer)
    : cache * (tagChainCache + outcome) :=
  match Cache tr (intParams c) p pk with
  | (store, Ok) => (withParams c store, inl (mkTag t p None (Some tr) nilTag nilTag))
  | (store, err) => (withParams c store, inr err)
  end.

(** ** For: the descriptor builder *)

(** [c'] differs from [c] in the parameter store at most. *)
Definition onlyParams (c c' : cache) : Prop :=
  tagName c' = tagName c /\ transformers c' = transformers c /\
  structsCache c' = structsCache c.

(** No node of the chain, nor of a key chain in it, carries a parameter key. *)
Fixpoint keyless (t : tagChainCache) : bool :=
  match t with
  | nilTag => true
  | mkTag _ _ k _ n kc =>
      match k with None => true | Some _ => false end && keyless n && keyless kc
  end.

Definition paramsKeyOf (t : tagChainCache) : option string :=
  match t with nilTag => None | mkTag _ _ k _ _ _ => k end.

(** The indexes, from [i] on, of the fields a descriptor lists: the exported
    ones whose annotation under [tn] is not the ignore directive. *)
Fixpoint eligible (tn : string) (decls : list (StructField * rtype)) (i : nat)
    : list nat :=
  match decls with
  | [] => []
  | (field, _) :: rest =>
      if IsExported field && negb (String.eqb (Tag_Get (Tag field) tn) TagIgnore)
      then i :: eligible tn rest (S i)
      else eligible tn rest (S i)
  end.

(** What a field descriptor built for field [i] of a type rendered
    [typeString] looks like. *)
Definition headKeyed (typeString : string) (fc : fieldCache) : Prop :=
  keyless (nextOf (tags fc)) = true /\
  keyless (keysChainOf (tags fc)) = true /\
  (tags fc = nilTag \/
   paramsKeyOf (tags fc) = Some (getParamsKey typeString (index fc))).

(** A shape with an unexported field, an ignored one and two chains. *)
Definition testData_mixed : StructType := {|
  PkgPath := morphPkg; TypeName := "mixed"; TypeString := "morph.mixed";
  Fields := [({| FieldName := "Name"; IsExported := true;
                 Tag := [(DefaultTag, "trim,lower,truncate=5")] |}, TString);
             ({| FieldName := "hidden"; IsExported := false;
                 Tag := [(DefaultTag, "trim")] |}, TString);
             ({| FieldName := "Skipped"; IsExported := true;
                 Tag := [(DefaultTag, "-")] |}, TString);
             ({| FieldName := "Plain"; IsExported := true; Tag := [] |}, TString);
             ({| FieldName := "Map"; IsExported := true;
                 Tag := [(DefaultTag, "dive,keys,truncate=2,exit,trim")] |},
              TMap TString TString)]
|}.

(** The descriptor a fresh morpher builds for [testData_mixed]. *)
Definition mixedDescriptor : structCache :=
  match snd (buildStructCache New testData_mixed) with
  | inl d => d
  | inr _ => {| fieldsLength := 0; fields := [] |}
  end.

(** Every node of the chain is a transformation that keeps [P]: no node
    dives, and each transformer turns a value with [P] into a value with [P]
    without error. *)
Fixpoint keeps (P : value -> Prop) (chain : tagChainCache) : Prop :=
  match chain with
  | nilTag => True
  | mkTag tg _ k tr n _ =>
      String.eqb tg TagDive = false /\
      match tr with
      | None => True
      | Some f =>
          forall store v, P v ->
            exists v', Transform f store v k = (v', Ok) /\ P v'
      end /\
      keeps P n
  end.

(** The chain [trim,truncate=5] on a string field, truncate not being the
    first directive. *)
Definition testData_trimTruncate : StructType := {|
  PkgPath := morphPkg; TypeName := "testData"; TypeString := "morph.testData";
  Fields := [({| FieldName := "String"; IsExported := true;
                 Tag := [(DefaultTag, "trim,truncate=5")] |}, TString)]
|}.

(** A shape whose second field names a directive that is not registered. *)
Definition testData_unknown : StructType := {|
  PkgPath := morphPkg; TypeName := "testData"; TypeString := "morph.testData";
  Fields := [({| FieldName := "Limit"; IsExported := true;
                 Tag := [(DefaultTag, "truncate=3")] |}, TString);
             ({| FieldName := "String"; IsExported := true;
                 Tag := [(DefaultTag, "baba")] |}, TString)]
|}.

(** ** For: the state across a traversal *)

(** [c'] has the tag name and the registry of [c], and every descriptor of
    [c] under its key. *)
Definition grows (c c' : cache) : Prop :=
  tagName c' = tagName c /\ transformers c' = transformers c /\
  forall k d, structsCache c !! k = Some d -> structsCache c' !! k = Some d.

(** ** For: fields left alone, invalid dives, and maps *)

Definition mixedRecord : list value :=
  [VString " Ann "; VString " h "; VString " s "; VString " p ";
   VMap [(VString " k ", VString " v ")]].



(** ** For: the built-in transformers *)

(** The kind a built-in directive works on: floating point for [ceil],
    [floor], [round] and [precision], string for the others. *)
Definition wantsFloat (tag : string) : bool :=
  String.eqb tag TagCeil || String.eqb tag TagFloor || String.eqb tag TagRound
  || String.eqb tag TagPrecision.

Definition accepts (tag : string) (v : value) : bool :=
  if wantsFloat tag then isFloat v else Kind_eqb (kindOf v) KString.

Definition caseByte (f : Z -> Z) (c : ascii) : ascii :=
  ascii_of_N (Z.to_N (f (GoStrings.byteZ c))).

(** ** For: handles and parameter keys *)

(** Whether the element behind a wrapper is addressable: the element of a
    pointer is, the element of an interface is not. *)
Definition wrapperAddr (w : wrapper) : bool :=
  match w with WPtr _ => true | WInterface => false end.

(** ** For: the chain compiler, node by node *)

Definition paramsOf (t : tagChainCache) : string :=
  match t with nilTag => "" | mkTag _ p _ _ _ _ => p end.

Definition transformerOf (t : tagChainCache) : option FieldTransformer :=
  match t with nilTag => None | mkTag _ _ _ tr _ _ => tr end.

(** The tokens compiled one by one with [buildTagCache], in reading order,
    each in the state the one before leaves; the first failure ends it. *)
Fixpoint compileEach (c : cache) (tokens : list string) (paramsKey : string)
    : cache * (list tagChainCache + outcome) :=
  match tokens with
  | [] => (c, inl [])
  | t :: rest =>
      match buildTagCache c t paramsKey with
      | (c1, inr err) => (c1, inr err)
      | (c1, inl node) =>
          match compileEach c1 rest paramsKey with
          | (c2, inr err) => (c2, inr err)
          | (c2, inl nodes) => (c2, inl (node :: nodes))
          end
      end
  end.

(** The chain made of [nodes] in order and continued by [tail]: each node
    with its own directive, parameters, key, transformer and key chain, and
    the rest of the chain as its [next]. *)
Fixpoint chainOf (nodes : list tagChainCache) (tail : tagChainCache) : tagChainCache :=
  match nodes with
  | [] => tail
  | n :: rest =>
      mkTag (tagOf n) (paramsOf n) (paramsKeyOf n) (transformerOf n)
            (chainOf rest tail) (keysChainOf n)
  end.

(** ** For: a nested shape compiled after a registration *)

(** A shape [Inner] with a trimmed field, and a shape [Outer] with a trimmed
    field and a pointer to an [Inner]. *)
Definition testData_inner : StructType := {|
  PkgPath := "main"; TypeName := "Inner"; TypeString := "main.Inner";
  Fields := [({| FieldName := "X"; IsExported := true;
                 Tag := [(DefaultTag, "trim")] |}, TString)]
|}.

Definition testData_outer : StructType := {|
  PkgPath := "main"; TypeName := "Outer"; TypeString := "main.Outer";
  Fields := [({| FieldName := "Name"; IsExported := true;
                 Tag := [(DefaultTag, "trim")] |}, TString);
             ({| FieldName := "P"; IsExported := true; Tag := [] |},
              TPtr (TStruct testData_inner))]
|}.

(** A morpher that has processed one [Outer] whose pointer is nil: the
    descriptor of [Outer] is cached, the one of [Inner] is not. *)
Definition outerCached : cache :=
  fst (fst (Struct 3 New
              (structArg testData_outer
                 [VString " n "; VPtr (TStruct testData_inner) None]))).

Definition outerRecord : option value :=
  structArg testData_outer
    [VString " a ";
     VPtr (TStruct testData_inner) (Some (VStruct testData_inner [VString " x "]))].

(** * Properties *)

(** ** Reading the compiler's results *)

Arguments buildTagCache : simpl never.

Lemma buildTagCache_node c t pk c1 n :
  buildTagCache c t pk = (c1, inl n) ->
  exists tag params tr, n = mkTag tag params None tr nilTag nilTag.
Proof.
  unfold buildTagCache.
  destruct (GoStrings.IndexRune t ParamsSign) as [[|i]|];
    match goal with
    | |- context [transformers c !! ?tg] =>
        destruct (transformers c !! tg) as [tr|] eqn:Htr
    end; cbn;
    repeat match goal with
    | |- context [if ?b then _ else _] => destruct b
    | |- context [Cache ?t ?a ?b ?d] => destruct (Cache t a b d) as [? []]
    end; intros H; inversion H; subst; eauto.
Qed.

Lemma buildKeysFrom_spec rest : forall c pk,
  buildKeysFrom c rest pk =
    bindC (buildLinear c (untilExit rest) pk) (fun c1 keyChain =>
    bindC (buildTagsFrom c1 (afterExit rest) pk) (fun c2 outer =>
      (c2, inl (keyChain, outer)))).
Proof.
  induction rest as [|t rest IH]; intros c pk; [reflexivity|].
  cbn [buildKeysFrom untilExit afterExit buildLinear].
  destruct (String.eqb t TagExit).
  - cbn [buildLinear bindC]. destruct (buildTagsFrom c rest pk) as [c1 [o|e]]; reflexivity.
  - cbn [buildLinear]. destruct (buildTagCache c t pk) as [c1 [n|e]]; cbn [bindC]; [|reflexivity].
    rewrite IH. destruct (buildLinear c1 (untilExit rest) pk) as [c2 [kc|e]]; cbn [bindC]; [|reflexivity].
    destruct (buildTagsFrom c2 (afterExit rest) pk) as [c3 [o|e]]; reflexivity.
Qed.

Lemma buildTagsFrom_keys c pk rest :
  rest <> [] ->
  buildTagsFrom c (TagKeys :: rest) pk =
    bindC (buildTagCache c TagKeys pk) (fun c1 keysNode =>
    bindC (buildLinear c1 (untilExit rest) pk) (fun c2 keyChain =>
    bindC (buildTagsFrom c2 (afterExit rest) pk) (fun c3 outer =>
      (c3, inl (setNext (setKeysChain keysNode keyChain) outer))))).
Proof.
  intros Hrest. cbn [buildTagsFrom].
  destruct (buildTagCache c TagKeys pk) as [c1 [n|e]]; cbn [bindC]; [|reflexivity].
  replace (String.eqb TagKeys TagKeys) with true by reflexivity.
  destruct rest as [|r rest]; [congruence|].
  cbn [List.length Nat.eqb negb andb].
  rewrite buildKeysFrom_spec.
  destruct (buildLinear c1 (untilExit (r :: rest)) pk) as [c2 [kc|e]]; cbn [bindC]; [|reflexivity].
  destruct (buildTagsFrom c2 (afterExit (r :: rest)) pk) as [c3 [o|e]]; reflexivity.
Qed.

Lemma buildTagsFrom_app pre : forall c pk tokens,
  Forall (fun t => t <> TagKeys) pre ->
  buildTagsFrom c (pre ++ tokens) pk =
    bindC (buildLinear c pre pk) (fun c1 before =>
    bindC (buildTagsFrom c1 tokens pk) (fun c2 more =>
      (c2, inl (appendChain before more)))).
Proof.
  induction pre as [|t pre IH]; intros c pk tokens Hpre.
  - cbn. destruct (buildTagsFrom c tokens pk) as [c1 [o|e]]; reflexivity.
  - inversion Hpre as [|? ? Ht Hpre']; subst.
    cbn [app buildTagsFrom buildLinear].
    destruct (buildTagCache c t pk) as [c1 [n|e]] eqn:Hn; cbn [bindC]; [|reflexivity].
    replace (String.eqb t TagKeys) with false
      by (symmetry; apply String.eqb_neq; exact Ht).
    cbn [andb]. rewrite (IH _ _ _ Hpre').
    destruct (buildLinear c1 pre pk) as [c2 [b|e]]; cbn [bindC]; [|reflexivity].
    destruct (buildTagsFrom c2 tokens pk) as [c3 [o|e]]; cbn [bindC]; [|reflexivity].
    destruct (buildTagCache_node _ _ _ _ _ Hn) as (tg & ps & tr & ->).
    reflexivity.
Qed.

Lemma buildTagsFrom_last_keys c pk :
  buildTagsFrom c [TagKeys] pk = buildTagCache c TagKeys pk.
Proof.
  cbn [buildTagsFrom].
  destruct (buildTagCache c TagKeys pk) as [c1 [n|e]] eqn:Hn; [|reflexivity].
  destruct (buildTagCache_node _ _ _ _ _ Hn) as (tg & ps & tr & ->).
  reflexivity.
Qed.

(** ** The annotation chain compiler *)

Lemma buildLinear_compileEach (tokens : list string) :
  forall c pk,
    buildLinear c tokens pk =
      bindC (compileEach c tokens pk) (fun c1 nodes =>
        (c1, inl (chainOf nodes nilTag))).
Proof.
  induction tokens as [|t rest IH]; intros c pk; [reflexivity|].
  cbn [buildLinear compileEach].
  destruct (buildTagCache c t pk) as [c1 [n|e]] eqn:Hn; cbn [bindC]; [|reflexivity].
  rewrite IH.
  destruct (compileEach c1 rest pk) as [c2 [nodes|e]]; cbn [bindC]; [|reflexivity].
  destruct (buildTagCache_node _ _ _ _ _ Hn) as (tg & ps & tr & ->).
  reflexivity.
Qed.

Lemma appendChain_chainOf (nodes : list tagChainCache) (tail : tagChainCache) :
  appendChain (chainOf nodes nilTag) tail = chainOf nodes tail.
Proof.
  induction nodes as [|n nodes IH]; [reflexivity|].
  cbn [chainOf appendChain]. rewrite IH. reflexivity.
Qed.

Lemma compileEach_nodes (tokens : list string) :
  forall c pk c1 nodes,
    compileEach c tokens pk = (c1, inl nodes) ->
    List.length nodes = List.length tokens /\
    List.Forall (fun n => exists tg ps tr, n = mkTag tg ps None tr nilTag nilTag) nodes.
Proof.
  induction tokens as [|t rest IH]; intros c pk c1 nodes H.
  { injection H as <- <-. split; [reflexivity|constructor]. }
  cbn [compileEach] in H.
  destruct (buildTagCache c t pk) as [c2 [n|e]] eqn:Hn; [|discriminate].
  destruct (compileEach c2 rest pk) as [c3 [ns|e]] eqn:Hr; [|discriminate].
  injection H as <- <-. destruct (IH _ _ _ _ Hr) as [Hlen Hall].
  split; [cbn; congruence|]. constructor; [|exact Hall].
  exact (buildTagCache_node _ _ _ _ _ Hn).
Qed.

Lemma buildTagsFrom_nokeys (tokens : list string) (c : cache) (pk : string) :
  Forall (fun t => t <> TagKeys) tokens ->
  buildTagsFrom c tokens pk =
    bindC (compileEach c tokens pk) (fun c1 nodes =>
      (c1, inl (chainOf nodes nilTag))).
Proof.
  intros H. rewrite <- (app_nil_r tokens) at 1.
  rewrite (buildTagsFrom_app tokens c pk [] H), buildLinear_compileEach.
  destruct (compileEach c tokens pk) as [c1 [nodes|e]]; cbn [bindC buildTagsFrom];
    [|reflexivity].
  rewrite appendChain_chainOf. reflexivity.
Qed.

(** C5.  In an annotation whose tokens are [pre ++ keys :: rest], [pre]
    holding no [keys] token: when [rest] is not empty, the tokens of [rest]
    before the first [exit] (all of them when there is none) are compiled
    one by one into a chain of their own, and that chain is the key chain of
    the [keys] node; the [next] of the [keys] node is the outer chain, which
    goes on with the tokens after that [exit], or ends there.  When [keys] is
    the last token its key chain is nil and the chain ends with it.  The
    nodes of [pre] come before the [keys] node, in order.  Every token is
    compiled by [buildTagCache] to a single node, without key, [next] or key
    chain of its own; a failing token fails the compilation at its place in
    reading order. *)
Theorem buildTagsCache_keys_subchain (c : cache) (tagsRaw paramsKey : string)
    (pre rest : list string) :
  GoStrings.FieldsFunc tagsRaw TagSeparator = pre ++ TagKeys :: rest ->
  Forall (fun t => t <> TagKeys) pre ->
  (rest <> [] ->
     buildTagsCache c tagsRaw paramsKey =
       bindC (compileEach c pre paramsKey) (fun c1 before =>
       bindC (buildTagCache c1 TagKeys paramsKey) (fun c2 keysNode =>
       bindC (compileEach c2 (untilExit rest) paramsKey) (fun c3 keyNodes =>
       bindC (buildTagsFrom c3 (afterExit rest) paramsKey) (fun c4 outer =>
         (c4, inl (chainOf before
                     (mkTag (tagOf keysNode) (paramsOf keysNode)
                            (paramsKeyOf keysNode) (transformerOf keysNode)
                            outer (chainOf keyNodes nilTag)))))))) /\
     (Forall (fun t => t <> TagKeys) (afterExit rest) ->
      buildTagsCache c tagsRaw paramsKey =
        bindC (compileEach c pre paramsKey) (fun c1 before =>
        bindC (buildTagCache c1 TagKeys paramsKey) (fun c2 keysNode =>
        bindC (compileEach c2 (untilExit rest) paramsKey) (fun c3 keyNodes =>
        bindC (compileEach c3 (afterExit rest) paramsKey) (fun c4 after =>
          (c4, inl (chainOf before
                      (mkTag (tagOf keysNode) (paramsOf keysNode)
                             (paramsKeyOf keysNode) (transformerOf keysNode)
                             (chainOf after nilTag)
                             (chainOf keyNodes nilTag)))))))))) /\
  (rest = [] ->
     buildTagsCache c tagsRaw paramsKey =
       bindC (compileEach c pre paramsKey) (fun c1 before =>
       bindC (buildTagCache c1 TagKeys paramsKey) (fun c2 keysNode =>
         (c2, inl (chainOf before
                     (mkTag (tagOf keysNode) (paramsOf keysNode)
                            (paramsKeyOf keysNode) (transformerOf keysNode)
                            nilTag nilTag)))))) /\
  (forall c1 c2 keysNode,
     buildTagCache c1 TagKeys paramsKey = (c2, inl keysNode) ->
     tagOf keysNode = TagKeys) /\
  (forall c1 tokens c2 nodes,
     compileEach c1 tokens paramsKey = (c2, inl nodes) ->
     List.length nodes = List.length tokens /\
     List.Forall (fun n => exists tg ps tr, n = mkTag tg ps None tr nilTag nilTag)
                 nodes).
Proof.
  intros Htokens Hpre. unfold buildTagsCache. rewrite Htokens.
  rewrite (buildTagsFrom_app pre c paramsKey _ Hpre).
  rewrite buildLinear_compileEach.
  assert (Hkeys : rest <> [] ->
    bindC (bindC (compileEach c pre paramsKey)
             (fun c1 nodes => (c1, inl (chainOf nodes nilTag))))
      (fun c1 before =>
         bindC (buildTagsFrom c1 (TagKeys :: rest) paramsKey)
           (fun c2 more => (c2, inl (appendChain before more)))) =
    bindC (compileEach c pre paramsKey) (fun c1 before =>
    bindC (buildTagCache c1 TagKeys paramsKey) (fun c2 keysNode =>
    bindC (compileEach c2 (untilExit rest) paramsKey) (fun c3 keyNodes =>
    bindC (buildTagsFrom c3 (afterExit rest) paramsKey) (fun c4 outer =>
      (c4, inl (chainOf before
                  (mkTag (tagOf keysNode) (paramsOf keysNode)
                         (paramsKeyOf keysNode) (transformerOf keysNode)
                         outer (chainOf keyNodes nilTag))))))))).
  { intros Hrest.
    destruct (compileEach c pre paramsKey) as [c1 [before|e]]; cbn [bindC]; [|reflexivity].
    rewrite (buildTagsFrom_keys c1 paramsKey rest Hrest).
    destruct (buildTagCache c1 TagKeys paramsKey) as [c2 [n|e]] eqn:Hn;
      cbn [bindC]; [|reflexivity].
    rewrite buildLinear_compileEach.
    destruct (compileEach c2 (untilExit rest) paramsKey) as [c3 [kc|e]];
      cbn [bindC]; [|reflexivity].
    destruct (buildTagsFrom c3 (afterExit rest) paramsKey) as [c4 [o|e]];
      cbn [bindC]; [|reflexivity].
    destruct (buildTagCache_node _ _ _ _ _ Hn) as (tg & ps & tr & ->).
    cbn [setKeysChain setNext tagOf paramsOf paramsKeyOf transformerOf].
    rewrite appendChain_chainOf. reflexivity. }
  split; [|split; [|split]].
  - intros Hrest. split; [exact (Hkeys Hrest)|].
    intros Hafter. rewrite (Hkeys Hrest).
    destruct (compileEach c pre paramsKey) as [c1 [before|e]]; cbn [bindC]; [|reflexivity].
    destruct (buildTagCache c1 TagKeys paramsKey) as [c2 [n|e]]; cbn [bindC]; [|reflexivity].
    destruct (compileEach c2 (untilExit rest) paramsKey) as [c3 [kc|e]];
      cbn [bindC]; [|reflexivity].
    rewrite (buildTagsFrom_nokeys _ c3 paramsKey Hafter).
    destruct (compileEach c3 (afterExit rest) paramsKey) as [c4 [o|e]]; reflexivity.
  - intros ->.
    destruct (compileEach c pre paramsKey) as [c1 [before|e]]; cbn [bindC]; [|reflexivity].
    rewrite buildTagsFrom_last_keys.
    destruct (buildTagCache c1 TagKeys paramsKey) as [c2 [n|e]] eqn:Hn;
      cbn [bindC]; [|reflexivity].
    destruct (buildTagCache_node _ _ _ _ _ Hn) as (tg & ps & tr & ->).
    cbn [tagOf paramsOf paramsKeyOf transformerOf].
    rewrite appendChain_chainOf. reflexivity.
  - intros c1 c2 n Hn. unfold buildTagCache in Hn.
    replace (GoStrings.IndexRune TagKeys ParamsSign) with (@None nat) in Hn
      by reflexivity.
    destruct (transformers c1 !! TagKeys) as [tr|]; cbn in Hn.
    + destruct (Cache tr (intParams c1) "" paramsKey) as [st []];
        inversion Hn; subst; reflexivity.
    + inversion Hn; subst. reflexivity.
  - intros c1 tokens c2 nodes H. exact (compileEach_nodes _ _ _ _ _ H).
Qed.

Lemma buildTagsCache_keys_subchain_witness :
  buildTagsCache New "dive,keys,trim,lower,exit,upper" "morph.T.0" =
    (New,
     inl (mkTag TagDive "" None None
            (mkTag TagKeys "" None None
               (mkTag TagUpper "" None (Some toUpperTransformer) nilTag nilTag)
               (mkTag TagTrim "" None (Some trimTransformer)
                  (mkTag TagLower "" None (Some toLowerTransformer) nilTag nilTag)
                  nilTag))
            nilTag)).
Proof.
  refine (eq_trans
            (proj2 (proj1 (buildTagsCache_keys_subchain New
                             "dive,keys,trim,lower,exit,upper" "morph.T.0"
                             ["dive"] ["trim"; "lower"; "exit"; "upper"] _ _) _) _)
            _).
  - reflexivity.
  - repeat constructor; discriminate.
  - discriminate.
  - repeat constructor; discriminate.
  - reflexivity.
Defined.

(** ** The entry point *)

Lemma morphStruct_loop_first_error (mf : morphFieldT) (addr : bool)
    (pre : list fieldCache) :
  forall c fs n field post c1 fs1 x c2 x' err,
    morphStruct_loop mf c addr pre (List.length pre) fs = (c1, fs1, Ok) ->
    fs1 !! index field = Some x ->
    mf c1 (mkValue x addr) (tags field) = (c2, x', err) ->
    err <> Ok ->
    morphStruct_loop mf c addr (pre ++ field :: post)
        (List.length pre + S n) fs
      = (c2, <[index field := x']> fs1, err).
Proof.
  induction pre as [|f pre IH]; intros c fs n field post c1 fs1 x c2 x' err Hpre Hx Hmf Herr.
  - cbn in Hpre. inversion Hpre; subst. cbn. rewrite Hx, Hmf.
    destruct err; congruence.
  - cbn [List.length morphStruct_loop app Nat.add] in *.
    destruct (fs !! index f) as [y|]; [|discriminate].
    destruct (mf c (mkValue y addr) (tags f)) as [[c' y'] o].
    destruct o; try discriminate.
    eapply IH; eauto.
Qed.

(** C8.  [Struct] on an argument that is not a pointer fails with
    [ErrNotAPointer]; on a nil pointer or a pointer to something that is not
    a struct it fails with [ErrNotAStruct]; otherwise it runs the traversal
    of the pointed-to struct and returns what the traversal returns, which
    is the error of the first field whose processing fails (no later field is
    processed), or success. *)
Theorem Struct_entry (fuel : nat) (c : cache) (structPtr : option value) :
  ((structPtr = None \/ exists v, structPtr = Some v /\ kindOf v <> KPtr) ->
     Struct fuel c structPtr = (c, structPtr, Err (newError ErrNotAPointer))) /\
  (((exists e, structPtr = Some (VPtr e None)) \/
    (exists e p, structPtr = Some (VPtr e (Some p)) /\ kindOf p <> KStruct)) ->
     Struct fuel c structPtr = (c, structPtr, Err (newError ErrNotAStruct))) /\
  (forall e p, structPtr = Some (VPtr e (Some p)) -> kindOf p = KStruct ->
     Struct fuel c structPtr =
       (let '(c1, p', err) := morphStruct (morphField fuel) c (mkValue p true) in
        (c1, Some (VPtr e (Some p')), err)) /\
     forall t fs strCache c0 pre field post c1 fs1 x c2 x' err,
       p = VStruct t fs ->
       getStructCache c t = (c0, inl strCache) ->
       fields strCache = pre ++ field :: post ->
       fieldsLength strCache = List.length (fields strCache) ->
       morphStruct_loop (morphField fuel) c0 true pre (List.length pre) fs
         = (c1, fs1, Ok) ->
       fs1 !! index field = Some x ->
       morphField fuel c1 (mkValue x true) (tags field) = (c2, x', err) ->
       err <> Ok ->
       Struct fuel c structPtr
         = (c2, Some (VPtr e (Some (VStruct t (<[index field := x']> fs1)))), err)).
Proof.
  split; [|split].
  - intros [-> | (v & -> & Hk)]; [reflexivity|].
    cbn. destruct v as [k ?| | | | | | |]; cbn in *; try reflexivity;
      [destruct k; cbn; try reflexivity|]; congruence.
  - intros [(e & ->) | (e & p & -> & Hk)]; [reflexivity|].
    cbn. destruct p as [k ?| | | | | | |]; cbn in *; try reflexivity;
      [destruct k; cbn; try reflexivity|]; congruence.
  - intros e p -> Hk. split.
    + cbn. rewrite Hk. reflexivity.
    + intros t fs strCache c0 pre field post c1 fs1 x c2 x' err -> Hget Hfs Hlen Hpre Hx Hmf Herr.
      cbn. unfold morphStruct. cbn [content mkValue CanAddr]. rewrite Hget, Hlen, Hfs.
      rewrite length_app. cbn [List.length].
      rewrite (morphStruct_loop_first_error _ _ _ _ _ _ _ _ _ _ _ _ _ _ Hpre Hx Hmf Herr).
      reflexivity.
Qed.

Lemma Struct_entry_witness :
  Struct 3 New (Some (VString "string")) =
    (New, Some (VString "string"), Err (newError ErrNotAPointer)) /\
  Struct 3 New (Some (VPtr TString (Some (VString "string")))) =
    (New, Some (VPtr TString (Some (VString "string"))), Err (newError ErrNotAStruct)).
Proof.
  split.
  - apply (proj1 (Struct_entry 3 New (Some (VString "string")))).
    right. exists (VString "string"). split; [reflexivity|discriminate].
  - apply (proj1 (proj2 (Struct_entry 3 New (Some (VPtr TString (Some (VString "string"))))))).
    right. exists TString, (VString "string"). split; [reflexivity|discriminate].
Defined.

(** ** Integer parameters *)

Lemma Atoi_afterSign s :
  GoStrings.Atoi s =
    match afterSign s with
    | [] => None
    | ds =>
        if forallb GoStrings.isDigit ds then
          let n := GoStrings.digitsValue ds 0 in
          let v := match list_ascii_of_string s with
                   | c :: _ => if Ascii.eqb c "-"%char then (- n)%Z else n
                   | [] => n
                   end in
          if ((GoStrings.minInt <=? v) && (v <=? GoStrings.maxInt))%Z
          then Some v else None
        else None
    end.
Proof.
  unfold GoStrings.Atoi, afterSign.
  destruct (list_ascii_of_string s) as [|c rest]; [reflexivity|].
  destruct (Ascii.eqb c "-"%char) eqn:Hm; cbn [orb]; [destruct rest; reflexivity|].
  destruct (Ascii.eqb c "+"%char) eqn:Hp; [destruct rest; reflexivity|reflexivity].
Qed.

(** A parameter with a byte that is not a decimal digit, a leading sign
    apart, and the empty parameter, are not integers for [Atoi]. *)
Lemma Atoi_nonNumeric s :
  afterSign s = [] \/ Exists (fun c => GoStrings.isDigit c = false) (afterSign s) ->
  GoStrings.Atoi s = None.
Proof.
  rewrite Atoi_afterSign. intros [-> | Hex]; [reflexivity|].
  destruct (afterSign s) as [|d ds] eqn:Hds; [reflexivity|].
  cbv zeta.
  replace (forallb GoStrings.isDigit (d :: ds)) with false; [reflexivity|].
  symmetry. apply not_true_is_false. intros Hall.
  rewrite forallb_forall in Hall. apply Exists_exists in Hex as (x & Hin & Hx).
  apply list_elem_of_In in Hin. rewrite (Hall x Hin) in Hx. discriminate.
Qed.

(** C4, as the code has it.  For [truncate] and [precision] alike, whose
    [Cache] is the one of [IntParameterTransformer]: [Cache] fails with
    [ErrInvalidParameters] exactly when [Atoi] rejects the raw parameter, as
    it does a non-numeric or empty one; an integer [Atoi] accepts is stored
    under the key without error, a negative one included; and [truncate]'s
    [Transform] fails with [ErrInvalidParameters] on a string when the limit
    stored under its key is negative. *)
Theorem IntParameterTransformer_Cache_parse (inst : string) (store : paramStore)
    (rawParams key : string) :
  Cache (truncateTransformer inst) = IntParameterTransformer_Cache inst /\
  Cache (precisionTransformer inst) = IntParameterTransformer_Cache inst /\
  (GoStrings.Atoi rawParams = None ->
     IntParameterTransformer_Cache inst store rawParams key =
       (store, Err (newErrorf ErrInvalidParameters [TagPrecision; rawParams]))) /\
  (afterSign rawParams = [] \/
   Exists (fun c => GoStrings.isDigit c = false) (afterSign rawParams) ->
     GoStrings.Atoi rawParams = None) /\
  (forall v, GoStrings.Atoi rawParams = Some v ->
     IntParameterTransformer_Cache inst store rawParams key =
       (<[inst := <[key := v]> (Values store inst)]> store, Ok) /\
     forall s, (v < 0)%Z ->
       Transform (truncateTransformer inst)
                 (fst (IntParameterTransformer_Cache inst store rawParams key))
                 (VString s) (Some key)
         = (VString s, Err (newErrorf ErrInvalidParameters []))).
Proof.
  split; [reflexivity|]. split; [reflexivity|]. split; [|split].
  - intros H. unfold IntParameterTransformer_Cache. rewrite H. reflexivity.
  - apply Atoi_nonNumeric.
  - intros v H. unfold IntParameterTransformer_Cache. rewrite H. split; [reflexivity|].
    intros s Hneg. cbn [fst Transform truncateTransformer].
    unfold Values at 1. rewrite lookup_insert_eq. cbn [default from_option id].
    rewrite lookup_insert_eq.
    destruct (Z.ltb_spec v 0); [reflexivity|lia].
Qed.

Lemma IntParameterTransformer_Cache_parse_witness :
  IntParameterTransformer_Cache TagTruncate ∅ "baba" "morph.testData.0" =
    (∅, Err (newErrorf ErrInvalidParameters [TagPrecision; "baba"])) /\
  Transform (truncateTransformer TagTruncate)
            (fst (IntParameterTransformer_Cache TagTruncate ∅ "-1" "morph.testData.0"))
            (VString "123456") (Some "morph.testData.0")
    = (VString "123456", Err (newErrorf ErrInvalidParameters [])).
Proof.
  pose proof (IntParameterTransformer_Cache_parse TagTruncate ∅ "baba" "morph.testData.0")
    as (_ & _ & Hfail & _ & _).
  pose proof (IntParameterTransformer_Cache_parse TagTruncate ∅ "-1" "morph.testData.0")
    as (_ & _ & _ & _ & Hneg).
  split.
  - apply Hfail. reflexivity.
  - apply (proj2 (Hneg (-1)%Z eq_refl)). reflexivity.
Defined.

(** C4 as stated fails: [Cache] accepts the negative parameter "-1", for
    [truncate] and for [precision], and stores it. *)
Lemma Cache_accepts_negative :
  snd (Cache (truncateTransformer TagTruncate) ∅ "-1" "morph.testData.0") = Ok /\
  snd (Cache (precisionTransformer TagPrecision) ∅ "-1" "morph.testData.0") = Ok /\
  Values (fst (Cache (truncateTransformer TagTruncate) ∅ "-1" "morph.testData.0"))
         TagTruncate !! "morph.testData.0" = Some (-1)%Z.
Proof. split; [|split]; reflexivity. Qed.

(** ** Whitespace trimming *)

(** [strings.TrimSpace] byte by byte: the decoder of one rune, the decoder
    of the last rune, the two scans, and the two trimming loops. *)
Module TrimSpaceFacts.
Import GoStrings TrimSpaceTerms.
Local Open Scope Z_scope.

Lemma byteZ_range (a : ascii) : 0 <= byteZ a < 256.
Proof.
  unfold byteZ. pose proof (N_ascii_bounded a). lia.
Qed.

(** A continuation byte is one in [0x80, 0xBF]. *)
Lemma RuneStart_byte (a : ascii) :
  RuneStart (byteZ a) = negb ((0x80 <=? byteZ a) && (byteZ a <=? 0xBF)).
Proof.
  destruct a as [[] [] [] [] [] [] [] []]; vm_compute; reflexivity.
Qed.

Lemma first_cases (b : Z) :
  (b < 0x80 /\ first b = as_) \/
  (0x80 <= b /\ first b = xx) \/
  (0xC2 <= b <= 0xF4 /\
   (first b = s1 \/ first b = s2 \/ first b = s3 \/ first b = s4 \/
    first b = s5 \/ first b = s6 \/ first b = s7)).
Proof.
  unfold first.
  repeat match goal with
  | |- context [?x <? ?y] => destruct (Z.ltb_spec x y)
  | |- context [?x =? ?y] => destruct (Z.eqb_spec x y)
  end; try (left; split; [lia|reflexivity]);
  try (right; left; split; [lia|reflexivity]);
  right; right; (split; [lia|]); tauto.
Qed.

Lemma IsSpace_RuneError : IsSpace RuneError = false.
Proof. reflexivity. Qed.

Lemma IsSpace_ascii (b : Z) : 0 <= b < 0x80 -> IsSpace b = asciiSpace b.
Proof.
  intros H. unfold IsSpace.
  destruct (Z.leb_spec 0 b); [|lia]. destruct (Z.leb_spec b 0xFF); [|lia]. cbn.
  destruct (Z.eqb_spec b 0x85); [lia|]. destruct (Z.eqb_spec b 0xA0); [lia|].
  rewrite !orb_false_r. reflexivity.
Qed.

Lemma decode_cases (a0 : ascii) :
  (byteZ a0 < 0x80 /\
   forall t, DecodeRuneInString (a0 :: t) = (byteZ a0, 1%nat)) \/
  (0x80 <= byteZ a0 /\
   forall t, DecodeRuneInString (a0 :: t) = (RuneError, 1%nat)) \/
  (0xC2 <= byteZ a0 /\
   exists sz lo hi,
     (sz = 2 \/ sz = 3 \/ sz = 4) /\ 0x80 <= lo /\ hi <= 0xBF /\
     forall t, DecodeRuneInString (a0 :: t) = decodeLead sz lo hi (a0 :: t)).
Proof.
  unfold DecodeRuneInString.
  destruct (first_cases (byteZ a0)) as [[Hb ->] | [[Hb ->] | [Hb Hf]]].
  - left. split; [exact Hb|reflexivity].
  - right; left. split; [exact Hb|reflexivity].
  - right; right. split; [lia|].
    destruct Hf as [-> | [-> | [-> | [-> | [-> | [-> | ->]]]]]].
    + exists 2, locb, hicb. (split; [lia|]); (split; [unfold locb; lia|]); (split; [unfold hicb; lia|]); reflexivity.
    + exists 3, 0xA0, hicb. (split; [lia|]); (split; [unfold locb; lia|]); (split; [unfold hicb; lia|]); reflexivity.
    + exists 3, locb, hicb. (split; [lia|]); (split; [unfold locb; lia|]); (split; [unfold hicb; lia|]); reflexivity.
    + exists 3, locb, 0x9F. (split; [lia|]); (split; [unfold locb; lia|]); (split; [unfold hicb; lia|]); reflexivity.
    + exists 4, 0x90, hicb. (split; [lia|]); (split; [unfold locb; lia|]); (split; [unfold hicb; lia|]); reflexivity.
    + exists 4, locb, hicb. (split; [lia|]); (split; [unfold locb; lia|]); (split; [unfold hicb; lia|]); reflexivity.
    + exists 4, locb, 0x8F. (split; [lia|]); (split; [unfold locb; lia|]); (split; [unfold hicb; lia|]); reflexivity.
Qed.

Lemma byteAt_cont (x : list ascii) (i : nat) (lo hi : Z) :
  0x80 <= lo -> hi <= 0xBF ->
  (byteAt x i <? lo) || (hi <? byteAt x i) = false ->
  (i < List.length x)%nat ->
  RuneStart (byteAt x i) = false.
Proof.
  intros Hlo Hhi Ht Hi. unfold byteAt in *.
  destruct (nth_error x i) as [a|] eqn:E.
  - rewrite RuneStart_byte. apply orb_false_iff in Ht as [H1 H2].
    apply Z.ltb_ge in H1, H2.
    destruct (Z.leb_spec 0x80 (byteZ a)); [|lia].
    destruct (Z.leb_spec (byteZ a) 0xBF); [reflexivity|lia].
  - apply nth_error_None in E. lia.
Qed.

Lemma firstn_eq_byteAt (n : nat) (x y : list ascii) (i : nat) :
  firstn n y = firstn n x -> (i < n)%nat -> byteAt y i = byteAt x i.
Proof.
  intros H Hi. unfold byteAt.
  pose proof (nth_error_firstn n y i) as Hy.
  pose proof (nth_error_firstn n x i) as Hx.
  destruct (Nat.ltb_spec i n); [|lia].
  rewrite <- Hy, <- Hx, H. reflexivity.
Qed.

Lemma firstn_eq_length (n : nat) (x y : list ascii) :
  firstn n y = firstn n x -> (n <= List.length x)%nat -> (n <= List.length y)%nat.
Proof.
  intros H Hn. apply (f_equal (@List.length ascii)) in H.
  rewrite !length_firstn in H. lia.
Qed.

Lemma decodeLead_spec (sz lo hi : Z) (x : list ascii) :
  (sz = 2 \/ sz = 3 \/ sz = 4) -> 0x80 <= lo -> hi <= 0xBF ->
  decodeLead sz lo hi x = (RuneError, 1%nat) \/
  exists r n, decodeLead sz lo hi x = (r, n) /\
              wellFormed (decodeLead sz lo hi) x r n.
Proof.
  intros Hsz Hlo Hhi. unfold decodeLead at 1 2.
  destruct (Z.ltb_spec (Z.of_nat (List.length x)) sz) as [Hlen|Hlen]; [left; reflexivity|].
  destruct ((byteAt x 1 <? lo) || (hi <? byteAt x 1)) eqn:T1; [left; reflexivity|].
  assert (C1 : RuneStart (byteAt x 1) = false)
    by (apply (byteAt_cont x 1 lo hi); auto; lia).
  destruct (Z.leb_spec sz 2) as [H2|H2].
  { right. eexists _, 2%nat. split; [reflexivity|]. split; [lia|]. split.
    - intros i Hi. replace i with 1%nat by lia. exact C1.
    - intros y Hy. unfold decodeLead.
      pose proof (firstn_eq_length _ _ _ Hy ltac:(lia)) as Hly.
      destruct (Z.ltb_spec (Z.of_nat (List.length y)) sz); [lia|].
      rewrite !(firstn_eq_byteAt 2 x y) by (auto; lia). rewrite T1.
      destruct (Z.leb_spec sz 2); [reflexivity|lia]. }
  destruct ((byteAt x 2 <? locb) || (hicb <? byteAt x 2)) eqn:T2; [left; reflexivity|].
  assert (C2 : RuneStart (byteAt x 2) = false)
    by (apply (byteAt_cont x 2 locb hicb); auto; unfold locb, hicb; lia).
  destruct (Z.leb_spec sz 3) as [H3|H3].
  { right. eexists _, 3%nat. split; [reflexivity|]. split; [lia|]. split.
    - intros i Hi. assert (i = 1 \/ i = 2)%nat as [-> | ->] by lia; assumption.
    - intros y Hy. unfold decodeLead.
      pose proof (firstn_eq_length _ _ _ Hy ltac:(lia)) as Hly.
      destruct (Z.ltb_spec (Z.of_nat (List.length y)) sz); [lia|].
      rewrite !(firstn_eq_byteAt 3 x y) by (auto; lia). rewrite T1, T2.
      destruct (Z.leb_spec sz 2); [lia|].
      destruct (Z.leb_spec sz 3); [reflexivity|lia]. }
  destruct ((byteAt x 3 <? locb) || (hicb <? byteAt x 3)) eqn:T3; [left; reflexivity|].
  assert (C3 : RuneStart (byteAt x 3) = false)
    by (apply (byteAt_cont x 3 locb hicb); auto; unfold locb, hicb; lia).
  right. eexists _, 4%nat. split; [reflexivity|]. split; [lia|]. split.
  - intros i Hi. assert (i = 1 \/ i = 2 \/ i = 3)%nat as [-> | [-> | ->]] by lia; assumption.
  - intros y Hy. unfold decodeLead.
    pose proof (firstn_eq_length _ _ _ Hy ltac:(lia)) as Hly.
    destruct (Z.ltb_spec (Z.of_nat (List.length y)) sz); [lia|].
    rewrite !(firstn_eq_byteAt 4 x y) by (auto; lia). rewrite T1, T2, T3.
    destruct (Z.leb_spec sz 2); [lia|].
    destruct (Z.leb_spec sz 3); [lia|reflexivity].
Qed.

Lemma byteAt_cons (a : ascii) (t : list ascii) : byteAt (a :: t) 0 = byteZ a.
Proof. reflexivity. Qed.

Lemma byteAt_cons_S (a : ascii) (t : list ascii) (i : nat) :
  byteAt (a :: t) (S i) = byteAt t i.
Proof. reflexivity. Qed.

Lemma decode_spec (x : list ascii) :
  x <> [] ->
  exists r n, DecodeRuneInString x = (r, n) /\
    ((byteAt x 0 < 0x80 /\ r = byteAt x 0 /\ n = 1%nat) \/
     (0x80 <= byteAt x 0 /\ r = RuneError /\ n = 1%nat) \/
     (0xC2 <= byteAt x 0 /\ wellFormed DecodeRuneInString x r n)).
Proof.
  destruct x as [|a0 t]; [congruence|]. intros _.
  rewrite byteAt_cons.
  destruct (decode_cases a0) as [[Hb H] | [[Hb H] | [Hb (sz & lo & hi & Hsz & Hlo & Hhi & H)]]].
  - exists (byteZ a0), 1%nat. split; [apply H|]. left. auto.
  - exists RuneError, 1%nat. split; [apply H|]. right; left. auto.
  - rewrite H.
    destruct (decodeLead_spec sz lo hi (a0 :: t) Hsz Hlo Hhi) as [E | (r & n & E & Hn & Hc & Hy)].
    + exists RuneError, 1%nat. split; [exact E|]. right; left. split; [lia|auto].
    + exists r, n. split; [exact E|]. right; right. split; [exact Hb|].
      split; [exact Hn|]. split; [exact Hc|].
      intros y Hfy. destruct y as [|b0 t'].
      { apply firstn_eq_length in Hfy; [|lia]. cbn in Hfy. lia. }
      assert (b0 = a0) as ->.
      { destruct n as [|n']; [lia|]. cbn in Hfy. congruence. }
      rewrite H. apply Hy. exact Hfy.
Qed.

Lemma decode_width_one (a : ascii) (y : list ascii) :
  0x80 <= byteZ a ->
  y = [] \/ RuneStart (byteAt y 0) = true ->
  snd (DecodeRuneInString (a :: y)) = 1%nat.
Proof.
  intros Ha Hy.
  destruct (decode_spec (a :: y)) as (r & n & E & H); [congruence|].
  rewrite E. cbn [snd].
  destruct H as [(_ & _ & ->) | [(_ & _ & ->) | (_ & Hn & Hc & _)]]; try reflexivity.
  exfalso. destruct Hy as [-> | Hy].
  - cbn in Hn. lia.
  - specialize (Hc 1%nat ltac:(lia)). rewrite byteAt_cons_S in Hc. congruence.
Qed.

Lemma byteAt_firstn (m : nat) (x : list ascii) (i : nat) :
  (i < m)%nat -> byteAt (firstn m x) i = byteAt x i.
Proof.
  intros Hi. unfold byteAt. rewrite nth_error_firstn.
  destruct (Nat.ltb_spec i m); [reflexivity|lia].
Qed.

Lemma decode_prefix (m : nat) (x : list ascii) :
  (1 <= m)%nat -> x <> [] ->
  DecodeRuneInString (firstn m x) = DecodeRuneInString x \/
  DecodeRuneInString (firstn m x) = (RuneError, 1%nat).
Proof.
  intros Hm Hx.
  assert (Hx' : firstn m x <> []).
  { destruct x; [congruence|]. destruct m; [lia|]. cbn. congruence. }
  destruct (decode_spec _ Hx') as (r & n & E & H).
  destruct (decode_spec _ Hx) as (r0 & n0 & E0 & H0).
  rewrite byteAt_firstn in H by lia. rewrite E, E0.
  destruct H as [(Hb & -> & ->) | [(_ & -> & ->) | (_ & Hn & _ & Hy)]].
  - left. destruct H0 as [(_ & -> & ->) | [(? & _) | (? & _)]]; [reflexivity|lia|lia].
  - right. reflexivity.
  - left. rewrite <- E0. symmetry. apply Hy.
    rewrite firstn_firstn. f_equal.
    pose proof (length_firstn m x). lia.
Qed.

Lemma lastStart_le (s : list ascii) (start lim : Z) (n : nat) :
  lastStart s start lim n <= start.
Proof.
  revert start. induction n as [|n IH]; intros start; cbn [lastStart]; [lia|].
  destruct (start <? lim); [lia|].
  destruct (RuneStart _); [lia|].
  specialize (IH (start - 1)). lia.
Qed.

Lemma byteAt_skipn (k : nat) (x : list ascii) (i : nat) :
  byteAt (skipn k x) i = byteAt x (k + i).
Proof. unfold byteAt. rewrite nth_error_skipn. reflexivity. Qed.

(** [DecodeLastRuneInString] on a non-empty string: an ASCII byte, a lone
    byte read as [RuneError], or a well-formed sequence that ends the
    string. *)
Lemma decodeLast_spec (x : list ascii) :
  x <> [] ->
  exists r size, DecodeLastRuneInString x = (r, size) /\
    let last := byteAt x (List.length x - 1) in
    ((last < 0x80 /\ r = last /\ size = 1%nat) \/
     (0x80 <= last /\ r = RuneError /\ size = 1%nat) \/
     (0x80 <= last /\ (size <= List.length x)%nat /\
      0xC2 <= byteAt x (List.length x - size) /\
      wellFormed DecodeRuneInString (skipn (List.length x - size) x) r size)).
Proof.
  intros Hx. unfold DecodeLastRuneInString.
  assert (Hlen : (1 <= List.length x)%nat).
  { destruct x; [congruence|cbn; lia]. }
  destruct (Z.eqb_spec (Z.of_nat (List.length x)) 0) as [H0|_]; [lia|].
  replace (Z.to_nat (Z.of_nat (List.length x) - 1)) with (List.length x - 1)%nat by lia.
  unfold RuneSelf.
  destruct (Z.ltb_spec (byteAt x (List.length x - 1)) 128) as [Hb|Hb].
  { eexists _, _. split; [reflexivity|]. left. auto. }
  set (start := Z.max (lastStart x (Z.of_nat (List.length x) - 2)
                         (Z.max (Z.of_nat (List.length x) - UTFMax) 0) 4) 0).
  assert (Hs : 0 <= start <= Z.of_nat (List.length x) - 1).
  { subst start.
    pose proof (lastStart_le x (Z.of_nat (List.length x) - 2)
                  (Z.max (Z.of_nat (List.length x) - UTFMax) 0) 4). lia. }
  assert (Hne : skipn (Z.to_nat start) x <> []).
  { intros E. apply (f_equal (@List.length ascii)) in E.
    rewrite length_skipn in E. cbn in E. lia. }
  destruct (decode_spec _ Hne) as (r & n & E & H). rewrite E.
  destruct (Z.eqb_spec (start + Z.of_nat n) (Z.of_nat (List.length x))) as [Hend|_].
  2:{ eexists _, _. split; [reflexivity|]. right; left. auto. }
  exists r, n. split; [reflexivity|]. cbv zeta.
  assert (Hk : Z.to_nat start = (List.length x - n)%nat) by lia.
  rewrite Hk in H. rewrite byteAt_skipn, Nat.add_0_r in H.
  destruct H as [(Hb' & -> & ->) | [(_ & -> & ->) | (Hb' & Hw)]].
  - exfalso. lia.
  - right; left. auto.
  - right; right. split; [exact Hb|]. split; [lia|]. split; [exact Hb'|exact Hw].
Qed.

Lemma RuneStart_byteAt (u : list ascii) (i : nat) :
  RuneStart (byteAt u i) =
  negb ((0x80 <=? byteAt u i) && (byteAt u i <=? 0xBF)).
Proof.
  unfold byteAt. destruct (nth_error u i); [apply RuneStart_byte|reflexivity].
Qed.

Lemma RuneStart_low (u : list ascii) (i : nat) :
  byteAt u i < 0x80 -> RuneStart (byteAt u i) = true.
Proof.
  intros H. rewrite RuneStart_byteAt.
  destruct (Z.leb_spec 0x80 (byteAt u i)); [lia|reflexivity].
Qed.

Lemma RuneStart_lead (u : list ascii) (i : nat) :
  0xC2 <= byteAt u i -> RuneStart (byteAt u i) = true.
Proof.
  intros H. rewrite RuneStart_byteAt.
  destruct (Z.leb_spec (byteAt u i) 0xBF); [lia|].
  rewrite andb_false_r. reflexivity.
Qed.

Lemma skipn_firstn_decode (u : list ascii) (j n : nat) (r : Z) :
  (n <= j <= List.length u)%nat ->
  wellFormed DecodeRuneInString (skipn (j - n) (firstn j u)) r n ->
  DecodeRuneInString (skipn (j - n) u) = (r, n).
Proof.
  intros Hj (Hn & _ & Hy). apply Hy.
  rewrite skipn_firstn_comm.
  replace (j - (j - n))%nat with n by lia.
  rewrite firstn_firstn, Nat.min_id. reflexivity.
Qed.

Lemma cutAt_rightEnd (fuel : nat) (u : list ascii) (j0 : nat) :
  (j0 <= List.length u)%nat -> (j0 <= fuel)%nat ->
  j0 = List.length u \/ RuneStart (byteAt u j0) = true ->
  cutAt u (lastIndexFunc_from IsSpace false u fuel j0) =
  firstn (rightEnd u fuel j0) u.
Proof.
  revert j0. induction fuel as [|fuel IH]; intros j0 Hlen Hfuel Hnext.
  { reflexivity. }
  cbn [lastIndexFunc_from rightEnd].
  destruct (Nat.eqb_spec j0 0) as [->|Hj0]; [reflexivity|].
  assert (Hx : firstn j0 u <> []).
  { destruct u; [cbn in Hlen; lia|]. destruct j0; [lia|]. cbn. congruence. }
  assert (Hlx : List.length (firstn j0 u) = j0) by (rewrite length_firstn; lia).
  destruct (decodeLast_spec _ Hx) as (r & size & E & H). rewrite E.
  cbv zeta in H. rewrite Hlx in H.
  rewrite !byteAt_firstn in H by lia.
  destruct (IsSpace r) eqn:Hsp; cbn [Bool.eqb].
  - apply IH; [lia| |].
    + destruct H as [(_ & _ & ->) | [(_ & _ & ->) | (_ & ? & _ & (? & _))]]; lia.
    + right.
      destruct H as [(Hb & _ & ->) | [(_ & -> & _) | (_ & Hsz & Hb & Hw)]]; [| |revert Hw].
      * apply RuneStart_low. exact Hb.
      * rewrite IsSpace_RuneError in Hsp. discriminate.
      * intros Hw. assert (Hwn : (2 <= size)%nat) by (destruct Hw as [? _]; lia).
        rewrite byteAt_firstn in Hb by lia.
        apply RuneStart_lead. exact Hb.
  - unfold cutAt, RuneSelf.
    destruct H as [(Hb & _ & ->) | [(Hb & _ & ->) | (_ & Hsz & Hb & Hw)]].
    + destruct (Z.leb_spec 128 (byteAt u (j0 - 1))); [lia|].
      f_equal. lia.
    + destruct (Z.leb_spec 128 (byteAt u (j0 - 1))); [|lia].
      f_equal.
      assert (Hsk : exists a, skipn (j0 - 1) u = a :: skipn j0 u /\ byteAt u (j0 - 1) = byteZ a).
      { unfold byteAt. destruct (nth_error u (j0 - 1)) as [a|] eqn:En.
        - exists a. split; [|reflexivity].
          pose proof (firstn_skipn_middle (j0 - 1) u En) as Hm.
          rewrite <- Hm at 1. rewrite skipn_app.
          rewrite length_firstn.
          replace (j0 - 1 - Nat.min (j0 - 1) (List.length u))%nat with 0%nat by lia.
          rewrite skipn_all2 by (rewrite length_firstn; lia).
          cbn. replace (S (j0 - 1)) with j0 by lia. reflexivity.
        - apply nth_error_None in En. lia. }
      destruct Hsk as (a & Hsk & Ha). rewrite Hsk.
      rewrite decode_width_one; [lia|lia|].
      destruct Hnext as [-> | Hn].
      * left. apply skipn_all.
      * right. rewrite byteAt_skipn, Nat.add_0_r. exact Hn.
    + assert (Hwn : (2 <= size)%nat) by (destruct Hw as [? _]; lia).
      rewrite byteAt_firstn in Hb by lia.
      destruct (Z.leb_spec 128 (byteAt u (j0 - size))); [|lia].
      rewrite (skipn_firstn_decode u j0 size r) by (auto; lia).
      cbn [snd]. f_equal. lia.
Qed.

Lemma TrimRightFunc_rightEnd (u : list ascii) :
  TrimRightFunc u IsSpace =
  firstn (rightEnd u (List.length u) (List.length u)) u.
Proof.
  unfold TrimRightFunc, lastIndexFunc.
  apply (cutAt_rightEnd (List.length u) u (List.length u)); auto.
Qed.

Lemma rightEnd_le (u : list ascii) (fuel i : nat) :
  (rightEnd u fuel i <= i)%nat.
Proof.
  revert i. induction fuel as [|fuel IH]; intros i; cbn [rightEnd]; [lia|].
  destruct (Nat.eqb_spec i 0); [lia|].
  destruct (DecodeLastRuneInString (firstn i u)) as [r size].
  destruct (IsSpace r); [|lia].
  specialize (IH (i - size)%nat). lia.
Qed.

Lemma rightEnd_nonspace (u : list ascii) (fuel i : nat) :
  rightEnd u fuel i <> 0%nat ->
  IsSpace (fst (DecodeLastRuneInString (firstn (rightEnd u fuel i) u))) = false.
Proof.
  revert i. induction fuel as [|fuel IH]; intros i; cbn [rightEnd]; [congruence|].
  destruct (Nat.eqb_spec i 0); [congruence|].
  destruct (DecodeLastRuneInString (firstn i u)) as [r size] eqn:E.
  destruct (IsSpace r) eqn:Hsp.
  - apply IH.
  - intros _. rewrite E. exact Hsp.
Qed.

Lemma rightEnd_prefix (u y : list ascii) (fuel i : nat) :
  (i <= List.length u)%nat ->
  rightEnd (u ++ y) fuel i = rightEnd u fuel i.
Proof.
  revert i. induction fuel as [|fuel IH]; intros i Hi; cbn [rightEnd]; [reflexivity|].
  destruct (Nat.eqb_spec i 0); [reflexivity|].
  rewrite firstn_app.
  replace (i - List.length u)%nat with 0%nat by lia.
  cbn [firstn]. rewrite app_nil_r.
  destruct (DecodeLastRuneInString (firstn i u)) as [r size].
  destruct (IsSpace r); [|reflexivity].
  apply IH. lia.
Qed.

Lemma byteAt_last (u : list ascii) (c : ascii) :
  byteAt (u ++ [c]) (List.length (u ++ [c]) - 1) = byteZ c.
Proof.
  unfold byteAt. rewrite length_app. cbn [List.length].
  replace (List.length u + 1 - 1)%nat with (List.length u) by lia.
  rewrite nth_error_app2 by lia. rewrite Nat.sub_diag. reflexivity.
Qed.

Lemma decodeLast_ascii (u : list ascii) (c : ascii) :
  byteZ c < 0x80 -> DecodeLastRuneInString (u ++ [c]) = (byteZ c, 1%nat).
Proof.
  intros Hc.
  destruct (decodeLast_spec (u ++ [c])) as (r & size & E & H).
  { destruct u; cbn; congruence. }
  cbv zeta in H. rewrite byteAt_last in H. rewrite E.
  destruct H as [(_ & -> & ->) | [(? & _) | (? & _)]]; [reflexivity|lia|lia].
Qed.

Lemma rightEnd_full (u : list ascii) (c : ascii) :
  byteZ c < 0x80 ->
  rightEnd (u ++ [c]) (List.length (u ++ [c])) (List.length (u ++ [c])) =
  if asciiSpace (byteZ c)
  then rightEnd u (List.length u) (List.length u)
  else List.length (u ++ [c]).
Proof.
  intros Hc.
  assert (Hl : List.length (u ++ [c]) = S (List.length u))
    by (rewrite length_app; cbn; lia).
  rewrite Hl at 1 2. cbn [rightEnd Nat.eqb].
  replace (firstn (S (List.length u)) (u ++ [c])) with (u ++ [c])
    by (rewrite <- Hl; symmetry; apply firstn_all).
  rewrite decodeLast_ascii by exact Hc.
  rewrite IsSpace_ascii by (pose proof (byteZ_range c); lia).
  destruct (asciiSpace (byteZ c)); [|symmetry; exact Hl].
  replace (S (List.length u) - 1)%nat with (List.length u) by lia.
  apply rightEnd_prefix. lia.
Qed.

Lemma TrimRightFunc_snoc (u : list ascii) (c : ascii) :
  byteZ c < 0x80 ->
  TrimRightFunc (u ++ [c]) IsSpace =
  if asciiSpace (byteZ c) then TrimRightFunc u IsSpace else u ++ [c].
Proof.
  intros Hc. rewrite !TrimRightFunc_rightEnd, rightEnd_full by exact Hc.
  destruct (asciiSpace (byteZ c)).
  - rewrite firstn_app.
    pose proof (rightEnd_le u (List.length u) (List.length u)) as Hle.
    replace (rightEnd u (List.length u) (List.length u) - List.length u)%nat
      with 0%nat by lia.
    cbn [firstn]. apply app_nil_r.
  - apply firstn_all.
Qed.

Lemma trimSpaceStop_spec (rs : list ascii) :
  trimSpaceStop rs = TrimRightFunc (rev rs) IsSpace.
Proof.
  induction rs as [|c rest IH]; [reflexivity|].
  cbn [trimSpaceStop]. unfold RuneSelf.
  destruct (Z.leb_spec 128 (byteZ c)) as [Hc|Hc]; [reflexivity|].
  cbn [rev]. rewrite TrimRightFunc_snoc by lia.
  destruct (asciiSpace (byteZ c)); [exact IH|reflexivity].
Qed.

Lemma indexFunc_from_shift (f : Z -> bool) (truth : bool) (s : list ascii)
    (skip i : nat) :
  indexFunc_from f truth s skip (S i) =
  option_map S (indexFunc_from f truth s skip i).
Proof.
  revert skip i. induction s as [|a rest IH]; intros skip i; [reflexivity|].
  cbn [indexFunc_from]. destruct skip as [|k]; [|apply IH].
  destruct (DecodeRuneInString (a :: rest)) as [r size].
  destruct (Bool.eqb (f r) truth); [reflexivity|apply IH].
Qed.

Lemma indexFunc_from_found (s : list ascii) (skip i0 i : nat) :
  indexFunc_from IsSpace false s skip i0 = Some i ->
  exists d, i = (i0 + d)%nat /\ skipn d s <> [] /\
            IsSpace (fst (DecodeRuneInString (skipn d s))) = false.
Proof.
  revert skip i0. induction s as [|a rest IH]; intros skip i0; [discriminate|].
  cbn [indexFunc_from]. destruct skip as [|k].
  - destruct (DecodeRuneInString (a :: rest)) as [r size] eqn:E.
    destruct (IsSpace r) eqn:Hsp; cbn [Bool.eqb].
    + intros H. destruct (IH _ _ H) as (d & -> & Hne & Hd).
      exists (S d). split; [lia|]. split; assumption.
    + intros [= <-]. exists 0%nat. split; [lia|]. cbn [skipn].
      split; [congruence|]. rewrite E. exact Hsp.
  - intros H. destruct (IH _ _ H) as (d & -> & Hne & Hd).
    exists (S d). split; [lia|]. split; assumption.
Qed.

Lemma TrimLeftFunc_head (l : list ascii) :
  TrimLeftFunc l IsSpace = [] \/
  IsSpace (fst (DecodeRuneInString (TrimLeftFunc l IsSpace))) = false.
Proof.
  unfold TrimLeftFunc, indexFunc.
  destruct (indexFunc_from IsSpace false l 0 0) as [i|] eqn:E; [|left; reflexivity].
  destruct (indexFunc_from_found _ _ _ _ E) as (d & -> & _ & Hd).
  right. exact Hd.
Qed.

Lemma TrimLeftFunc_fixed (x : list ascii) :
  IsSpace (fst (DecodeRuneInString x)) = false ->
  TrimLeftFunc x IsSpace = x.
Proof.
  intros H. unfold TrimLeftFunc, indexFunc.
  destruct x as [|a rest]; [reflexivity|].
  cbn [indexFunc_from].
  destruct (DecodeRuneInString (a :: rest)) as [r size].
  cbn [fst] in H. rewrite H. reflexivity.
Qed.

Lemma TrimLeftFunc_space (c : ascii) (rest : list ascii) :
  byteZ c < 0x80 -> asciiSpace (byteZ c) = true ->
  TrimLeftFunc (c :: rest) IsSpace = TrimLeftFunc rest IsSpace.
Proof.
  intros Hc Hsp. unfold TrimLeftFunc, indexFunc.
  cbn [indexFunc_from].
  destruct (decode_cases c) as [[_ H] | [[Hb _] | [Hb _]]]; [|lia|lia].
  rewrite H, IsSpace_ascii, Hsp by (pose proof (byteZ_range c); lia).
  cbn [Bool.eqb Nat.sub]. rewrite indexFunc_from_shift.
  destruct (indexFunc_from IsSpace false rest 0 0); reflexivity.
Qed.

Lemma trimSpaceStart_spec (l : list ascii) :
  trimSpaceStart l = TrimFunc l IsSpace.
Proof.
  induction l as [|c rest IH]; [reflexivity|].
  cbn [trimSpaceStart]. unfold RuneSelf.
  destruct (Z.leb_spec 128 (byteZ c)) as [Hc|Hc]; [reflexivity|].
  destruct (asciiSpace (byteZ c)) eqn:Hsp.
  - rewrite IH. unfold TrimFunc. rewrite TrimLeftFunc_space by (auto; lia).
    reflexivity.
  - rewrite trimSpaceStop_spec, rev_involutive. unfold TrimFunc.
    rewrite TrimLeftFunc_fixed; [reflexivity|].
    destruct (decode_cases c) as [[_ H] | [[Hb _] | [Hb _]]]; [|lia|lia].
    rewrite H. cbn [fst].
    rewrite IsSpace_ascii by (pose proof (byteZ_range c); lia). exact Hsp.
Qed.

Lemma TrimFunc_idempotent (l : list ascii) :
  TrimFunc (TrimFunc l IsSpace) IsSpace = TrimFunc l IsSpace.
Proof.
  unfold TrimFunc at 2 3.
  pose proof (TrimLeftFunc_head l) as Hu.
  generalize dependent (TrimLeftFunc l IsSpace). intros u Hu.
  rewrite (TrimRightFunc_rightEnd u).
  pose proof (rightEnd_le u (List.length u) (List.length u)) as Hj.
  pose proof (rightEnd_nonspace u (List.length u) (List.length u)) as Hns.
  generalize dependent (rightEnd u (List.length u) (List.length u)).
  intros j Hj Hns.
  destruct (Nat.eq_dec j 0%nat) as [Hj0|Hj0].
  { rewrite Hj0. reflexivity. }
  assert (Hne : u <> []) by (intros ->; cbn in Hj; lia).
  assert (Hlr : List.length (firstn j u) = j) by (rewrite length_firstn; lia).
  unfold TrimFunc. rewrite TrimLeftFunc_fixed.
  2:{ destruct (decode_prefix j u ltac:(lia) Hne) as [-> | ->].
      - destruct Hu as [Hu|Hu]; [contradiction|exact Hu].
      - exact IsSpace_RuneError. }
  rewrite TrimRightFunc_rightEnd, Hlr.
  assert (Hend : rightEnd (firstn j u) j j = j).
  { destruct j as [|j']; [lia|]. cbn [rightEnd Nat.eqb].
    rewrite firstn_firstn, Nat.min_id.
    specialize (Hns Hj0).
    destruct (DecodeLastRuneInString (firstn (S j') u)) as [r size].
    cbn [fst] in Hns. rewrite Hns. reflexivity. }
  rewrite Hend, firstn_firstn, Nat.min_id. reflexivity.
Qed.

Lemma trimSpaceStart_idempotent (l : list ascii) :
  trimSpaceStart (trimSpaceStart l) = trimSpaceStart l.
Proof. rewrite !trimSpaceStart_spec. apply TrimFunc_idempotent. Qed.

Lemma TrimSpace_idempotent (s : string) :
  TrimSpace (TrimSpace s) = TrimSpace s.
Proof.
  unfold TrimSpace. rewrite list_ascii_of_string_of_list_ascii.
  rewrite trimSpaceStart_idempotent. reflexivity.
Qed.

End TrimSpaceFacts.

(** C9.  The trim transformer is idempotent on every string value: it
    accepts the value, and applied to its own result it accepts again and
    returns that result unchanged.  Every byte string is covered, valid
    UTF-8 or not. *)
Theorem trimTransformer_idempotent (store : paramStore) (s : string)
    (paramsKey : option string) :
  snd (Transform trimTransformer store (VString s) paramsKey) = Ok /\
  Transform trimTransformer store
    (fst (Transform trimTransformer store (VString s) paramsKey)) paramsKey =
  Transform trimTransformer store (VString s) paramsKey.
Proof.
  cbn. split; [reflexivity|].
  rewrite TrimSpaceFacts.TrimSpace_idempotent. reflexivity.
Qed.

(** ** The shape descriptor cache *)

(** A hit returns the descriptor stored under the key, whatever shape asks. *)
Lemma getStructCache_hit (c : cache) (t : StructType) (strCache : structCache) :
  structsCache c !! structKey t = Some strCache ->
  getStructCache c t = (c, inl strCache).
Proof. intros H. unfold getStructCache. rewrite H. reflexivity. Qed.

(** C2 fails on the code.  The two shapes differ and have the same cache
    key.  On a fresh morpher the second record is upper-cased; on a morpher
    that has processed a record of the first shape, the second record is
    processed with the first shape's descriptor: it is trimmed, not
    upper-cased. *)
Lemma getStructCache_shapes_collide :
  StructType_eqb testData_trim testData_upper = false /\
  structKey testData_trim = structKey testData_upper /\
  (let '(_, r, err) := Struct 3 New (structArg testData_upper [VString " data "]) in
   (r, err)) = (structArg testData_upper [VString " DATA "], Ok) /\
  (let '(c1, _, _) := Struct 3 New (structArg testData_trim [VString " data "]) in
   let '(_, r, err) := Struct 3 c1 (structArg testData_upper [VString " data "]) in
   (r, err)) = (structArg testData_upper [VString "data"], Ok).
Proof. repeat split; vm_compute; reflexivity. Qed.

(** C7 fails on the code, by the same key collision.  On a fresh morpher the
    record [R{A: struct{X string}{"x"}, B: struct{}{}}], no field of which
    carries an annotation, is not processed to the end: field [B] is read
    with the descriptor cached for the type of [A], and [Field(0)] of the
    empty struct panics. *)
Lemma Struct_unannotated_panics :
  structKey anonX = structKey anonEmpty /\
  (let '(_, _, err) :=
     Struct 4 New (structArg plainRecord
                     [VStruct anonX [VString "x"]; VStruct anonEmpty []]) in
   err) = Panic fieldOutOfRange.
Proof. split; vm_compute; reflexivity. Qed.

(** ** Diving into sequences *)

Lemma morphCollection_loop_ok mf addr tags items :
  forall c c' items',
    visited mf addr tags c items c' items' ->
    morphCollection_loop mf c addr tags items = (c', items', Ok).
Proof.
  induction items as [|x rest IH]; intros c c' items' Hv; inversion Hv; subst.
  - reflexivity.
  - cbn. match goal with H : mf _ _ _ = _ |- _ => rewrite H end.
    erewrite IH by eassumption. reflexivity.
Qed.

Lemma morphCollection_loop_visited mf addr tags items :
  forall c c' items',
    morphCollection_loop mf c addr tags items = (c', items', Ok) ->
    visited mf addr tags c items c' items'.
Proof.
  induction items as [|x rest IH]; intros c c' items' H; cbn in H.
  - inversion H; subst. constructor.
  - destruct (mf c (mkValue x addr) tags) as [[c1 x'] o] eqn:Hx.
    destruct o; try discriminate.
    destruct (morphCollection_loop mf c1 addr tags rest) as [[c2 rest'] o] eqn:Hrest.
    inversion H; subst. econstructor; eauto.
Qed.

Lemma morphCollection_loop_error mf addr tags pre :
  forall c c1 pre' x post c2 x' err,
    visited mf addr tags c pre c1 pre' ->
    mf c1 (mkValue x addr) tags = (c2, x', err) ->
    err <> Ok ->
    morphCollection_loop mf c addr tags (pre ++ x :: post)
      = (c2, pre' ++ x' :: post, err).
Proof.
  induction pre as [|y pre IH]; intros c c1 pre' x post c2 x' err Hv Hx Herr;
    inversion Hv; subst; cbn.
  - rewrite Hx. destruct err; congruence.
  - match goal with H : mf _ _ _ = (_, _, Ok) |- _ => rewrite H end.
    erewrite IH by eassumption. reflexivity.
Qed.

Lemma morphField_body_dive_collection (mf : morphFieldT) (c : cache)
    (slice addr : bool) (items : list value) (p : string) (k : option string)
    (tr : option FieldTransformer) (X kc : tagChainCache) :
  morphField_body mf c
      (mkValue ((if slice then VSlice else VArray) items) addr)
      (mkTag TagDive p k tr X kc)
    = (let '(c1, items', err) :=
         morphCollection_loop mf c (if slice then true else addr) X items in
       (c1, (if slice then VSlice else VArray) items', err)).
Proof.
  unfold morphField_body, getActualValue.
  destruct slice, addr; cbn;
    match goal with
    | |- context [morphCollection_loop mf c ?a X items] =>
        destruct (morphCollection_loop mf c a X items) as [[c1 items'] err]
    end; cbn; destruct err; reflexivity.
Qed.

(** C6.  For a slice or array field with the chain [dive,X]: when every
    element is processed without error, the field holds the processed
    elements, each the result of [X] on that element, taken in index order;
    when the element after [pre] is the first to fail with [err], the field's
    processing fails with [err], the elements before it keep what their
    processing made of them, and the elements after it are as they were (the
    failing element holds whatever its own processing left). *)
Theorem dive_collection_in_order (mf : morphFieldT) (c : cache)
    (slice addr : bool) (items : list value) (p : string) (k : option string)
    (tr : option FieldTransformer) (X kc : tagChainCache) :
  let coll := if slice then VSlice else VArray in
  let elemAddr := if slice then true else addr in
  let fieldValue := mkValue (coll items) addr in
  let chain := mkTag TagDive p k tr X kc in
  (forall c' items',
     visited mf elemAddr X c items c' items' ->
     morphField_body mf c fieldValue chain = (c', coll items', Ok)) /\
  (forall pre x post c1 pre' c2 x' err,
     items = pre ++ x :: post ->
     visited mf elemAddr X c pre c1 pre' ->
     mf c1 (mkValue x elemAddr) X = (c2, x', err) ->
     err <> Ok ->
     morphField_body mf c fieldValue chain = (c2, coll (pre' ++ x' :: post), err)).
Proof.
  cbv zeta. split.
  - intros c' items' Hv. rewrite morphField_body_dive_collection.
    rewrite (morphCollection_loop_ok _ _ _ _ _ _ _ Hv). reflexivity.
  - intros pre x post c1 pre' c2 x' err -> Hv Hx Herr.
    rewrite morphField_body_dive_collection.
    rewrite (morphCollection_loop_error _ _ _ _ _ _ _ _ _ _ _ _ Hv Hx Herr).
    reflexivity.
Qed.

Lemma dive_collection_in_order_witness :
  morphField_body (morphField 1) New
      (mkValue (VSlice [VString " a "; VScalar SInt 5; VString " b "]) true)
      (mkTag TagDive "" None None trimNode nilTag)
    = (New, VSlice [VString "a"; VScalar SInt 5; VString " b "],
       Err (newErrorf ErrUnexpectedValue [TagTrim; "int"])).
Proof.
  apply (proj2 (dive_collection_in_order (morphField 1) New true true
                  [VString " a "; VScalar SInt 5; VString " b "]
                  "" None None trimNode nilTag)
           [VString " a "] (VScalar SInt 5) [VString " b "]
           New [VString "a"] New (VScalar SInt 5)
           (Err (newErrorf ErrUnexpectedValue [TagTrim; "int"]))).
  - reflexivity.
  - apply (visited_cons _ _ _ New (VString " a ") New (VString "a") [] New []);
      [reflexivity | constructor].
  - reflexivity.
  - discriminate.
Defined.

(** ** Writing back *)

Lemma getActualValue_in_spec (v : value) :
  forall addr x depth path a,
    getActualValue_in v addr x depth = (path, a) ->
    cell (deref a) = cell_original /\
    v = rewrap path (content (deref a)) /\
    (forall e p, content (deref a) <> VPtr e (Some p)) /\
    (forall y, content (deref a) <> VInterface (Some y)).
Proof.
  induction v as [k z|s|e o IHo|o IHo|t fs IHfs|its IHits|its IHits|m IHm]
    using value_ind;
    intros addr x depth path a Hget; cbn in Hget;
    try (inversion Hget; subst; cbn; repeat split; congruence).
  - destruct o as [p|].
    + inversion IHo as [? IHp|]; subst.
      destruct (getActualValue_in p true (var_dataValueElement depth) (S depth))
        as [path' r] eqn:Hp.
      inversion Hget; subst. destruct (IHp _ _ _ _ _ Hp) as (Hc & Hv & Hn1 & Hn2).
      repeat split; auto. cbn. congruence.
    + inversion Hget; subst; cbn; repeat split; congruence.
  - destruct o as [y|].
    + inversion IHo as [? IHy|]; subst.
      destruct (getActualValue_in y false (var_dataValueElement depth) (S depth))
        as [path' r] eqn:Hy.
      inversion Hget; subst. destruct (IHy _ _ _ _ _ Hy) as (Hc & Hv & Hn1 & Hn2).
      repeat split; auto. cbn. congruence.
    + inversion Hget; subst; cbn; repeat split; congruence.
Qed.

Lemma getActualValue_in_var (v : value) :
  forall addr x depth path a,
    getActualValue_in v addr x depth = (path, a) ->
    x <> var_newValue -> var a <> var_newValue.
Proof.
  induction v as [k z|s|e o IHo|o IHo|t fs IHfs|its IHits|its IHits|m IHm]
    using value_ind;
    intros addr x depth path a Hget Hx; cbn in Hget;
    try (inversion Hget; subst; cbn; congruence).
  - destruct o as [p|]; [|inversion Hget; subst; cbn; congruence].
    inversion IHo as [? IHp|]; subst.
    destruct (getActualValue_in p true (var_dataValueElement depth) (S depth))
      as [path' r] eqn:Hp.
    inversion Hget; subst. eapply IHp; [exact Hp|discriminate].
  - destruct o as [y|]; [|inversion Hget; subst; cbn; congruence].
    inversion IHo as [? IHy|]; subst.
    destruct (getActualValue_in y false (var_dataValueElement depth) (S depth))
      as [path' r] eqn:Hy.
    inversion Hget; subst. eapply IHy; [exact Hy|discriminate].
Qed.

Lemma morphField_loop_var mf tag :
  forall c a n kind c1 a' n' err,
    morphField_loop mf c a n kind tag = (c1, a', n', err) ->
    var a' = var a /\ var n' = var n.
Proof.
  induction tag as [|tg ps pk tr next IHnext kc _];
    intros c a n kind c1 a' n' err H; cbn in H.
  - inversion H; subst. split; reflexivity.
  - destruct (String.eqb tg TagDive).
    + destruct (dive mf c a kind next) as [[c' v'] e'].
      inversion H; subst. split; [reflexivity|].
      destruct (sameCell n a); reflexivity.
    + destruct tr as [t|]; [|eapply IHnext; eauto].
      destruct (Transform t (intParams c) (content (deref n)) pk) as [w' e'].
      destruct (isOk e').
      * apply IHnext in H as [Ha Hn]. rewrite Ha, Hn.
        split; [destruct (sameCell n a)|]; reflexivity.
      * inversion H; subst. split; [destruct (sameCell n a)|]; reflexivity.
Qed.

(** The comparison [newValue != actualValue] of [morphField] is between the
    address of the local [newValue] of [getAssignableValue] and the address
    of another variable: it always holds, and [assignValue] is never
    reached. *)
Lemma morphField_pointers_differ mf c fieldValue tag path actualValue kind
    c1 actualValue' newValue' err :
  getActualValue {| var := var_fieldValue; deref := fieldValue |}
    = (path, actualValue) ->
  morphField_loop mf c actualValue (getAssignableValue actualValue kind) kind tag
    = (c1, actualValue', newValue', err) ->
  goVar_eqb (var newValue') (var actualValue') = false.
Proof.
  intros Hact Hloop. apply morphField_loop_var in Hloop as [Ha Hn].
  rewrite Ha, Hn. cbn.
  apply getActualValue_in_var in Hact; [|discriminate].
  destruct (var actualValue); [reflexivity|reflexivity|congruence].
Qed.

Lemma morphField_loop_sameCell mf tag :
  forall c a n kind c1 a' n' err,
    sameCell n a = true ->
    content (deref n) = content (deref a) ->
    morphField_loop mf c a n kind tag = (c1, a', n', err) ->
    content (deref a') = content (deref n').
Proof.
  induction tag as [|tg ps pk tr next IHnext kc _];
    intros c a n kind c1 a' n' err Hsame Hcontent H; cbn in H.
  - inversion H; subst. congruence.
  - destruct (String.eqb tg TagDive).
    + destruct (dive mf c a kind next) as [[c' v'] e']. rewrite Hsame in H.
      inversion H; subst. reflexivity.
    + destruct tr as [t|]; [|eapply IHnext; eauto].
      destruct (Transform t (intParams c) (content (deref n)) pk) as [w' e'].
      rewrite Hsame in H.
      destruct (isOk e').
      * eapply IHnext; [| |exact H]; [|reflexivity].
        unfold sameCell in *. cbn. exact Hsame.
      * inversion H; subst. reflexivity.
Qed.

Lemma morphField_loop_freshPtr mf tag :
  forall c a n c1 a' n',
    sameCell n a = false ->
    morphField_loop mf c a n KPtr tag = (c1, a', n', Ok) ->
    content (deref a') = content (deref a).
Proof.
  induction tag as [|tg ps pk tr next IHnext kc _];
    intros c a n c1 a' n' Hsame H; cbn in H.
  - inversion H; subst. reflexivity.
  - destruct (String.eqb tg TagDive); [unfold dive in H; discriminate|].
    destruct tr as [t|]; [|eapply IHnext; eauto].
    destruct (Transform t (intParams c) (content (deref n)) pk) as [w' e'].
    rewrite Hsame in H.
    destruct e'; cbn in H; try discriminate.
    apply IHnext in H; [exact H|]. unfold sameCell in *. cbn. exact Hsame.
Qed.

(** C1, as the code has it.  Let the chain of a field complete without
    error on a value that is not a struct.  The field's storage then holds
    what the handle [actualValue] holds.  When the value is addressable and
    not a (nil) pointer, the working handle is a handle onto that very
    storage, so the storage holds the final value of the chain.  When the
    value is a nil pointer, the working handle is a cell of its own, its
    final value is not copied back, and the pointer is left nil. *)
Theorem morphField_writeback (mf : morphFieldT) (c : cache) (fieldValue : Value)
    (tag : tagChainCache) (path : list wrapper) (actualValue : ValuePtr)
    (c1 : cache) (actualValue' newValue' : ValuePtr) :
  getActualValue {| var := var_fieldValue; deref := fieldValue |}
    = (path, actualValue) ->
  kindOf (content (deref actualValue)) <> KStruct ->
  morphField_loop mf c actualValue
      (getAssignableValue actualValue (kindOf (content (deref actualValue))))
      (kindOf (content (deref actualValue))) tag
    = (c1, actualValue', newValue', Ok) ->
  morphField_body mf c fieldValue tag
    = (c1, rewrap path (content (deref actualValue')), Ok) /\
  (CanAddr (deref actualValue) = true ->
   kindOf (content (deref actualValue)) <> KPtr ->
     cell (deref (getAssignableValue actualValue
                    (kindOf (content (deref actualValue))))) = cell_original /\
     content (deref actualValue') = content (deref newValue')) /\
  (kindOf (content (deref actualValue)) = KPtr ->
     exists e,
       content (deref actualValue) = VPtr e None /\
       cell (deref (getAssignableValue actualValue KPtr)) = cell_fresh /\
       content (deref actualValue') = VPtr e None).
Proof.
  intros Hact Hkind Hloop.
  pose proof Hact as Hspec. unfold getActualValue in Hspec.
  apply getActualValue_in_spec in Hspec as (Hcell & _ & Hnoptr & _).
  split; [|split].
  - unfold morphField_body. rewrite Hact.
    replace (Kind_eqb (kindOf (content (deref actualValue))) KStruct) with false
      by (destruct (kindOf (content (deref actualValue))); cbn; congruence).
    rewrite Hloop.
    rewrite (morphField_pointers_differ _ _ _ _ _ _ _ _ _ _ _ Hact Hloop).
    reflexivity.
  - intros Haddr Hnp.
    assert (Hnew : getAssignableValue actualValue (kindOf (content (deref actualValue)))
                   = {| var := var_newValue; deref := deref actualValue |}).
    { unfold getAssignableValue. rewrite Haddr.
      replace (Kind_eqb (kindOf (content (deref actualValue))) KPtr) with false
        by (destruct (kindOf (content (deref actualValue))); cbn; congruence).
      reflexivity. }
    rewrite Hnew in *. split; [exact Hcell|].
    eapply morphField_loop_sameCell; [| |exact Hloop]; [|reflexivity].
    unfold sameCell. cbn. rewrite Hcell. reflexivity.
  - intros Hk. rewrite Hk in Hloop.
    destruct (content (deref actualValue)) as [k ?| |e [p|]| | | | |] eqn:Hc;
      cbn in Hk; try discriminate.
    + destruct k; discriminate.
    + exfalso. eapply Hnoptr. reflexivity.
    + exists e. split; [reflexivity|].
      assert (Hnew : cell (deref (getAssignableValue actualValue KPtr)) = cell_fresh)
        by (unfold getAssignableValue; rewrite Hc; reflexivity).
      split; [exact Hnew|].
      rewrite <- Hc. eapply morphField_loop_freshPtr; [|exact Hloop].
      unfold sameCell. rewrite Hnew. reflexivity.
Qed.

Lemma morphField_writeback_witness :
  morphField_body (morphField 0) New (mkValue (VString " data ") true) trimNode
    = (New, VString "data", Ok) /\
  morphField_body (morphField 0) New (mkValue (VPtr TString None) true) trimNode
    = (New, VPtr TString None, Ok).
Proof.
  split.
  - refine (proj1 (morphField_writeback (morphField 0) New
             (mkValue (VString " data ") true) trimNode []
             {| var := var_fieldValue; deref := mkValue (VString " data ") true |}
             New
             {| var := var_fieldValue; deref := mkValue (VString "data") true |}
             {| var := var_newValue; deref := mkValue (VString "data") true |}
             _ _ _)); [reflexivity|discriminate|reflexivity].
  - refine (proj1 (morphField_writeback (morphField 0) New
             (mkValue (VPtr TString None) true) trimNode []
             {| var := var_fieldValue; deref := mkValue (VPtr TString None) true |}
             New
             {| var := var_fieldValue; deref := mkValue (VPtr TString None) true |}
             {| var := var_newValue;
                deref := {| content := VString ""; CanAddr := true; cell := cell_fresh |} |}
             _ _ _)); [reflexivity|discriminate|reflexivity].
Defined.

(** C1 as stated fails.  For a nil [*string] field with the chain [baba]:
    the working handle is a cell of its own, the chain completes without
    error with the working cell holding "baba", and the field is left nil:
    nothing is copied back.  The same happens to a string held in an
    interface field with the chain [trim]: the copy is trimmed, the field
    is not. *)
Lemma morphField_no_copy_back :
  (let actualValue :=
     {| var := var_fieldValue; deref := mkValue (VPtr TString None) true |} in
   let newValue := getAssignableValue actualValue KPtr in
   let '(_, actualValue', newValue', err) :=
     morphField_loop (morphField 0) New actualValue newValue KPtr
       (mkTag "baba" "" None (Some babaTransformer) nilTag nilTag) in
   (cell (deref newValue), content (deref newValue'),
    content (deref actualValue'), err))
    = (cell_fresh, VString "baba", VPtr TString None, Ok) /\
  (let '(c, _) := Register New "baba" (Some babaTransformer) in
   let '(_, r, err) := Struct 3 c (structArg testData_babaPtr [VPtr TString None]) in
   (r, err)) = (structArg testData_babaPtr [VPtr TString None], Ok) /\
  (let '(_, r, err) :=
     Struct 3 New (structArg testData_trimInterface
                     [VInterface (Some (VString " data "))]) in
   (r, err))
    = (structArg testData_trimInterface [VInterface (Some (VString " data "))], Ok).
Proof. repeat split; vm_compute; reflexivity. Qed.

(** ** Records without annotations *)

Lemma FieldsFunc_ignore : GoStrings.FieldsFunc TagIgnore TagSeparator <> [].
Proof. vm_compute. discriminate. Qed.

Lemma buildFieldsFrom_plain (typeString : string) (decls : list (StructField * rtype)) :
  forall (c : cache) (i : nat),
    forallb (fun d =>
               match GoStrings.FieldsFunc (Tag_Get (Tag (fst d)) (tagName c)) TagSeparator with
               | [] => true
               | _ => false
               end) decls = true ->
    buildFieldsFrom c typeString decls i = (c, inl (plainFields decls i)).
Proof.
  induction decls as [|[field ty] rest IH]; intros c i Hall; [reflexivity|].
  cbn [forallb fst] in Hall. apply andb_true_iff in Hall as [Hraw Hall].
  cbn [buildFieldsFrom plainFields].
  destruct (IsExported field); cbn [negb]; [|apply IH; exact Hall].
  destruct (String.eqb_spec (Tag_Get (Tag field) (tagName c)) TagIgnore) as [E|_].
  { rewrite E in Hraw.
    destruct (GoStrings.FieldsFunc TagIgnore TagSeparator) eqn:F;
      [exfalso; exact (FieldsFunc_ignore F)|discriminate]. }
  unfold buildTagsCache.
  destruct (GoStrings.FieldsFunc (Tag_Get (Tag field) (tagName c)) TagSeparator);
    [|discriminate].
  cbn [buildTagsFrom setParamsKey].
  destruct (Nat.ltb 0 _); rewrite IH by exact Hall; reflexivity.
Qed.

Lemma plainFields_bounds (decls : list (StructField * rtype)) :
  forall i fc, In fc (plainFields decls i) ->
    (index fc < i + List.length decls)%nat /\ tags fc = nilTag.
Proof.
  induction decls as [|[field ty] rest IH]; intros i fc Hin; [destruct Hin|].
  cbn [plainFields] in Hin. cbn [List.length].
  destruct (IsExported field).
  - destruct Hin as [<- | Hin]; [cbn; split; [lia|reflexivity]|].
    destruct (IH _ _ Hin). split; [lia|assumption].
  - destruct (IH _ _ Hin). split; [lia|assumption].
Qed.

Lemma rewrap_plain (tn : string) (path : list wrapper) (w : value) :
  plainValue tn (rewrap path w) = plainValue tn w /\
  shapes (rewrap path w) = shapes w /\
  depth (rewrap path w) = depth w.
Proof.
  induction path as [|[e|] path IH]; cbn; auto.
Qed.

Section Plain.

Variable tn : string.
Variable known : list StructType.

Hypothesis keysApart :
  forall t1 t2, In t1 known -> In t2 known -> structKey t1 = structKey t2 -> t1 = t2.

Lemma getStructCache_plain (c : cache) (t : StructType) :
  coherent tn known c -> In t known -> unannotated tn t = true ->
  exists c', getStructCache c t = (c', inl (plainDescriptor t)) /\ coherent tn known c'.
Proof.
  intros [Htn Hco] Hin Hun. unfold getStructCache.
  destruct (structsCache c !! structKey t) as [d|] eqn:E.
  - exists c. rewrite (Hco t d Hin E). split; [reflexivity|split; assumption].
  - unfold buildStructCache.
    rewrite buildFieldsFrom_plain by (rewrite Htn; exact Hun).
    eexists. split; [reflexivity|]. split; [exact Htn|].
    intros t' d Hin' Hd. cbn [structsCache withStruct] in Hd.
    destruct (String.eqb_spec (structKey t) (structKey t')) as [Hk|Hk].
    + rewrite Hk, lookup_insert_eq in Hd. injection Hd as <-.
      rewrite (keysApart _ _ Hin Hin' Hk). reflexivity.
    + rewrite lookup_insert_ne in Hd by exact Hk. exact (Hco _ _ Hin' Hd).
Qed.

Lemma morphStruct_loop_plain (mf : morphFieldT) (addr : bool) (fs : list value)
    (fcs : list fieldCache) :
  (forall c x, coherent tn known c -> In x fs ->
     exists c', mf c (mkValue x addr) nilTag = (c', x, Ok) /\ coherent tn known c') ->
  (forall fc, In fc fcs -> (index fc < List.length fs)%nat /\ tags fc = nilTag) ->
  forall c, coherent tn known c ->
    exists c', morphStruct_loop mf c addr fcs (List.length fcs) fs = (c', fs, Ok) /\
               coherent tn known c'.
Proof.
  intros Hmf. induction fcs as [|fc fcs IH]; intros Hfcs c Hc.
  { exists c. split; [reflexivity|exact Hc]. }
  cbn [List.length morphStruct_loop].
  destruct (Hfcs fc (or_introl eq_refl)) as [Hidx Htags].
  destruct (lookup_lt_is_Some_2 fs (index fc) Hidx) as [x Hx].
  rewrite Hx, Htags.
  destruct (Hmf c x Hc) as (c1 & -> & Hc1).
  { apply list_elem_of_In. eapply list_elem_of_lookup_2. exact Hx. }
  rewrite list_insert_id by exact Hx.
  apply IH; [|exact Hc1]. intros fc' Hin. apply Hfcs. right. exact Hin.
Qed.

Lemma depth_field (x : value) (fs : list value) :
  In x fs -> (depth x <= list_max (List.map depth fs))%nat.
Proof.
  intros Hin.
  assert (H : List.Forall (fun k => (k <= list_max (List.map depth fs))%nat)
                (List.map depth fs)) by (apply list_max_le; lia).
  rewrite List.Forall_forall in H. apply H. apply in_map. exact Hin.
Qed.

Lemma morphStruct_plain (mf : morphFieldT) (c : cache) (sv : Value)
    (t : StructType) (fs : list value) :
  content sv = VStruct t fs ->
  coherent tn known c -> plainValue tn (VStruct t fs) = true ->
  incl (shapes (VStruct t fs)) known ->
  (forall c x, coherent tn known c -> In x fs ->
     exists c', mf c (mkValue x (CanAddr sv)) nilTag = (c', x, Ok) /\
                coherent tn known c') ->
  exists c', morphStruct mf c sv = (c', VStruct t fs, Ok) /\ coherent tn known c'.
Proof.
  intros Ha Hc Hplain Hsh Hmf.
  cbn [plainValue] in Hplain.
  apply andb_true_iff in Hplain as [Hplain Hfs].
  apply andb_true_iff in Hplain as [Hlen Hun].
  apply Nat.eqb_eq in Hlen.
  unfold morphStruct. rewrite Ha.
  destruct (getStructCache_plain c t Hc) as (c1 & -> & Hc1); [|exact Hun|].
  { apply Hsh. left. reflexivity. }
  cbn [fields fieldsLength plainDescriptor].
  destruct (morphStruct_loop_plain mf (CanAddr sv) fs
              (plainFields (Fields t) 0)) with (c := c1)
    as (c2 & -> & Hc2).
  - exact Hmf.
  - intros fc Hin. destruct (plainFields_bounds _ _ _ Hin). split; [lia|assumption].
  - exact Hc1.
  - exists c2. split; [reflexivity|exact Hc2].
Qed.

Lemma plain_fields (t : StructType) (fs : list value) (x : value) (n : nat) :
  plainValue tn (VStruct t fs) = true ->
  incl (shapes (VStruct t fs)) known ->
  (depth (VStruct t fs) <= n)%nat ->
  In x fs ->
  plainValue tn x = true /\ incl (shapes x) known /\ (depth x < n)%nat.
Proof.
  intros Hplain Hsh Hd Hx. cbn [plainValue] in Hplain.
  apply andb_true_iff in Hplain as [_ Hfs].
  rewrite forallb_forall in Hfs. split; [apply Hfs; exact Hx|]. split.
  - intros t' Ht'. apply Hsh. right. apply in_flat_map. exists x. split; assumption.
  - cbn [depth] in Hd. pose proof (depth_field x fs Hx). lia.
Qed.

Lemma morphField_plain (fuel : nat) :
  forall c v addr,
    coherent tn known c -> plainValue tn v = true -> incl (shapes v) known ->
    (depth v < fuel)%nat ->
    exists c', morphField fuel c (mkValue v addr) nilTag = (c', v, Ok) /\
               coherent tn known c'.
Proof.
  induction fuel as [|fuel IH]; intros c v addr Hc Hplain Hsh Hd; [lia|].
  cbn [morphField]. unfold morphField_body, getActualValue.
  cbn [content deref CanAddr var mkValue].
  destruct (getActualValue_in v addr var_fieldValue 0) as [path a] eqn:Hget.
  destruct (getActualValue_in_spec _ _ _ _ _ _ Hget) as (Hcell & Hv & Hnp & Hni).
  pose proof (getActualValue_in_var _ _ _ _ _ _ Hget ltac:(discriminate)) as Hvar.
  assert (Hneq : forall kind,
             goVar_eqb (var (getAssignableValue a kind)) (var a) = false).
  { intros kind. cbn [getAssignableValue var].
    destruct (var a); try reflexivity; congruence. }
  destruct (rewrap_plain tn path (content (deref a))) as (Hp & Hs & Hdp).
  rewrite <- Hv in Hp, Hs, Hdp.
  rewrite Hp in Hplain. rewrite Hs in Hsh. rewrite Hdp in Hd.
  destruct (content (deref a)) as [k z|s|e o|o|t fs|its|its|m] eqn:Ha;
    cbn [kindOf Kind_eqb].
  5:{ destruct (morphStruct_plain (morphField fuel) c (deref a) t fs Ha Hc Hplain Hsh)
        as (c2 & -> & Hc2).
      - intros c' x Hc' Hx.
        destruct (plain_fields t fs x fuel Hplain Hsh ltac:(lia) Hx) as (? & ? & ?).
        apply IH; assumption.
      - exists c2. rewrite Hv. split; [reflexivity|exact Hc2]. }
  all: cbn [morphField_loop isOk negb orb].
  all: try (destruct k; cbn [scalarKind Kind_eqb]).
  all: rewrite Hneq; cbn [negb]; rewrite Ha, <- Hv.
  all: exists c; split; [reflexivity|exact Hc].
Qed.

End Plain.

(** X2.  C7 when the cache keys identify the shapes.  Let no field of the
    record, nor of a record nested in it, carry an annotation (its annotation
    string is empty or made of separators only), let no two of their shapes
    share a cache key, and let the cache hold for these shapes only
    descriptors built from them (as a fresh morpher does, holding none).
    Then [Struct] succeeds and leaves every field as it was. *)
Theorem Struct_unannotated_unchanged (fuel : nat) (c : cache) (e : rtype)
    (t : StructType) (fs : list value) :
  plainValue (tagName c) (VStruct t fs) = true ->
  (depth (VStruct t fs) <= fuel)%nat ->
  (forall t1 t2, In t1 (shapes (VStruct t fs)) -> In t2 (shapes (VStruct t fs)) ->
                 structKey t1 = structKey t2 -> t1 = t2) ->
  (forall t1 d, In t1 (shapes (VStruct t fs)) ->
                structsCache c !! structKey t1 = Some d -> d = plainDescriptor t1) ->
  exists c', Struct fuel c (Some (VPtr e (Some (VStruct t fs))))
             = (c', Some (VPtr e (Some (VStruct t fs))), Ok).
Proof.
  intros Hplain Hd Hkeys Hcache.
  cbn [Struct kindOf Kind_eqb negb].
  destruct (morphStruct_plain (tagName c) (shapes (VStruct t fs)) Hkeys
              (morphField fuel) c (mkValue (VStruct t fs) true) t fs)
    as (c' & -> & _).
  - reflexivity.
  - split; [reflexivity|exact Hcache].
  - exact Hplain.
  - intros x Hx. exact Hx.
  - intros c1 x Hc1 Hx.
    destruct (plain_fields (tagName c) (shapes (VStruct t fs)) t fs x fuel Hplain
                ltac:(intros y Hy; exact Hy) Hd Hx) as (? & ? & ?).
    apply morphField_plain; assumption.
  - exists c'. reflexivity.
Qed.

Lemma Struct_unannotated_unchanged_witness :
  exists c', Struct 2 New (Some (VPtr (TStruct plainOuter) (Some plainOuterValue)))
             = (c', Some (VPtr (TStruct plainOuter) (Some plainOuterValue)), Ok).
Proof.
  refine (Struct_unannotated_unchanged 2 New (TStruct plainOuter) plainOuter _ _ _ _ _).
  - reflexivity.
  - cbn. lia.
  - intros t1 t2 [<- | [<- | [<- | []]]] [<- | [<- | [<- | []]]] H;
      try reflexivity; vm_compute in H; discriminate H.
  - intros t1 d _ H. cbn [structsCache New] in H.
    rewrite lookup_empty in H. discriminate H.
Defined.

(** ** Equality of keys *)

Lemma Kind_eqb_eq (a b : Kind) : Kind_eqb a b = true <-> a = b.
Proof. destruct a, b; cbn; split; congruence. Qed.







(** ** Diving into maps *)



Section MapKeys.

Variable mf : morphFieldT.
Variable c : cache.
Variables tg ps : string.
Variable pk : option string.
Variable tr : option FieldTransformer.
Variables valueChain keyChain : tagChainCache.

(** What the key chain makes of a key and the value chain of a value. *)
Variables K V : value -> value.

Let keysNode : tagChainCache := mkTag tg ps pk tr valueChain keyChain.


End MapKeys.










(** ** Registration after compilation *)

Section Follows.

Variables mfA mfB : morphFieldT.
Hypothesis Hfollows : follows mfA mfB.

Ltac step_mf H Hsame :=
  match type of H with
  | context [mfA ?c ?fv ?tg] =>
      let ca := fresh "ca" in let x := fresh "x'" in let o := fresh "o" in
      let E := fresh "E" in
      destruct (mfA c fv tg) as [[ca x] o] eqn:E;
      let Hs := fresh "Hs" in
      pose proof (Hfollows _ _ _ _ _ _ _ Hsame E) as Hs; clear E
  end.

Lemma follows_morphStruct_loop fcs :
  forall n c c2 addr fs c1 fs' err,
    sameCompiled c c2 ->
    morphStruct_loop mfA c addr fcs n fs = (c1, fs', err) -> err <> notCached ->
    morphStruct_loop mfB c2 addr fcs n fs = (c2, fs', err) /\ c1 = c.
Proof.
  induction fcs as [|f fcs IH]; intros [|n] c c2 addr fs c1 fs' err Hsame H Herr;
    cbn in *; try (inversion H; subst; split; reflexivity).
  destruct (fs !! index f) as [x|]; [|inversion H; subst; split; reflexivity].
  step_mf H Hsame.
  destruct o; try (inversion H; subst; destruct (Hs Herr) as [-> ->]; split; reflexivity).
  destruct Hs as [Hb ->]; [discriminate|]; rewrite Hb; clear Hb. eapply IH; eauto.
Qed.

Lemma follows_morphStruct c c2 sv c1 v' err :
  sameCompiled c c2 ->
  (forall t fs, content sv = VStruct t fs ->
                is_Some (structsCache c !! structKey t)) ->
  morphStruct mfA c sv = (c1, v', err) -> err <> notCached ->
  morphStruct mfB c2 sv = (c2, v', err) /\ c1 = c.
Proof.
  intros Hsame Hcached H Herr. unfold morphStruct in *.
  destruct (content sv) as [| | | |t fs| | |] eqn:Hc;
    try (inversion H; subst; split; reflexivity).
  destruct (Hcached t fs eq_refl) as [sc Hsc].
  unfold getStructCache in *. destruct Hsame as [Hs1 Hs2].
  rewrite <- Hs1. rewrite Hsc in *.
  destruct (morphStruct_loop mfA c (CanAddr sv) (fields sc) (fieldsLength sc) fs)
    as [[ca fs'] o] eqn:E.
  inversion H; subst.
  destruct (follows_morphStruct_loop _ _ _ c2 _ _ _ _ _ (conj Hs1 Hs2) E Herr) as [-> ->].
  split; reflexivity.
Qed.

Lemma follows_morphCollection_loop tags items :
  forall c c2 addr c1 items' err,
    sameCompiled c c2 ->
    morphCollection_loop mfA c addr tags items = (c1, items', err) ->
    err <> notCached ->
    morphCollection_loop mfB c2 addr tags items = (c2, items', err) /\ c1 = c.
Proof.
  induction items as [|x rest IH]; intros c c2 addr c1 items' err Hsame H Herr;
    cbn in *; [inversion H; subst; split; reflexivity|].
  step_mf H Hsame.
  destruct o; try (inversion H; subst; destruct (Hs Herr) as [-> ->]; split; reflexivity).
  destruct Hs as [Hb ->]; [discriminate|]; rewrite Hb; clear Hb.
  destruct (morphCollection_loop mfA c addr tags rest) as [[cb rest'] o] eqn:Er.
  inversion H; subst.
  destruct (IH _ _ _ _ _ _ Hsame Er Herr) as [-> ->]. split; reflexivity.
Qed.

Lemma follows_morphMap_loop smk tags keys :
  forall c c2 m c1 m' err,
    sameCompiled c c2 ->
    morphMap_loop mfA c smk tags keys m = (c1, m', err) -> err <> notCached ->
    morphMap_loop mfB c2 smk tags keys m = (c2, m', err) /\ c1 = c.
Proof.
  induction keys as [|key rest IH]; intros c c2 m c1 m' err Hsame H Herr;
    cbn in *; [inversion H; subst; split; reflexivity|].
  destruct (MapIndex m key) as [elem|]; [|inversion H; subst; split; reflexivity].
  destruct smk.
  - unfold morphMapKey in *. step_mf H Hsame.
    destruct o; try (inversion H; subst; destruct (Hs Herr) as [-> ->]; split; reflexivity).
    destruct Hs as [Hb ->]; [discriminate|]; rewrite Hb; clear Hb.
    step_mf H Hsame.
    destruct o; try (inversion H; subst; destruct (Hs Herr) as [-> ->]; split; reflexivity).
    destruct Hs as [Hb ->]; [discriminate|]; rewrite Hb; clear Hb. eapply IH; eauto.
  - step_mf H Hsame.
    destruct o; try (inversion H; subst; destruct (Hs Herr) as [-> ->]; split; reflexivity).
    destruct Hs as [Hb ->]; [discriminate|]; rewrite Hb; clear Hb. eapply IH; eauto.
Qed.

Lemma follows_dive c c2 a kind tag c1 v' err :
  sameCompiled c c2 ->
  dive mfA c a kind tag = (c1, v', err) -> err <> notCached ->
  dive mfB c2 a kind tag = (c2, v', err) /\ c1 = c.
Proof.
  intros Hsame H Herr. unfold dive, morphCollection, morphMap in *.
  destruct kind; try (inversion H; subst; split; reflexivity);
    destruct (content (deref a)) as [| | | | |its|its|m];
    try (inversion H; subst; split; reflexivity);
    match type of H with
    | context [morphCollection_loop mfA c ?ad tag its] =>
        let E := fresh "E" in
        destruct (morphCollection_loop mfA c ad tag its) as [[ca its'] o] eqn:E;
        inversion H; subst;
        destruct (follows_morphCollection_loop _ _ _ _ _ _ _ _ Hsame E Herr) as [-> ->]
    | context [morphMap_loop mfA c ?smk tag ?ks m] =>
        let E := fresh "E" in
        destruct (morphMap_loop mfA c smk tag ks m) as [[ca m'] o] eqn:E;
        inversion H; subst;
        destruct (follows_morphMap_loop _ _ _ _ _ _ _ _ _ Hsame E Herr) as [-> ->]
    end; split; reflexivity.
Qed.

Lemma follows_morphField_loop tag :
  forall c c2 a n kind c1 a' n' err,
    sameCompiled c c2 ->
    morphField_loop mfA c a n kind tag = (c1, a', n', err) -> err <> notCached ->
    morphField_loop mfB c2 a n kind tag = (c2, a', n', err) /\ c1 = c.
Proof.
  induction tag as [|tg ps pk tr next IHnext kc _];
    intros c c2 a n kind c1 a' n' err Hsame H Herr; cbn in *.
  - inversion H; subst. split; reflexivity.
  - destruct (String.eqb tg TagDive).
    + destruct (dive mfA c a kind next) as [[ca v'] o] eqn:E.
      inversion H; subst.
      destruct (follows_dive _ _ _ _ _ _ _ _ Hsame E Herr) as [-> ->].
      split; reflexivity.
    + destruct tr as [t|]; [|eapply IHnext; eauto].
      destruct Hsame as [Hs1 Hs2]. rewrite <- Hs2.
      destruct (Transform t (intParams c) (content (deref n)) pk) as [w' e'].
      destruct (isOk e').
      * eapply IHnext; eauto. split; assumption.
      * inversion H; subst. split; reflexivity.
Qed.

Lemma follows_morphField_body c c2 fv tag c1 r err :
  sameCompiled c c2 ->
  shapeMissing c fv = false ->
  morphField_body mfA c fv tag = (c1, r, err) -> err <> notCached ->
  morphField_body mfB c2 fv tag = (c2, r, err) /\ c1 = c.
Proof.
  intros Hsame Hmiss H Herr. unfold morphField_body, shapeMissing in *.
  destruct (getActualValue {| var := var_fieldValue; deref := fv |}) as [path a].
  destruct (Kind_eqb (kindOf (content (deref a))) KStruct).
  - destruct (morphStruct mfA c (deref a)) as [[ca v'] o] eqn:E.
    inversion H; subst.
    assert (Hcached : forall t fs, content (deref a) = VStruct t fs ->
                        is_Some (structsCache c !! structKey t)).
    { intros t fs Hc. rewrite Hc in Hmiss.
      destruct (structsCache c !! structKey t); [eauto|discriminate]. }
    destruct (follows_morphStruct _ _ _ _ _ _ Hsame Hcached E Herr) as [-> ->].
    split; reflexivity.
  - match type of H with
    | context [morphField_loop mfA c a ?n ?k tag] =>
        destruct (morphField_loop mfA c a n k tag) as [[[ca a'] n'] o] eqn:E
    end.
    destruct (negb (isOk o) || negb (goVar_eqb (var n') (var a'))) eqn:Hret.
    + inversion H; subst.
      destruct (follows_morphField_loop _ _ _ _ _ _ _ _ _ _ Hsame E Herr) as [-> ->].
      rewrite Hret. split; reflexivity.
    + assert (Ho : o <> notCached)
        by (destruct o; cbn in Hret; try discriminate; discriminate).
      destruct (follows_morphField_loop _ _ _ _ _ _ _ _ _ _ Hsame E Ho) as [-> ->].
      rewrite Hret.
      destruct (assignValue a' n' (kindOf (content (deref a)))) as [v' e'].
      inversion H; subst. split; reflexivity.
Qed.

End Follows.

Lemma morphFieldCached_follows (fuel : nat) :
  follows (morphFieldCached fuel) (morphField fuel).
Proof.
  induction fuel as [|fuel IH]; intros c c2 fv tg c1 r err Hsame H Herr; cbn in *.
  - inversion H; subst. split; reflexivity.
  - destruct (shapeMissing c fv) eqn:Hmiss.
    + inversion H; subst. contradiction.
    + eapply follows_morphField_body; eauto.
Qed.

Lemma Register_sameCompiled c tag otr c' :
  Register c tag otr = (c', Ok) -> sameCompiled c c'.
Proof.
  unfold Register.
  destruct (Nat.eqb (String.length (GoStrings.TrimSpace tag)) 0); [discriminate|].
  destruct (navigationalTags !! GoStrings.TrimSpace tag); [discriminate|].
  destruct otr as [tr|]; [|discriminate].
  intros H. inversion H; subst. split; reflexivity.
Qed.

(** C10, as the code has it.  Let [Register] succeed on a morpher, and let
    the traversal of a record of shape [t] meet only shapes whose
    descriptors are already cached.  Then the registration leaves the cached descriptors as they
    are, a lookup of [t] afterwards returns the descriptor compiled before,
    and processing the record gives the same values and the same error (or
    success) after the registration as before it. *)
Theorem Register_keeps_compiled_chains (fuel : nat) (c c' : cache) (tag : string)
    (tr : FieldTransformer) (e : rtype) (t : StructType) (fs : list value) :
  Register c tag (Some tr) = (c', Ok) ->
  snd (morphFieldCached (S fuel) c (mkValue (VStruct t fs) true) nilTag)
    <> notCached ->
  structsCache c' = structsCache c /\
  (forall strCache,
     structsCache c !! structKey t = Some strCache ->
     getStructCache c' t = (c', inl strCache)) /\
  exists r err,
    Struct fuel c (Some (VPtr e (Some (VStruct t fs))))
      = (c, Some (VPtr e (Some r)), err) /\
    Struct fuel c' (Some (VPtr e (Some (VStruct t fs))))
      = (c', Some (VPtr e (Some r)), err).
Proof.
  intros Hreg Hrun.
  pose proof (Register_sameCompiled _ _ _ _ Hreg) as Hsame.
  split; [symmetry; exact (proj1 Hsame)|]. split.
  - intros sc Hsc. apply getStructCache_hit. rewrite <- (proj1 Hsame). exact Hsc.
  - destruct (morphFieldCached (S fuel) c (mkValue (VStruct t fs) true) nilTag)
      as [[c1 r] err] eqn:E. cbn [snd] in Hrun.
    destruct (morphFieldCached_follows (S fuel) c c _ _ _ _ _
                (conj eq_refl eq_refl) E Hrun) as [Hc _].
    destruct (morphFieldCached_follows (S fuel) c c' _ _ _ _ _ Hsame E Hrun)
      as [Hc' _].
    assert (Hstruct : forall c2,
              morphField (S fuel) c2 (mkValue (VStruct t fs) true) nilTag
                = (c2, r, err) ->
              Struct fuel c2 (Some (VPtr e (Some (VStruct t fs))))
                = (c2, Some (VPtr e (Some r)), err)).
    { intros c2 H. cbn -[morphStruct] in H. cbn -[morphStruct].
      destruct (morphStruct (morphField fuel) c2 (mkValue (VStruct t fs) true))
        as [[cx vx] ox].
      inversion H; subst. reflexivity. }
    exists r, err. split; apply Hstruct; assumption.
Qed.

Lemma Register_keeps_compiled_chains_witness :
  exists r err,
    Struct 2 trimCached (structArg testData_trim [VString " again "])
      = (trimCached, Some (VPtr (TStruct testData_trim) (Some r)), err) /\
    Struct 2 (withTransformer trimCached TagTrim babaTransformer)
           (structArg testData_trim [VString " again "])
      = (withTransformer trimCached TagTrim babaTransformer,
         Some (VPtr (TStruct testData_trim) (Some r)), err).
Proof.
  refine (proj2 (proj2 (Register_keeps_compiled_chains 2 trimCached
            (withTransformer trimCached TagTrim babaTransformer)
            TagTrim babaTransformer (TStruct testData_trim) testData_trim
            [VString " again "] _ _))).
  - reflexivity.
  - vm_compute. discriminate.
Defined.

(** After [trim] is overridden, a record of the cached shape is still
    trimmed by the transformer its chain was compiled with. *)
Example Register_override_after_compilation :
  (let '(_, r, err) :=
     Struct 2 (withTransformer trimCached TagTrim babaTransformer)
            (structArg testData_trim [VString " again "]) in
   (r, err)) = (structArg testData_trim [VString "again"], Ok).
Proof. vm_compute. reflexivity. Qed.

(** C10 as stated fails.  The descriptor of [Outer] is cached and the one of
    [Inner] is not; [trim], used by [Outer], is then overridden.  The same
    record of shape [Outer] is processed differently before and after the
    registration: its own field is trimmed both times, by the chain compiled
    before, but the field of the [Inner] it points to, whose shape is compiled
    during the call, is trimmed before the registration and set to "baba"
    after it. *)
Lemma Register_changes_uncompiled_nested :
  (match structsCache outerCached !! structKey testData_outer with
   | Some _ => true
   | None => false
   end) = true /\
  (match structsCache outerCached !! structKey testData_inner with
   | Some _ => true
   | None => false
   end) = false /\
  Register outerCached TagTrim (Some babaTransformer)
    = (withTransformer outerCached TagTrim babaTransformer, Ok) /\
  (let '(_, r, err) := Struct 3 outerCached outerRecord in (r, err))
    = (structArg testData_outer
         [VString "a";
          VPtr (TStruct testData_inner)
               (Some (VStruct testData_inner [VString "x"]))], Ok) /\
  (let '(_, r, err) :=
     Struct 3 (withTransformer outerCached TagTrim babaTransformer) outerRecord in
   (r, err))
    = (structArg testData_outer
         [VString "a";
          VPtr (TStruct testData_inner)
               (Some (VStruct testData_inner [VString "baba"]))], Ok).
Proof. repeat split; reflexivity. Qed.

(** ** Registration and the compilation of one directive *)

Lemma navigationalTags_lookup (t : string) :
  navigationalTags !! t = if isNavigational t then Some true else None.
Proof.
  unfold navigationalTags, isNavigational.
  destruct (String.eqb_spec t TagDive) as [->|H1]; [reflexivity|].
  rewrite lookup_insert_ne by congruence.
  destruct (String.eqb_spec t TagKeys) as [->|H2]; [reflexivity|].
  rewrite lookup_insert_ne by congruence.
  destruct (String.eqb_spec t TagExit) as [->|H3]; [reflexivity|].
  rewrite lookup_insert_ne by congruence.
  destruct (String.eqb_spec t TagIgnore) as [->|H4]; [reflexivity|].
  rewrite lookup_insert_ne by congruence. reflexivity.
Qed.

(** X3.  [Register] succeeds exactly when the name, trimmed of white space,
    is not empty, is none of the reserved [dive], [keys], [exit] and [-],
    and the transformer is not nil.  On success the registry maps the trimmed
    name to the transformer, every other name is as before, and the tag name,
    the descriptors and the parameters are untouched; on failure the state is
    unchanged. *)
Theorem Register_spec (c : cache) (tag : string) (transformer : option FieldTransformer) :
  let name := GoStrings.TrimSpace tag in
  let '(c', err) := Register c tag transformer in
  (err = Ok <-> name <> "" /\ isNavigational name = false /\ transformer <> None) /\
  (err <> Ok -> c' = c) /\
  (err = Ok ->
     transformers c' !! name = transformer /\
     (forall other, other <> name -> transformers c' !! other = transformers c !! other) /\
     tagName c' = tagName c /\ structsCache c' = structsCache c /\
     intParams c' = intParams c).
Proof.
  cbv zeta. unfold Register. rewrite navigationalTags_lookup.
  destruct (GoStrings.TrimSpace tag) as [|a s] eqn:Hname; cbn [String.length Nat.eqb].
  { split; [|split]; [split|..]; try discriminate; try reflexivity.
    intros (H & _); congruence. }
  destruct (isNavigational (String a s)) eqn:Hnav.
  { split; [|split]; [split|..]; try discriminate; try reflexivity.
    intros (_ & H & _); discriminate. }
  destruct transformer as [tr|].
  - split; [|split].
    + split; [intros _|reflexivity]. repeat split; congruence.
    + congruence.
    + intros _. cbn [transformers tagName structsCache intParams withTransformer].
      rewrite lookup_insert_eq. repeat split.
      intros other Hne. apply lookup_insert_ne. congruence.
  - split; [|split]; [split|..]; try discriminate; try reflexivity.
    intros (_ & _ & H); congruence.
Qed.

Lemma IndexRune_append (t p : string) (r : ascii) :
  GoStrings.IndexRune t r = None ->
  GoStrings.IndexRune (t ++ String r p) r = Some (String.length t).
Proof.
  induction t as [|a t IH]; intros H.
  - change (GoStrings.IndexRune (String r p) r = Some 0%nat).
    cbn [GoStrings.IndexRune]. rewrite Ascii.eqb_refl. reflexivity.
  - change (GoStrings.IndexRune (String a (t ++ String r p)) r
            = Some (S (String.length t))).
    cbn [GoStrings.IndexRune] in *.
    destruct (Ascii.eqb a r); [discriminate|].
    destruct (GoStrings.IndexRune t r); [discriminate|].
    rewrite IH by reflexivity. reflexivity.
Qed.

Lemma substring_whole (s : string) : substring 0 (String.length s) s = s.
Proof. induction s as [|a s IH]; cbn; [reflexivity|]. rewrite IH. reflexivity. Qed.

Lemma substring_append_l (t s : string) : substring 0 (String.length t) (t ++ s) = t.
Proof.
  induction t as [|a t IH]; [destruct s; reflexivity|].
  change (String a t ++ s)%string with (String a (t ++ s)%string).
  cbn [String.length substring]. rewrite IH. reflexivity.
Qed.

Lemma substring_append_r (t s : string) (n m : nat) :
  substring (String.length t + n) m (t ++ s) = substring n m s.
Proof.
  induction t as [|a t IH]; [reflexivity|].
  change (String a t ++ s)%string with (String a (t ++ s)%string).
  cbn [String.length Nat.add substring]. exact IH.
Qed.

Lemma length_append (t s : string) :
  String.length (t ++ s) = (String.length t + String.length s)%nat.
Proof.
  induction t as [|a t IH]; [reflexivity|].
  change (String a t ++ s)%string with (String a (t ++ s)%string).
  cbn [String.length Nat.add]. rewrite IH. reflexivity.
Qed.

Lemma buildTagCache_split (c : cache) (t p pk : string) :
  GoStrings.IndexRune t ParamsSign = None -> t <> "" ->
  buildTagCache c (t ++ String ParamsSign p) pk =
  match transformers c !! t with
  | Some tr => compileWith c t p pk tr
  | None =>
      if negb (default false (navigationalTags !! t))
      then (c, inr (Err (newErrorf ErrUnknownTagFmt [t])))
      else (c, inl (mkTag t p None None nilTag nilTag))
  end.
Proof.
  intros Hno Hne. unfold buildTagCache, compileWith.
  rewrite (IndexRune_append t p ParamsSign Hno).
  destruct t as [|a t]; [congruence|].
  cbn [String.length].
  change (substring 0 (S (String.length t)) (String a t ++ String ParamsSign p))
    with (substring 0 (String.length (String a t)) (String a t ++ String ParamsSign p)).
  rewrite substring_append_l.
  replace (substring (S (S (String.length t)))
             (String.length (String a t ++ String ParamsSign p) - S (S (String.length t)))
             (String a t ++ String ParamsSign p)) with p.
  2:{ rewrite length_append. cbn [String.length].
      replace (S (String.length t) + S (String.length p) - S (S (String.length t)))%nat
        with (String.length p) by lia.
      replace (S (S (String.length t))) with (String.length (String a t) + 1)%nat
        by (cbn; lia).
      rewrite substring_append_r. cbn [substring]. symmetry. apply substring_whole. }
  destruct (transformers c !! String a t) as [tr|]; cbn [negb andb]; [reflexivity|].
  destruct (default false (navigationalTags !! String a t)); reflexivity.
Qed.

Lemma buildTagCache_plain (c : cache) (t pk : string) :
  GoStrings.IndexRune t ParamsSign = None ->
  buildTagCache c t pk =
  match transformers c !! t with
  | Some tr => compileWith c t "" pk tr
  | None =>
      if negb (default false (navigationalTags !! t))
      then (c, inr (Err (newErrorf ErrUnknownTagFmt [t])))
      else (c, inl (mkTag t "" None None nilTag nilTag))
  end.
Proof.
  intros Hno. unfold buildTagCache, compileWith. rewrite Hno.
  destruct (transformers c !! t) as [tr|]; cbn [negb andb]; [reflexivity|].
  destruct (default false (navigationalTags !! t)); reflexivity.
Qed.

(** X4.  For a registered directive name [t] without a parameter sign:
    [t=p] is split at its first [=], the transformer's [Cache] is run on the
    parameters [p] under the field's key, and the node carries the name, [p]
    and the transformer; a bare [t] is compiled with empty parameters.  A
    failing [Cache] gives its error and no node. *)
Theorem buildTagCache_registered (c : cache) (t p pk : string) (tr : FieldTransformer) :
  transformers c !! t = Some tr ->
  GoStrings.IndexRune t ParamsSign = None ->
  t <> "" ->
  buildTagCache c (t ++ String ParamsSign p) pk = compileWith c t p pk tr /\
  buildTagCache c t pk = compileWith c t "" pk tr.
Proof.
  intros Htr Hno Hne. rewrite buildTagCache_split, buildTagCache_plain by assumption.
  rewrite Htr. split; reflexivity.
Qed.

Lemma buildTagCache_registered_witness :
  buildTagCache New "truncate=5" "main.T.0"
    = (withParams New (<[TagTruncate := <["main.T.0" := 5%Z]> ∅]> ∅),
       inl (mkTag TagTruncate "5" None (Some (truncateTransformer TagTruncate))
                  nilTag nilTag)) /\
  buildTagCache New "truncate" "main.T.0"
    = (New, inr (Err (newErrorf ErrInvalidParameters [TagPrecision; ""]))).
Proof.
  exact (buildTagCache_registered New TagTruncate "5" "main.T.0"
           (truncateTransformer TagTruncate) eq_refl eq_refl ltac:(discriminate)).
Defined.

(** X5.  A directive whose name is neither registered nor reserved fails
    with [ErrUnknownTagFmt] naming it, with or without parameters, and leaves
    the state unchanged.  A directive that starts with the parameter sign is
    not split: it is looked up whole. *)
Theorem buildTagCache_unknown (c : cache) (t p pk : string) :
  transformers c !! t = None ->
  isNavigational t = false ->
  (GoStrings.IndexRune t ParamsSign = None ->
     buildTagCache c t pk = (c, inr (Err (newErrorf ErrUnknownTagFmt [t]))) /\
     (t <> "" ->
      buildTagCache c (t ++ String ParamsSign p) pk
        = (c, inr (Err (newErrorf ErrUnknownTagFmt [t]))))) /\
  (transformers c !! String ParamsSign p = None ->
     buildTagCache c (String ParamsSign p) pk
       = (c, inr (Err (newErrorf ErrUnknownTagFmt [String ParamsSign p])))).
Proof.
  intros Htr Hnav. split.
  - intros Hno. rewrite buildTagCache_plain by assumption.
    rewrite Htr, navigationalTags_lookup, Hnav. split; [reflexivity|].
    intros Hne. rewrite buildTagCache_split by assumption.
    rewrite Htr, navigationalTags_lookup, Hnav. reflexivity.
  - intros Hp. unfold buildTagCache. cbn [GoStrings.IndexRune].
    rewrite Ascii.eqb_refl, Hp, navigationalTags_lookup. reflexivity.
Qed.

Lemma buildTagCache_unknown_witness :
  buildTagCache New "baba=1" "morph.testData.0"
    = (New, inr (Err (newErrorf ErrUnknownTagFmt ["baba"]))) /\
  buildTagCache New "=5" "morph.testData.0"
    = (New, inr (Err (newErrorf ErrUnknownTagFmt ["=5"]))).
Proof.
  destruct (buildTagCache_unknown New "baba" "5" "morph.testData.0" eq_refl eq_refl)
    as [H1 H2].
  split; [|exact (H2 eq_refl)].
  destruct (buildTagCache_unknown New "baba" "1" "morph.testData.0" eq_refl eq_refl)
    as [H3 _].
  apply (proj2 (H3 eq_refl)). discriminate.
Defined.

Lemma sameCompiled_Struct (fuel : nat) (c c' : cache) (e : rtype) (t : StructType)
    (fs : list value) :
  sameCompiled c c' ->
  snd (morphFieldCached (S fuel) c (mkValue (VStruct t fs) true) nilTag)
    <> notCached ->
  exists r err,
    Struct fuel c (Some (VPtr e (Some (VStruct t fs))))
      = (c, Some (VPtr e (Some r)), err) /\
    Struct fuel c' (Some (VPtr e (Some (VStruct t fs))))
      = (c', Some (VPtr e (Some r)), err).
Proof.
  intros Hsame Hrun.
  destruct (morphFieldCached (S fuel) c (mkValue (VStruct t fs) true) nilTag)
    as [[c1 r] err] eqn:E. cbn [snd] in Hrun.
  destruct (morphFieldCached_follows (S fuel) c c _ _ _ _ _
              (conj eq_refl eq_refl) E Hrun) as [Hc _].
  destruct (morphFieldCached_follows (S fuel) c c' _ _ _ _ _ Hsame E Hrun)
    as [Hc' _].
  exists r, err.
  cbn -[morphStruct] in Hc, Hc'. cbn -[morphStruct].
  destruct (morphStruct (morphField fuel) c (mkValue (VStruct t fs) true))
    as [[cx vx] ox].
  destruct (morphStruct (morphField fuel) c' (mkValue (VStruct t fs) true))
    as [[cy vy] oy].
  inversion Hc; inversion Hc'; subst. split; reflexivity.
Qed.

(** X6.  [WithTag] with a name that is not blank replaces the tag name by
    the trimmed name and nothing else.  A record whose traversal meets only
    shapes already cached is processed after the change exactly as before
    it: the cached descriptors, read under the old tag name, stay in use. *)
Theorem WithTag_keeps_compiled_chains (fuel : nat) (c c' : cache) (tag : string)
    (e : rtype) (t : StructType) (fs : list value) :
  WithTag c tag = (c', Ok) ->
  snd (morphFieldCached (S fuel) c (mkValue (VStruct t fs) true) nilTag)
    <> notCached ->
  tagName c' = GoStrings.TrimSpace tag /\
  transformers c' = transformers c /\
  structsCache c' = structsCache c /\
  exists r err,
    Struct fuel c (Some (VPtr e (Some (VStruct t fs))))
      = (c, Some (VPtr e (Some r)), err) /\
    Struct fuel c' (Some (VPtr e (Some (VStruct t fs))))
      = (c', Some (VPtr e (Some r)), err).
Proof.
  intros Hwith Hrun. unfold WithTag in Hwith.
  destruct (Nat.eqb (String.length (GoStrings.TrimSpace tag)) 0); [discriminate|].
  injection Hwith as <-. cbn [tagName transformers structsCache].
  repeat (split; [reflexivity|]).
  apply sameCompiled_Struct; [split; reflexivity|exact Hrun].
Qed.

Lemma WithTag_keeps_compiled_chains_witness :
  exists r err,
    Struct 2 trimCached (structArg testData_trim [VString " again "])
      = (trimCached, Some (VPtr (TStruct testData_trim) (Some r)), err) /\
    Struct 2 (fst (WithTag trimCached " json "))
           (structArg testData_trim [VString " again "])
      = (fst (WithTag trimCached " json "),
         Some (VPtr (TStruct testData_trim) (Some r)), err).
Proof.
  refine (proj2 (proj2 (proj2 (WithTag_keeps_compiled_chains 2 trimCached
            (fst (WithTag trimCached " json ")) " json "
            (TStruct testData_trim) testData_trim [VString " again "] _ _)))).
  - reflexivity.
  - vm_compute. discriminate.
Defined.

(** ** What the descriptor builder produces *)

Lemma onlyParams_refl c : onlyParams c c.
Proof. repeat split. Qed.

Lemma onlyParams_trans c1 c2 c3 :
  onlyParams c1 c2 -> onlyParams c2 c3 -> onlyParams c1 c3.
Proof. intros (?&?&?) (?&?&?). repeat split; congruence. Qed.

Lemma buildTagCache_onlyParams c t pk c1 r :
  buildTagCache c t pk = (c1, r) -> onlyParams c c1.
Proof.
  unfold buildTagCache.
  destruct (GoStrings.IndexRune t ParamsSign) as [[|i]|];
    match goal with
    | |- context [transformers c !! ?tg] =>
        destruct (transformers c !! tg) as [tr|] eqn:Htr
    end; cbn;
    repeat match goal with
    | |- context [if ?b then _ else _] => destruct b
    | |- context [Cache ?t ?a ?b ?d] => destruct (Cache t a b d) as [? []]
    end; intros H; inversion H; subst; repeat split.
Qed.

Lemma buildTags_onlyParams (tokens : list string) :
  (forall c pk c1 r, buildTagsFrom c tokens pk = (c1, r) -> onlyParams c c1) /\
  (forall c pk c1 r, buildKeysFrom c tokens pk = (c1, r) -> onlyParams c c1).
Proof.
  induction tokens as [|t rest [IHt IHk]]; split; intros c pk c1 r H.
  - inversion H; subst. apply onlyParams_refl.
  - inversion H; subst. apply onlyParams_refl.
  - cbn [buildTagsFrom] in H.
    destruct (buildTagCache c t pk) as [c2 [n|e]] eqn:Hn;
      pose proof (buildTagCache_onlyParams _ _ _ _ _ Hn) as H2.
    2:{ inversion H; subst. exact H2. }
    destruct (String.eqb t TagKeys && negb (Nat.eqb (List.length rest) 0)).
    + destruct (buildKeysFrom c2 rest pk) as [c3 [[kc o]|e]] eqn:Hk;
        pose proof (IHk _ _ _ _ Hk); inversion H; subst;
        eapply onlyParams_trans; eauto.
    + destruct (buildTagsFrom c2 rest pk) as [c3 [o|e]] eqn:Ht;
        pose proof (IHt _ _ _ _ Ht); inversion H; subst;
        eapply onlyParams_trans; eauto.
  - cbn [buildKeysFrom] in H. destruct (String.eqb t TagExit).
    + destruct (buildTagsFrom c rest pk) as [c3 [o|e]] eqn:Ht;
        pose proof (IHt _ _ _ _ Ht); inversion H; subst; assumption.
    + destruct (buildTagCache c t pk) as [c2 [n|e]] eqn:Hn;
        pose proof (buildTagCache_onlyParams _ _ _ _ _ Hn) as H2.
      2:{ inversion H; subst. exact H2. }
      destruct (buildKeysFrom c2 rest pk) as [c3 [[kc o]|e]] eqn:Hk;
        pose proof (IHk _ _ _ _ Hk); inversion H; subst;
        eapply onlyParams_trans; eauto.
Qed.

Lemma buildTags_keyless (tokens : list string) :
  (forall c pk c1 chain, buildTagsFrom c tokens pk = (c1, inl chain) ->
     keyless chain = true) /\
  (forall c pk c1 kc outer, buildKeysFrom c tokens pk = (c1, inl (kc, outer)) ->
     keyless kc = true /\ keyless outer = true).
Proof.
  induction tokens as [|t rest [IHt IHk]]; split.
  - intros c pk c1 chain H. inversion H; subst. reflexivity.
  - intros c pk c1 kc outer H. inversion H; subst. split; reflexivity.
  - intros c pk c1 chain H. cbn [buildTagsFrom] in H.
    destruct (buildTagCache c t pk) as [c2 [n|e]] eqn:Hn; [|discriminate].
    destruct (buildTagCache_node _ _ _ _ _ Hn) as (tg & ps & tr & ->).
    destruct (String.eqb t TagKeys && negb (Nat.eqb (List.length rest) 0)).
    + destruct (buildKeysFrom c2 rest pk) as [c3 [[kc o]|e]] eqn:Hk; [|discriminate].
      destruct (IHk _ _ _ _ _ Hk) as [Hkc Ho]. inversion H; subst.
      cbn. rewrite Hkc, Ho. reflexivity.
    + destruct (buildTagsFrom c2 rest pk) as [c3 [o|e]] eqn:Ht; [|discriminate].
      pose proof (IHt _ _ _ _ Ht) as Ho. inversion H; subst.
      cbn. rewrite Ho. reflexivity.
  - intros c pk c1 kc outer H. cbn [buildKeysFrom] in H.
    destruct (String.eqb t TagExit).
    + destruct (buildTagsFrom c rest pk) as [c3 [o|e]] eqn:Ht; [|discriminate].
      pose proof (IHt _ _ _ _ Ht) as Ho. inversion H; subst. split; [reflexivity|exact Ho].
    + destruct (buildTagCache c t pk) as [c2 [n|e]] eqn:Hn; [|discriminate].
      destruct (buildTagCache_node _ _ _ _ _ Hn) as (tg & ps & tr & ->).
      destruct (buildKeysFrom c2 rest pk) as [c3 [[kc' o]|e]] eqn:Hk; [|discriminate].
      destruct (IHk _ _ _ _ _ Hk) as [Hkc Ho]. inversion H; subst.
      cbn. rewrite Hkc. split; [reflexivity|exact Ho].
Qed.

Lemma setParamsKey_headKeyed typeString i chain :
  keyless chain = true ->
  headKeyed typeString
    {| index := i; tags := setParamsKey chain (getParamsKey typeString i) |}.
Proof.
  destruct chain as [|t p k tr n kc]; cbn; intros H.
  - repeat split. left. reflexivity.
  - apply andb_true_iff in H as [H Hkc]. apply andb_true_iff in H as [_ Hn].
    repeat split; auto.
Qed.

Lemma buildFieldsFrom_spec (typeString : string) (decls : list (StructField * rtype)) :
  forall c i c1 r,
    buildFieldsFrom c typeString decls i = (c1, r) ->
    onlyParams c c1 /\
    forall fcs, r = inl fcs ->
      List.map index fcs = eligible (tagName c) decls i /\
      List.Forall (headKeyed typeString) fcs.
Proof.
  induction decls as [|[field ty] rest IH]; intros c i c1 r H.
  { inversion H; subst. split; [apply onlyParams_refl|].
    intros fcs [= <-]. split; [reflexivity|constructor]. }
  cbn [buildFieldsFrom eligible] in *.
  destruct (IsExported field); cbn [negb andb] in *; [|apply IH; exact H].
  destruct (String.eqb (Tag_Get (Tag field) (tagName c)) TagIgnore);
    cbn [negb] in *; [apply IH; exact H|].
  destruct (Nat.ltb 0 (String.length (Tag_Get (Tag field) (tagName c)))).
  - destruct (buildTagsCache c (Tag_Get (Tag field) (tagName c))
                (getParamsKey typeString i)) as [c2 [chain|e]] eqn:Hb.
    + unfold buildTagsCache in Hb.
      pose proof (proj1 (buildTags_onlyParams _) _ _ _ _ Hb) as Hop.
      pose proof (proj1 (buildTags_keyless _) _ _ _ _ Hb) as Hkl.
      destruct (buildFieldsFrom c2 typeString rest (S i)) as [c3 [more|e]] eqn:Hr;
        destruct (IH _ _ _ _ Hr) as [Hop' Hmore]; inversion H; subst;
        (split; [eapply onlyParams_trans; eauto|]); intros fcs [= <-].
      destruct (Hmore more eq_refl) as [Hidx Hall].
      destruct Hop as (Htn & _). rewrite Htn in Hidx.
      cbn [List.map index]. rewrite Hidx. split; [reflexivity|].
      constructor; [apply setParamsKey_headKeyed; exact Hkl|exact Hall].
    + unfold buildTagsCache in Hb.
      pose proof (proj1 (buildTags_onlyParams _) _ _ _ _ Hb) as Hop.
      inversion H; subst. split; [exact Hop|]. intros fcs [=].
  - destruct (buildFieldsFrom c typeString rest (S i)) as [c3 [more|e]] eqn:Hr;
      destruct (IH _ _ _ _ Hr) as [Hop' Hmore]; inversion H; subst;
      (split; [exact Hop'|]); intros fcs [= <-].
    destruct (Hmore more eq_refl) as [Hidx Hall].
    cbn [List.map index]. rewrite Hidx. split; [reflexivity|].
    constructor; [|exact Hall]. repeat split. left. reflexivity.
Qed.

Lemma eligible_bounds (tn : string) (decls : list (StructField * rtype)) :
  forall i, List.Forall (fun k => (i <= k < i + List.length decls)%nat)
              (eligible tn decls i) /\
            ForallOrdPairs lt (eligible tn decls i).
Proof.
  induction decls as [|[field ty] rest IH]; intros i; cbn [eligible List.length].
  { split; constructor. }
  destruct (IH (S i)) as [Hb Hs].
  assert (Hb' : List.Forall (fun k => (i <= k < i + S (List.length rest))%nat)
                  (eligible tn rest (S i))).
  { eapply List.Forall_impl; [|exact Hb]. cbn. intros; lia. }
  destruct (IsExported field && negb (String.eqb (Tag_Get (Tag field) tn) TagIgnore)).
  - split; [constructor; [lia|exact Hb']|].
    constructor; [|exact Hs].
    eapply List.Forall_impl; [|exact Hb]. cbn. intros; lia.
  - split; assumption.
Qed.

(** X7.  The descriptor [buildStructCache] builds lists the fields that
    are exported and whose annotation is not the ignore directive, by their
    indexes in declaration order: the indexes are those of the eligible
    fields, ascending and within the number of fields, and [fieldsLength]
    is their number. *)
Theorem buildStructCache_descriptor (c c' : cache) (t : StructType) (d : structCache) :
  buildStructCache c t = (c', inl d) ->
  fieldsLength d = List.length (fields d) /\
  List.map index (fields d) = eligible (tagName c) (Fields t) 0 /\
  List.Forall (fun i => (i < List.length (Fields t))%nat) (List.map index (fields d)) /\
  ForallOrdPairs lt (List.map index (fields d)).
Proof.
  unfold buildStructCache.
  destruct (buildFieldsFrom c (TypeString t) (Fields t) 0) as [c1 [fcs|e]] eqn:Hb;
    [|discriminate].
  intros [= <- <-]. cbn [fieldsLength fields].
  destruct (buildFieldsFrom_spec _ _ _ _ _ _ Hb) as [_ Hspec].
  destruct (Hspec fcs eq_refl) as [Hidx _]. rewrite Hidx.
  destruct (eligible_bounds (tagName c) (Fields t) 0) as [Hb' Hs].
  repeat split; try assumption.
  eapply List.Forall_impl; [|exact Hb']. cbn. intros; lia.
Qed.

Lemma buildStructCache_descriptor_witness :
  List.map index (fields mixedDescriptor) = [0; 3; 4]%nat.
Proof.
  refine (proj1 (proj2 (buildStructCache_descriptor New
            (fst (buildStructCache New testData_mixed)) testData_mixed
            mixedDescriptor _))).
  reflexivity.
Defined.

(** X8.  In every field descriptor [buildStructCache] builds, the first
    node of the chain carries the parameter key of the field
    ([getParamsKey] of the type rendering and the index), and no other node,
    along [next] or in a key chain, carries a key. *)
Theorem buildStructCache_head_key (c c' : cache) (t : StructType) (d : structCache) :
  buildStructCache c t = (c', inl d) ->
  List.Forall (fun fc =>
                 keyless (nextOf (tags fc)) = true /\
                 keyless (keysChainOf (tags fc)) = true /\
                 (tags fc = nilTag \/
                  paramsKeyOf (tags fc)
                    = Some (getParamsKey (TypeString t) (index fc))))
              (fields d).
Proof.
  unfold buildStructCache.
  destruct (buildFieldsFrom c (TypeString t) (Fields t) 0) as [c1 [fcs|e]] eqn:Hb;
    [|discriminate].
  intros [= <- <-]. cbn [fields].
  destruct (buildFieldsFrom_spec _ _ _ _ _ _ Hb) as [_ Hspec].
  exact (proj2 (Hspec fcs eq_refl)).
Qed.

Lemma buildStructCache_head_key_witness :
  List.Forall (fun fc =>
                 keyless (nextOf (tags fc)) = true /\
                 keyless (keysChainOf (tags fc)) = true /\
                 (tags fc = nilTag \/
                  paramsKeyOf (tags fc)
                    = Some (getParamsKey "morph.mixed" (index fc))))
              (fields mixedDescriptor).
Proof.
  refine (buildStructCache_head_key New
            (fst (buildStructCache New testData_mixed)) testData_mixed
            mixedDescriptor _).
  reflexivity.
Defined.

Lemma morphField_loop_reaches (mf : morphFieldT) (P : value -> Prop)
    (kind : Kind) (last : tagChainCache) (pre : tagChainCache) :
  forall c a nv,
    keeps P pre -> P (content (deref nv)) ->
    exists a' nv',
      P (content (deref nv')) /\
      morphField_loop mf c a nv kind (appendChain pre last)
        = morphField_loop mf c a' nv' kind last.
Proof.
  induction pre as [|tg ps k tr n IHn kc _]; intros c a nv Hpre HP.
  { exists a, nv. split; [exact HP|reflexivity]. }
  cbn [keeps] in Hpre. destruct Hpre as (Hdive & Htr & Hn).
  cbn [appendChain morphField_loop]. rewrite Hdive.
  destruct tr as [f|].
  - destruct (Htr (intParams c) _ HP) as (v' & -> & HP').
    cbn [isOk]. apply IHn; [exact Hn|exact HP'].
  - apply IHn; [exact Hn|exact HP].
Qed.

(** X9.  A [truncate] or [precision] node without a parameter key, as
    every node after the first of a compiled chain is, panics with a nil
    dereference when the chain reaches it with a value of its kind: for
    [truncate] after directives that turn strings into strings, for
    [precision] after directives that keep floats. *)
Theorem keyless_parameter_panics (mf : morphFieldT) (c : cache)
    (a nv : ValuePtr) (kind : Kind) (pre : tagChainCache)
    (tg ps inst : string) (n kc : tagChainCache) :
  String.eqb tg TagDive = false ->
  (keeps (fun v => exists s, v = VString s) pre ->
   (exists s, content (deref nv) = VString s) ->
   snd (morphField_loop mf c a nv kind
          (appendChain pre
             (mkTag tg ps None (Some (truncateTransformer inst)) n kc)))
     = Panic nilDereference) /\
  (keeps (fun v => isFloat v = true) pre ->
   isFloat (content (deref nv)) = true ->
   snd (morphField_loop mf c a nv kind
          (appendChain pre
             (mkTag tg ps None (Some (precisionTransformer inst)) n kc)))
     = Panic nilDereference).
Proof.
  intros Hdive. split; intros Hpre HP.
  - destruct (morphField_loop_reaches mf _ kind
                (mkTag tg ps None (Some (truncateTransformer inst)) n kc)
                pre c a nv Hpre HP) as (a' & nv' & (s & Hs) & ->).
    cbn [morphField_loop]. rewrite Hdive.
    cbn [Transform truncateTransformer]. rewrite Hs. reflexivity.
  - destruct (morphField_loop_reaches mf _ kind
                (mkTag tg ps None (Some (precisionTransformer inst)) n kc)
                pre c a nv Hpre HP) as (a' & nv' & Hf & ->).
    cbn [morphField_loop]. rewrite Hdive.
    cbn [Transform precisionTransformer]. rewrite Hf. reflexivity.
Qed.

Lemma keyless_parameter_panics_witness :
  snd (morphField_loop (morphField 0) New
         {| var := var_fieldValue; deref := mkValue (VString " data ") true |}
         {| var := var_newValue; deref := mkValue (VString " data ") true |}
         KString
         (appendChain trimNode
            (mkTag TagTruncate "5" None (Some (truncateTransformer TagTruncate))
                   nilTag nilTag)))
    = Panic nilDereference.
Proof.
  refine (proj1 (keyless_parameter_panics (morphField 0) New
            {| var := var_fieldValue; deref := mkValue (VString " data ") true |}
            {| var := var_newValue; deref := mkValue (VString " data ") true |}
            KString trimNode TagTruncate "5" TagTruncate nilTag nilTag _) _ _).
  - reflexivity.
  - cbn. repeat split. intros store v [s ->]. eexists. split; [reflexivity|].
    eexists. reflexivity.
  - eexists. reflexivity.
Defined.

Example Struct_later_truncate_panics (s : string) :
  (let '(_, r, err) := Struct 2 New (structArg testData_trimTruncate [VString s]) in
   (r, err))
    = (structArg testData_trimTruncate [VString (GoStrings.TrimSpace s)],
       Panic nilDereference).
Proof. reflexivity. Qed.

Lemma buildStructCache_onlyParams c t c1 r :
  buildStructCache c t = (c1, r) -> onlyParams c c1.
Proof.
  unfold buildStructCache.
  destruct (buildFieldsFrom c (TypeString t) (Fields t) 0) as [c2 [fcs|e]] eqn:Hb;
    intros H; inversion H; subst;
    exact (proj1 (buildFieldsFrom_spec _ _ _ _ _ _ Hb)).
Qed.

(** X10.  [getStructCache] changes neither the tag name nor the registry.
    When it returns a descriptor, the descriptor is stored under the shape's
    key, the other keys are as before, and a second lookup returns it
    without changing the state.  When the build fails, nothing is cached. *)
Theorem getStructCache_caches (c c' : cache) (t : StructType)
    (r : structCache + outcome) :
  getStructCache c t = (c', r) ->
  tagName c' = tagName c /\ transformers c' = transformers c /\
  (forall d, r = inl d ->
     structsCache c' !! structKey t = Some d /\
     getStructCache c' t = (c', inl d) /\
     (forall k, k <> structKey t -> structsCache c' !! k = structsCache c !! k)) /\
  (forall err, r = inr err -> structsCache c' = structsCache c).
Proof.
  unfold getStructCache at 1.
  destruct (structsCache c !! structKey t) as [d0|] eqn:Hhit.
  - intros [= <- <-].
    split; [reflexivity|]. split; [reflexivity|]. split; [|discriminate].
    intros d [= <-]. split; [exact Hhit|]. split; [|reflexivity].
    unfold getStructCache. rewrite Hhit. reflexivity.
  - destruct (buildStructCache c t) as [c1 [d1|e]] eqn:Hb;
      destruct (buildStructCache_onlyParams _ _ _ _ Hb) as (Htn & Htr & Hsc);
      intros [= <- <-]; cbn [tagName transformers structsCache withStruct];
      (split; [exact Htn|]); (split; [exact Htr|]); (split; [|try discriminate]).
    + intros d [= <-]. split; [apply lookup_insert_eq|]. split.
      * unfold getStructCache. cbn [structsCache withStruct].
        rewrite lookup_insert_eq. reflexivity.
      * intros k Hk. rewrite lookup_insert_ne by congruence. rewrite Hsc. reflexivity.
    + discriminate.
    + intros err _. exact Hsc.
Qed.

Lemma getStructCache_caches_witness :
  structsCache (fst (getStructCache New testData_unknown)) = structsCache New /\
  snd (getStructCache New testData_unknown)
    = inr (Err (newErrorf ErrUnknownTagFmt ["baba"])).
Proof.
  split; [|reflexivity].
  refine (proj2 (proj2 (proj2 (getStructCache_caches New
            (fst (getStructCache New testData_unknown)) testData_unknown
            (snd (getStructCache New testData_unknown)) _))) _ _);
    reflexivity.
Defined.

(** ** What a traversal leaves of the state *)

Lemma grows_refl c : grows c c.
Proof. repeat split; auto. Qed.

Lemma grows_trans c1 c2 c3 : grows c1 c2 -> grows c2 c3 -> grows c1 c3.
Proof.
  intros (Ha & Hb & H12) (Ha' & Hb' & H23).
  split; [congruence|]. split; [congruence|].
  intros k d Hk. apply H23, H12, Hk.
Qed.

Lemma getStructCache_grows c t c1 r :
  getStructCache c t = (c1, r) -> grows c c1.
Proof.
  unfold getStructCache.
  destruct (structsCache c !! structKey t) as [d0|] eqn:Hhit.
  - intros [= <- <-]. apply grows_refl.
  - destruct (buildStructCache c t) as [c2 [d1|e]] eqn:Hb;
      destruct (buildStructCache_onlyParams _ _ _ _ Hb) as (Htn & Htr & Hsc);
      intros [= <- <-]; cbn [tagName transformers structsCache withStruct];
      (split; [exact Htn|]); (split; [exact Htr|]);
      cbn [structsCache withStruct]; intros k d Hk.
    + destruct (String.eqb_spec (structKey t) k) as [<-|Hne]; [congruence|].
      rewrite lookup_insert_ne by exact Hne. rewrite Hsc. exact Hk.
    + rewrite Hsc. exact Hk.
Qed.

Section Grows.

Variable mf : morphFieldT.
Hypothesis mf_grows : forall c fv tg c1 r err, mf c fv tg = (c1, r, err) -> grows c c1.

Lemma morphStruct_loop_grows addr fcs :
  forall c n fs c1 fs1 err,
    morphStruct_loop mf c addr fcs n fs = (c1, fs1, err) -> grows c c1.
Proof.
  induction fcs as [|f fcs IH]; intros c n fs c1 fs1 err H;
    destruct n as [|n]; cbn [morphStruct_loop] in H;
    try (inversion H; subst; apply grows_refl).
  destruct (fs !! index f) as [x|]; [|inversion H; subst; apply grows_refl].
  destruct (mf c (mkValue x addr) (tags f)) as [[c2 x'] o] eqn:E.
  pose proof (mf_grows _ _ _ _ _ _ E) as Hg.
  destruct o; try (inversion H; subst; exact Hg).
  eapply grows_trans; [exact Hg|]. eapply IH. exact H.
Qed.

Lemma morphStruct_grows c sv c1 v err :
  morphStruct mf c sv = (c1, v, err) -> grows c c1.
Proof.
  unfold morphStruct.
  destruct (content sv) as [k z|s|e o|o|t fs|its|its|m];
    try (intros H; inversion H; subst; apply grows_refl).
  destruct (getStructCache c t) as [c2 [d|e]] eqn:Hg;
    pose proof (getStructCache_grows _ _ _ _ Hg) as Hgr.
  - destruct (morphStruct_loop mf c2 (CanAddr sv) (fields d) (fieldsLength d) fs)
      as [[c3 fs'] o] eqn:Hl.
    intros H; inversion H; subst.
    eapply grows_trans; [exact Hgr|]. eapply morphStruct_loop_grows. exact Hl.
  - intros H; inversion H; subst. exact Hgr.
Qed.

Lemma morphCollection_loop_grows addr tags items :
  forall c c1 items1 err,
    morphCollection_loop mf c addr tags items = (c1, items1, err) -> grows c c1.
Proof.
  induction items as [|x rest IH]; intros c c1 items1 err H; cbn [morphCollection_loop] in H.
  { inversion H; subst. apply grows_refl. }
  destruct (mf c (mkValue x addr) tags) as [[c2 x'] o] eqn:E.
  pose proof (mf_grows _ _ _ _ _ _ E) as Hg.
  destruct o; try (inversion H; subst; exact Hg).
  destruct (morphCollection_loop mf c2 addr tags rest) as [[c3 rest'] o] eqn:Hl.
  inversion H; subst. eapply grows_trans; [exact Hg|]. eapply IH. exact Hl.
Qed.

Lemma morphMap_loop_grows smk tags keys :
  forall c m c1 m1 err,
    morphMap_loop mf c smk tags keys m = (c1, m1, err) -> grows c c1.
Proof.
  induction keys as [|key rest IH]; intros c m c1 m1 err H; cbn [morphMap_loop] in H.
  { inversion H; subst. apply grows_refl. }
  destruct (MapIndex m key) as [elem|]; [|inversion H; subst; apply grows_refl].
  destruct smk.
  - unfold morphMapKey in H.
    destruct (mf c (mkValue key true) (keysChainOf tags)) as [[c2 key'] o] eqn:E.
    pose proof (mf_grows _ _ _ _ _ _ E) as Hg.
    destruct o; try (inversion H; subst; exact Hg).
    destruct (mf c2 (mkValue elem true) (nextOf tags)) as [[c3 elem'] o] eqn:E2.
    pose proof (mf_grows _ _ _ _ _ _ E2) as Hg2.
    destruct o; try (inversion H; subst; eapply grows_trans; eassumption).
    eapply grows_trans; [exact Hg|]. eapply grows_trans; [exact Hg2|].
    eapply IH. exact H.
  - destruct (mf c (mkValue elem true) tags) as [[c2 elem'] o] eqn:E.
    pose proof (mf_grows _ _ _ _ _ _ E) as Hg.
    destruct o; try (inversion H; subst; exact Hg).
    eapply grows_trans; [exact Hg|]. eapply IH. exact H.
Qed.

Lemma dive_grows c a kind tag c1 v err :
  dive mf c a kind tag = (c1, v, err) -> grows c c1.
Proof.
  unfold dive, morphCollection, morphMap.
  destruct kind; try (intros H; inversion H; subst; apply grows_refl);
    destruct (content (deref a)) as [k z|s|e o|o|t fs|its|its|m];
    try (intros H; inversion H; subst; apply grows_refl);
    match goal with
    | |- context [morphCollection_loop mf c ?b tag ?l] =>
        destruct (morphCollection_loop mf c b tag l) as [[c2 l'] o] eqn:Hl;
        intros H; inversion H; subst; eapply morphCollection_loop_grows; exact Hl
    | |- context [morphMap_loop mf c ?b tag ?ks ?mm] =>
        destruct (morphMap_loop mf c b tag ks mm) as [[c2 m'] o] eqn:Hl;
        intros H; inversion H; subst; eapply morphMap_loop_grows; exact Hl
    end.
Qed.

Lemma morphField_loop_grows kind tag :
  forall c a nv c1 a1 nv1 err,
    morphField_loop mf c a nv kind tag = (c1, a1, nv1, err) -> grows c c1.
Proof.
  induction tag as [|tg ps k tr n IHn kc _]; intros c a nv c1 a1 nv1 err H;
    cbn [morphField_loop] in H.
  { inversion H; subst. apply grows_refl. }
  destruct (String.eqb tg TagDive).
  - destruct (dive mf c a kind n) as [[c2 v] o] eqn:Hd.
    inversion H; subst. eapply dive_grows. exact Hd.
  - destruct tr as [f|]; [|eapply IHn; exact H].
    destruct (Transform f (intParams c) (content (deref nv)) k) as [w o].
    destruct (isOk o); [eapply IHn; exact H|].
    inversion H; subst. apply grows_refl.
Qed.

Lemma morphField_body_grows c fv tag c1 r err :
  morphField_body mf c fv tag = (c1, r, err) -> grows c c1.
Proof.
  unfold morphField_body.
  destruct (getActualValue {| var := var_fieldValue; deref := fv |}) as [path a].
  destruct (Kind_eqb (kindOf (content (deref a))) KStruct).
  - destruct (morphStruct mf c (deref a)) as [[c2 v] o] eqn:Hs.
    intros H; inversion H; subst. eapply morphStruct_grows. exact Hs.
  - destruct (morphField_loop mf c a
                (getAssignableValue a (kindOf (content (deref a))))
                (kindOf (content (deref a))) tag) as [[[c2 a'] nv'] o] eqn:Hl.
    pose proof (morphField_loop_grows _ _ _ _ _ _ _ _ _ Hl) as Hg.
    destruct (negb (isOk o) || negb (goVar_eqb (var nv') (var a'))).
    + intros H; inversion H; subst. exact Hg.
    + destruct (assignValue a' nv' (kindOf (content (deref a)))) as [v' e'].
      intros H; inversion H; subst. exact Hg.
Qed.

End Grows.

Lemma morphField_grows (fuel : nat) :
  forall c fv tg c1 r err, morphField fuel c fv tg = (c1, r, err) -> grows c c1.
Proof.
  induction fuel as [|fuel IH]; intros c fv tg c1 r err H; cbn [morphField] in H.
  - inversion H; subst. apply grows_refl.
  - eapply morphField_body_grows; [exact IH|exact H].
Qed.

(** X11.  Whatever its argument and its outcome, [Struct] leaves the tag
    name and the registry as they were, and every descriptor cached before
    the call is cached under the same key after it: descriptors are added,
    never removed or replaced. *)
Theorem Struct_keeps_descriptors (fuel : nat) (c c' : cache)
    (structPtr r : option value) (err : outcome) :
  Struct fuel c structPtr = (c', r, err) ->
  tagName c' = tagName c /\ transformers c' = transformers c /\
  forall key d, structsCache c !! key = Some d -> structsCache c' !! key = Some d.
Proof.
  unfold Struct.
  destruct structPtr as [dataValue|]; [|intros H; inversion H; subst; apply grows_refl].
  destruct (negb (Kind_eqb (kindOf dataValue) KPtr));
    [intros H; inversion H; subst; apply grows_refl|].
  destruct dataValue as [k z|s|e [p|]|o|t fs|its|its|m];
    try (intros H; inversion H; subst; apply grows_refl).
  destruct (negb (Kind_eqb (kindOf p) KStruct));
    [intros H; inversion H; subst; apply grows_refl|].
  destruct (morphStruct (morphField fuel) c (mkValue p true)) as [[c1 p'] o] eqn:Hs.
  intros H; inversion H; subst.
  eapply morphStruct_grows; [apply morphField_grows|exact Hs].
Qed.

Lemma Struct_keeps_descriptors_witness :
  tagName (fst (fst (Struct 2 trimCached
                       (Some (VPtr (TStruct plainOuter) (Some plainOuterValue))))))
    = tagName trimCached /\
  transformers (fst (fst (Struct 2 trimCached
                            (Some (VPtr (TStruct plainOuter) (Some plainOuterValue))))))
    = transformers trimCached /\
  forall key d,
    structsCache trimCached !! key = Some d ->
    structsCache (fst (fst (Struct 2 trimCached
                              (Some (VPtr (TStruct plainOuter) (Some plainOuterValue))))))
      !! key = Some d.
Proof.
  refine (Struct_keeps_descriptors 2 trimCached
            (fst (fst (Struct 2 trimCached
                         (Some (VPtr (TStruct plainOuter) (Some plainOuterValue))))))
            (Some (VPtr (TStruct plainOuter) (Some plainOuterValue)))
            (snd (fst (Struct 2 trimCached
                         (Some (VPtr (TStruct plainOuter) (Some plainOuterValue))))))
            (snd (Struct 2 trimCached
                    (Some (VPtr (TStruct plainOuter) (Some plainOuterValue))))) _).
  reflexivity.
Defined.

(** ** Fields left alone, invalid dives, and maps *)

Lemma morphStruct_loop_untouched (mf : morphFieldT) (addr : bool)
    (fcs : list fieldCache) :
  forall c n fs c1 fs1 err,
    morphStruct_loop mf c addr fcs n fs = (c1, fs1, err) ->
    List.length fs1 = List.length fs /\
    forall i, ~ In i (List.map index fcs) -> fs1 !! i = fs !! i.
Proof.
  induction fcs as [|f fcs IH]; intros c n fs c1 fs1 err H;
    destruct n as [|n]; cbn [morphStruct_loop] in H;
    try (inversion H; subst; split; [reflexivity|intros; reflexivity]).
  destruct (fs !! index f) as [x|];
    [|inversion H; subst; split; [reflexivity|intros; reflexivity]].
  destruct (mf c (mkValue x addr) (tags f)) as [[c2 x'] o].
  assert (Hins : List.length (<[index f := x']> fs) = List.length fs /\
                 forall i, ~ In i (List.map index (f :: fcs)) ->
                           <[index f := x']> fs !! i = fs !! i).
  { split; [apply length_insert|]. intros i Hi.
    apply list_lookup_insert_ne. intros Heq. apply Hi. left. exact Heq. }
  destruct o; try (inversion H; subst; exact Hins).
  destruct (IH _ _ _ _ _ _ H) as [Hlen Hrest]. destruct Hins as [Hl Hi].
  split; [congruence|]. intros i Hni.
  rewrite Hrest by (intros Hin; apply Hni; right; exact Hin).
  apply Hi. exact Hni.
Qed.

Lemma eligible_In (tn : string) (decls : list (StructField * rtype)) :
  forall i0 k, In k (eligible tn decls i0) ->
    exists field ty, decls !! (k - i0)%nat = Some (field, ty) /\ (i0 <= k)%nat /\
      IsExported field = true /\
      String.eqb (Tag_Get (Tag field) tn) TagIgnore = false.
Proof.
  induction decls as [|[field ty] rest IH]; intros i0 k Hin; [destruct Hin|].
  cbn [eligible] in Hin.
  assert (Hrest : In k (eligible tn rest (S i0)) ->
                  exists field' ty', ((field, ty) :: rest) !! (k - i0)%nat
                                     = Some (field', ty') /\ (i0 <= k)%nat /\
                    IsExported field' = true /\
                    String.eqb (Tag_Get (Tag field') tn) TagIgnore = false).
  { intros H. destruct (IH _ _ H) as (f' & t' & Hl & Hle & He & Ht).
    exists f', t'. replace (k - i0)%nat with (S (k - S i0)) by lia.
    repeat split; try assumption. lia. }
  destruct (IsExported field) eqn:He; cbn [andb] in Hin; [|auto].
  destruct (String.eqb (Tag_Get (Tag field) tn) TagIgnore) eqn:Ht;
    cbn [negb] in Hin; [auto|].
  destruct Hin as [<- | Hin]; [|auto].
  exists field, ty. rewrite Nat.sub_diag. repeat split; auto.
Qed.

(** X12.  When a record of a shape not cached yet is processed, the record
    keeps its number of fields, and every field that is unexported or
    annotated with the ignore directive holds after the call what it held
    before, whatever the outcome of the call. *)
Theorem Struct_ineligible_untouched (fuel : nat) (c c' : cache) (e : rtype)
    (t : StructType) (fs : list value) (r : option value) (err : outcome) :
  structsCache c !! structKey t = None ->
  Struct fuel c (Some (VPtr e (Some (VStruct t fs)))) = (c', r, err) ->
  exists fs',
    r = Some (VPtr e (Some (VStruct t fs'))) /\
    List.length fs' = List.length fs /\
    forall i field ty,
      Fields t !! i = Some (field, ty) ->
      IsExported field = false \/ Tag_Get (Tag field) (tagName c) = TagIgnore ->
      fs' !! i = fs !! i.
Proof.
  intros Hmiss. cbn [Struct kindOf Kind_eqb negb].
  unfold morphStruct, getStructCache. cbn [content mkValue CanAddr]. rewrite Hmiss.
  destruct (buildStructCache c t) as [c1 [d|e1]] eqn:Hb.
  2:{ intros [= <- <- <-]. exists fs. repeat split. }
  destruct (morphStruct_loop (morphField fuel) (withStruct c1 (structKey t) d) true
              (fields d) (fieldsLength d) fs) as [[c2 fs'] o] eqn:Hl.
  intros [= <- <- <-]. exists fs'. split; [reflexivity|].
  destruct (morphStruct_loop_untouched _ _ _ _ _ _ _ _ _ Hl) as [Hlen Hun].
  split; [exact Hlen|]. intros i field ty Hfield Hinel. apply Hun.
  assert (Hidx : List.map index (fields d) = eligible (tagName c) (Fields t) 0).
  { unfold buildStructCache in Hb.
    destruct (buildFieldsFrom c (TypeString t) (Fields t) 0) as [c3 [fcs|e3]] eqn:Hf;
      [|discriminate].
    injection Hb as <- <-.
    exact (proj1 (proj2 (buildFieldsFrom_spec _ _ _ _ _ _ Hf) fcs eq_refl)). }
  rewrite Hidx. intros Hin.
  destruct (eligible_In _ _ _ _ Hin) as (f' & t' & Hl' & _ & He & Ht).
  rewrite Nat.sub_0_r, Hfield in Hl'. injection Hl' as <- <-.
  destruct Hinel as [Hx | Hx]; [congruence|].
  rewrite Hx in Ht. discriminate.
Qed.

Lemma Struct_ineligible_untouched_witness :
  exists fs',
    snd (fst (Struct 2 New (structArg testData_mixed mixedRecord)))
      = Some (VPtr (TStruct testData_mixed) (Some (VStruct testData_mixed fs'))) /\
    List.length fs' = List.length mixedRecord /\
    forall i field ty,
      Fields testData_mixed !! i = Some (field, ty) ->
      IsExported field = false \/ Tag_Get (Tag field) (tagName New) = TagIgnore ->
      fs' !! i = mixedRecord !! i.
Proof.
  refine (Struct_ineligible_untouched 2 New
            (fst (fst (Struct 2 New (structArg testData_mixed mixedRecord))))
            (TStruct testData_mixed) testData_mixed mixedRecord
            (snd (fst (Struct 2 New (structArg testData_mixed mixedRecord))))
            (snd (Struct 2 New (structArg testData_mixed mixedRecord))) _ _);
    reflexivity.
Defined.

(** X13.  [dive] on a field whose value, behind its non-nil pointers and
    interfaces, is not a slice, an array, a map or a struct fails with
    [ErrInvalidDiveFmt] naming the kind and leaves the field unchanged.  A nil
    pointer and a nil interface are such values. *)
Theorem dive_invalid_kind (mf : morphFieldT) (c : cache) (fieldValue : Value)
    (ps : string) (pk : option string) (tr : option FieldTransformer)
    (next kc : tagChainCache) :
  let actualValue :=
    snd (getActualValue {| var := var_fieldValue; deref := fieldValue |}) in
  let actualKind := kindOf (content (deref actualValue)) in
  actualKind <> KStruct -> actualKind <> KSlice -> actualKind <> KArray ->
  actualKind <> KMap ->
  morphField_body mf c fieldValue (mkTag TagDive ps pk tr next kc)
    = (c, content fieldValue,
       Err (newErrorf ErrInvalidDiveFmt [Kind_String actualKind])).
Proof.
  cbv zeta. unfold morphField_body, getActualValue.
  cbn [content deref CanAddr var].
  destruct (getActualValue_in (content fieldValue) (CanAddr fieldValue)
              var_fieldValue 0) as [path a] eqn:Hget.
  destruct (getActualValue_in_spec _ _ _ _ _ _ Hget) as (_ & Hv & _ & _).
  cbn [snd]. intros H1 H2 H3 H4.
  destruct (Kind_eqb (kindOf (content (deref a))) KStruct) eqn:Hk.
  { apply Kind_eqb_eq in Hk. contradiction. }
  cbn [morphField_loop]. replace (String.eqb TagDive TagDive) with true by reflexivity.
  unfold dive.
  destruct (kindOf (content (deref a))) eqn:Hkind; try contradiction;
    cbn [isOk negb orb setContent deref content]; rewrite <- Hv; reflexivity.
Qed.

Lemma dive_invalid_kind_witness :
  morphField_body (morphField 0) New
      (mkValue (VPtr (TSlice TString) None) true)
      (mkTag TagDive "" None None trimNode nilTag)
    = (New, VPtr (TSlice TString) None,
       Err (newErrorf ErrInvalidDiveFmt ["ptr"])).
Proof.
  refine (dive_invalid_kind (morphField 0) New
            (mkValue (VPtr (TSlice TString) None) true)
            "" None None trimNode nilTag _ _ _ _); discriminate.
Defined.








(** ** The built-in transformers *)

Lemma New_registry (tag : string) (tr : FieldTransformer) :
  transformers New !! tag = Some tr ->
  (tag = TagTrim /\ tr = trimTransformer) \/
  (tag = TagLower /\ tr = toLowerTransformer) \/
  (tag = TagUpper /\ tr = toUpperTransformer) \/
  (tag = TagTruncate /\ tr = truncateTransformer TagTruncate) \/
  (tag = TagCeil /\ tr = ceilTransformer) \/
  (tag = TagFloor /\ tr = floorTransformer) \/
  (tag = TagRound /\ tr = roundTransformer) \/
  (tag = TagPrecision /\ tr = precisionTransformer TagPrecision).
Proof.
  cbn [transformers New]. intros H.
  repeat (apply lookup_insert_Some in H as [[<- <-] | [_ H]]; [tauto|]).
  rewrite lookup_empty in H. discriminate.
Qed.

(** X16.  Every built-in transformer checks the kind of the value first:
    [trim], [lower], [upper] and [truncate] on a value that is not a string,
    and [ceil], [floor], [round] and [precision] on a value that is not a
    float, fail with [ErrUnexpectedValue] carrying the directive and the
    kind, and leave the value unchanged. *)
Theorem builtin_unexpected_value (tag : string) (tr : FieldTransformer)
    (store : paramStore) (v : value) (key : option string) :
  transformers New !! tag = Some tr ->
  accepts tag v = false ->
  Transform tr store v key
    = (v, Err (newErrorf ErrUnexpectedValue [tag; Kind_String (kindOf v)])).
Proof.
  intros Hreg Hacc. unfold accepts in Hacc.
  destruct (New_registry tag tr Hreg)
    as [[-> ->] | [[-> ->] | [[-> ->] | [[-> ->] | [[-> ->] | [[-> ->] | [[-> ->] | [-> ->]]]]]]]];
    cbn in Hacc; cbn [Transform trimTransformer toLowerTransformer toUpperTransformer
                        truncateTransformer ceilTransformer floorTransformer
                        roundTransformer floatTransformer precisionTransformer];
    try (rewrite Hacc; reflexivity);
    destruct v as [k z|s|e o|o|t fs|its|its|m]; try reflexivity;
    cbn in Hacc; discriminate.
Qed.

Lemma builtin_unexpected_value_witness :
  Transform trimTransformer ∅ (VScalar SInt 5%Z) None
    = (VScalar SInt 5%Z, Err (newErrorf ErrUnexpectedValue [TagTrim; "int"])).
Proof.
  exact (builtin_unexpected_value TagTrim trimTransformer ∅ (VScalar SInt 5%Z) None
           eq_refl eq_refl).
Defined.

Lemma substring_prefix (n : nat) (s : string) :
  exists rest, s = (substring 0 n s ++ rest)%string.
Proof.
  revert n. induction s as [|a s IH]; intros n.
  - exists "". destruct n; reflexivity.
  - destruct n as [|n]; [exists (String a s); reflexivity|].
    destruct (IH n) as [rest Hrest]. exists rest.
    cbn [substring]. change (String a (substring 0 n s) ++ rest)%string
      with (String a (substring 0 n s ++ rest)%string).
    rewrite <- Hrest. reflexivity.
Qed.

Lemma length_substring (n : nat) (s : string) :
  String.length (substring 0 n s) = Nat.min n (String.length s).
Proof.
  revert n. induction s as [|a s IH]; intros n.
  - destruct n; reflexivity.
  - destruct n as [|n]; [reflexivity|]. cbn [substring String.length Nat.min].
    rewrite IH. reflexivity.
Qed.

(** X17.  After [Cache] has accepted a limit that is not negative,
    [truncate] under the same key turns a string into its prefix of
    [min limit (len s)] bytes, without error, and truncating the result
    again changes nothing. *)
Theorem truncate_prefix (inst : string) (store : paramStore) (rawParams key : string)
    (limit : Z) (s : string) :
  GoStrings.Atoi rawParams = Some limit ->
  (0 <= limit)%Z ->
  let store' := fst (Cache (truncateTransformer inst) store rawParams key) in
  exists r,
    Transform (truncateTransformer inst) store' (VString s) (Some key)
      = (VString r, Ok) /\
    (exists rest, s = (r ++ rest)%string) /\
    GoStrings.len r = Z.min limit (GoStrings.len s) /\
    Transform (truncateTransformer inst) store' (VString r) (Some key)
      = (VString r, Ok).
Proof.
  intros Hatoi Hpos. cbv zeta.
  cbn [Cache truncateTransformer Transform]. unfold IntParameterTransformer_Cache.
  rewrite Hatoi. cbn [fst].
  assert (Hlook : Values (<[inst := <[key := limit]> (Values store inst)]> store) inst
                    !! key = Some limit).
  { unfold Values at 1. rewrite lookup_insert_eq. cbn [default from_option id].
    apply lookup_insert_eq. }
  rewrite !Hlook.
  destruct (Z.ltb_spec limit 0) as [Hneg|_]; [lia|].
  unfold GoStrings.len.
  destruct (Z.ltb_spec limit (Z.of_nat (String.length s))) as [Hlt|Hge].
  - exists (substring 0 (Z.to_nat limit) s).
    rewrite length_substring.
    split; [reflexivity|]. split; [apply substring_prefix|]. split; [lia|].
    destruct (Z.ltb_spec limit
                (Z.of_nat (Nat.min (Z.to_nat limit) (String.length s)))); [lia|].
    reflexivity.
  - exists s. split; [reflexivity|]. split; [exists ""|split; [lia|]].
    + clear. induction s as [|a s IH]; [reflexivity|].
      change (String a s ++ "")%string with (String a (s ++ "")%string).
      rewrite <- IH. reflexivity.
    + destruct (Z.ltb_spec limit (Z.of_nat (String.length s))); [lia|reflexivity].
Qed.

Lemma truncate_prefix_witness :
  exists r,
    Transform (truncateTransformer TagTruncate)
        (fst (Cache (truncateTransformer TagTruncate) ∅ "5" "morph.testData.0"))
        (VString "1234567") (Some "morph.testData.0")
      = (VString r, Ok) /\
    (exists rest, "1234567" = (r ++ rest)%string) /\
    GoStrings.len r = Z.min 5 (GoStrings.len "1234567") /\
    Transform (truncateTransformer TagTruncate)
        (fst (Cache (truncateTransformer TagTruncate) ∅ "5" "morph.testData.0"))
        (VString r) (Some "morph.testData.0")
      = (VString r, Ok).
Proof.
  refine (truncate_prefix TagTruncate ∅ "5" "morph.testData.0" 5 "1234567" _ _).
  - reflexivity.
  - lia.
Defined.

Lemma caseByte_facts (c : ascii) :
  (GoStrings.byteZ c <? GoStrings.RuneSelf)%Z = true ->
  let lo := caseByte GoStrings.lowerByte in
  let up := caseByte GoStrings.upperByte in
  (GoStrings.byteZ (lo c) <? GoStrings.RuneSelf)%Z = true /\
  (GoStrings.byteZ (up c) <? GoStrings.RuneSelf)%Z = true /\
  lo (lo c) = lo c /\ up (up c) = up c /\ lo (up c) = lo c /\ up (lo c) = up c.
Proof.
  destruct c as [[] [] [] [] [] [] [] []]; vm_compute; intros H;
    try discriminate H; repeat split.
Qed.

Lemma caseMap_facts (l : list ascii) :
  forallb (fun c => (GoStrings.byteZ c <? GoStrings.RuneSelf)%Z) l = true ->
  let lo := List.map (caseByte GoStrings.lowerByte) in
  let up := List.map (caseByte GoStrings.upperByte) in
  forallb (fun c => (GoStrings.byteZ c <? GoStrings.RuneSelf)%Z) (lo l) = true /\
  forallb (fun c => (GoStrings.byteZ c <? GoStrings.RuneSelf)%Z) (up l) = true /\
  lo (lo l) = lo l /\ up (up l) = up l /\ lo (up l) = lo l /\ up (lo l) = up l.
Proof.
  cbv zeta. induction l as [|c l IH]; intros H; [repeat split|].
  cbn [forallb] in H. apply andb_true_iff in H as [Hc Hl].
  destruct (IH Hl) as (I1 & I2 & I3 & I4 & I5 & I6).
  destruct (caseByte_facts c Hc) as (C1 & C2 & C3 & C4 & C5 & C6).
  cbn [List.map forallb]. rewrite C1, C2, C3, C4, C5, C6, I1, I2, I3, I4, I5, I6.
  repeat split.
Qed.

Lemma length_string_of_list (l : list ascii) :
  String.length (string_of_list_ascii l) = List.length l.
Proof. induction l as [|a l IH]; cbn; [reflexivity|]. rewrite IH. reflexivity. Qed.

Lemma ToLower_of_list (l : list ascii) :
  forallb (fun c => (GoStrings.byteZ c <? GoStrings.RuneSelf)%Z) l = true ->
  GoStrings.ToLower (string_of_list_ascii l)
    = Some (string_of_list_ascii (List.map (caseByte GoStrings.lowerByte) l)).
Proof.
  intros H. unfold GoStrings.ToLower, GoStrings.isASCII, GoStrings.mapBytes.
  rewrite list_ascii_of_string_of_list_ascii, H. reflexivity.
Qed.

Lemma ToUpper_of_list (l : list ascii) :
  forallb (fun c => (GoStrings.byteZ c <? GoStrings.RuneSelf)%Z) l = true ->
  GoStrings.ToUpper (string_of_list_ascii l)
    = Some (string_of_list_ascii (List.map (caseByte GoStrings.upperByte) l)).
Proof.
  intros H. unfold GoStrings.ToUpper, GoStrings.isASCII, GoStrings.mapBytes.
  rewrite list_ascii_of_string_of_list_ascii, H. reflexivity.
Qed.

(** X18.  On a string of ASCII bytes, [lower] and [upper] succeed, keep
    the length, are idempotent, and each undoes the other's effect on
    case: [lower] after [upper] is [lower], [upper] after [lower] is
    [upper]. *)
Theorem lower_upper_ascii (store : paramStore) (key : option string) (s : string) :
  GoStrings.isASCII s = true ->
  exists lo up,
    Transform toLowerTransformer store (VString s) key = (VString lo, Ok) /\
    Transform toUpperTransformer store (VString s) key = (VString up, Ok) /\
    Transform toLowerTransformer store (VString lo) key = (VString lo, Ok) /\
    Transform toUpperTransformer store (VString up) key = (VString up, Ok) /\
    Transform toLowerTransformer store (VString up) key = (VString lo, Ok) /\
    Transform toUpperTransformer store (VString lo) key = (VString up, Ok) /\
    String.length lo = String.length s /\ String.length up = String.length s.
Proof.
  intros Hs. unfold GoStrings.isASCII in Hs.
  rewrite <- (string_of_list_ascii_of_string s).
  set (l := list_ascii_of_string s) in *.
  destruct (caseMap_facts l Hs) as (I1 & I2 & I3 & I4 & I5 & I6).
  exists (string_of_list_ascii (List.map (caseByte GoStrings.lowerByte) l)),
         (string_of_list_ascii (List.map (caseByte GoStrings.upperByte) l)).
  cbn [Transform toLowerTransformer toUpperTransformer].
  rewrite (ToLower_of_list l Hs), (ToUpper_of_list l Hs).
  rewrite (ToLower_of_list _ I1), (ToUpper_of_list _ I2).
  rewrite (ToLower_of_list _ I2), (ToUpper_of_list _ I1).
  rewrite I3, I4, I5, I6.
  repeat split; rewrite !length_string_of_list, length_map; reflexivity.
Qed.

Lemma lower_upper_ascii_witness :
  exists lo up,
    Transform toLowerTransformer ∅ (VString "Hello, World") None = (VString lo, Ok) /\
    Transform toUpperTransformer ∅ (VString "Hello, World") None = (VString up, Ok) /\
    Transform toLowerTransformer ∅ (VString lo) None = (VString lo, Ok) /\
    Transform toUpperTransformer ∅ (VString up) None = (VString up, Ok) /\
    Transform toLowerTransformer ∅ (VString up) None = (VString lo, Ok) /\
    Transform toUpperTransformer ∅ (VString lo) None = (VString up, Ok) /\
    String.length lo = String.length "Hello, World" /\
    String.length up = String.length "Hello, World".
Proof.
  exact (lower_upper_ascii ∅ None "Hello, World" eq_refl).
Defined.

(** ** Handles and parameter keys *)

Lemma last_cons {A : Type} (l : list A) :
  forall x d, List.last (x :: l) d = List.last l x.
Proof.
  induction l as [|y l IH]; intros x d; [reflexivity|].
  change (List.last (x :: y :: l) d) with (List.last (y :: l) d).
  rewrite !IH. reflexivity.
Qed.

Lemma getActualValue_in_addr (v : value) :
  forall addr x depth path a,
    getActualValue_in v addr x depth = (path, a) ->
    CanAddr (deref a) = List.last (List.map wrapperAddr path) addr.
Proof.
  induction v as [k z|s|e o IHo|o IHo|t fs IHfs|its IHits|its IHits|m IHm]
    using value_ind;
    intros addr x depth path a Hget; cbn in Hget;
    try (inversion Hget; subst; reflexivity).
  - destruct o as [p|]; [|inversion Hget; subst; reflexivity].
    inversion IHo as [? IHp|]; subst.
    destruct (getActualValue_in p true (var_dataValueElement depth) (S depth))
      as [path' r] eqn:Hp.
    inversion Hget; subst. rewrite (IHp _ _ _ _ _ Hp).
    cbn [List.map wrapperAddr]. rewrite last_cons. reflexivity.
  - destruct o as [y|]; [|inversion Hget; subst; reflexivity].
    inversion IHo as [? IHy|]; subst.
    destruct (getActualValue_in y false (var_dataValueElement depth) (S depth))
      as [path' r] eqn:Hy.
    inversion Hget; subst. rewrite (IHy _ _ _ _ _ Hy).
    cbn [List.map wrapperAddr]. rewrite last_cons. reflexivity.
Qed.

(** X19.  [getActualValue] follows non-nil pointers and interfaces: the
    value given is the result wrapped in the pointers and interfaces
    passed, the result is neither a non-nil pointer nor a non-nil interface,
    it is addressable exactly when the last wrapper passed is a pointer (or,
    none being passed, when the value given is), and applying
    [getActualValue] to it returns it. *)
Theorem getActualValue_unwraps (dataValue : ValuePtr) :
  let '(path, actualValue) := getActualValue dataValue in
  content (deref dataValue) = rewrap path (content (deref actualValue)) /\
  (forall e p, content (deref actualValue) <> VPtr e (Some p)) /\
  (forall y, content (deref actualValue) <> VInterface (Some y)) /\
  CanAddr (deref actualValue)
    = List.last (List.map wrapperAddr path) (CanAddr (deref dataValue)) /\
  getActualValue actualValue = ([], actualValue).
Proof.
  unfold getActualValue at 1.
  destruct (getActualValue_in (content (deref dataValue)) (CanAddr (deref dataValue))
              (var dataValue) 0) as [path a] eqn:Hget.
  destruct (getActualValue_in_spec _ _ _ _ _ _ Hget) as (Hcell & Hv & Hnp & Hni).
  split; [exact Hv|]. split; [exact Hnp|]. split; [exact Hni|].
  split; [exact (getActualValue_in_addr _ _ _ _ _ _ Hget)|].
  unfold getActualValue. destruct a as [x [v ad cl]].
  cbn [content deref CanAddr var cell] in *. subst cl.
  destruct v as [k z|s|e [p|]|[y|]|t fs|its|its|m]; cbn;
    first [reflexivity
          |exfalso; eapply Hnp; reflexivity
          |exfalso; eapply Hni; reflexivity].
Qed.

(** X20.  The handle [getAssignableValue] returns for a value that is not
    a non-nil pointer can always be set.  It holds the content of the value,
    or the zero value of the pointee for a nil pointer; it is the handle of
    the value itself when the value is addressable and not a pointer, and
    a cell of its own otherwise. *)
Theorem getAssignableValue_settable (value_ : ValuePtr) :
  let kind := kindOf (content (deref value_)) in
  let newValue := getAssignableValue value_ kind in
  (forall e p, content (deref value_) <> VPtr e (Some p)) ->
  CanAddr (deref newValue) = true /\
  content (deref newValue)
    = match content (deref value_) with
      | VPtr e None => zero e
      | v => v
      end /\
  (kind <> KPtr -> CanAddr (deref value_) = true -> deref newValue = deref value_) /\
  (kind = KPtr \/ CanAddr (deref value_) = false ->
   cell (deref newValue) = cell_fresh).
Proof.
  cbv zeta. intros Hnp. unfold getAssignableValue.
  destruct value_ as [x [v ad cl]]. cbn [content deref CanAddr var cell] in *.
  destruct v as [k z|s|e [p|]|[y|]|t fs|its|its|m];
    try (exfalso; eapply Hnp; reflexivity);
    try destruct k; destruct ad; cbn;
    repeat split; intros; try congruence;
    try match goal with H : _ \/ _ |- _ => destruct H; congruence end.
Qed.

Lemma getAssignableValue_settable_witness :
  CanAddr (deref (getAssignableValue
                    {| var := var_fieldValue;
                       deref := mkValue (VPtr TString None) false |} KPtr)) = true /\
  content (deref (getAssignableValue
                    {| var := var_fieldValue;
                       deref := mkValue (VPtr TString None) false |} KPtr))
    = VString "".
Proof.
  destruct (getAssignableValue_settable
              {| var := var_fieldValue; deref := mkValue (VPtr TString None) false |}
              ltac:(discriminate)) as (H1 & H2 & _).
  split; [exact H1|exact H2].
Defined.

Module ParamsKeyFacts.
Import GoStrings.

Lemma digit_facts (d : nat) :
  (d < 10)%nat ->
  byteZ (digit d) = (48 + Z.of_nat d)%Z /\ Ascii.eqb (digit d) "."%char = false.
Proof.
  intros H. do 10 (destruct d as [|d]; [split; reflexivity|]). lia.
Qed.

Lemma digitsValue_acc (l : list ascii) :
  forall acc, digitsValue l acc
              = (acc * 10 ^ Z.of_nat (List.length l) + digitsValue l 0)%Z.
Proof.
  induction l as [|c l IH]; intros acc; cbn [digitsValue List.length].
  - cbn. lia.
  - rewrite (IH (acc * 10 + (byteZ c - 48))%Z), (IH (0 * 10 + (byteZ c - 48))%Z).
    rewrite Nat2Z.inj_succ, Z.pow_succ_r by lia. lia.
Qed.

Lemma itoa_go_value (fuel : nat) :
  forall n acc, (n < fuel)%nat ->
    digitsValue (list_ascii_of_string (itoa_go fuel n acc)) 0
    = (Z.of_nat n * 10 ^ Z.of_nat (String.length acc)
       + digitsValue (list_ascii_of_string acc) 0)%Z.
Proof.
  induction fuel as [|fuel IH]; intros n acc Hn; [lia|].
  cbn [itoa_go].
  assert (Hd : (n mod 10 < 10)%nat) by (apply Nat.mod_upper_bound; lia).
  destruct (digit_facts _ Hd) as [Hb _].
  assert (Hacc' : digitsValue (list_ascii_of_string (String (digit (n mod 10)) acc)) 0
                  = (Z.of_nat (n mod 10) * 10 ^ Z.of_nat (String.length acc)
                     + digitsValue (list_ascii_of_string acc) 0)%Z).
  { cbn [list_ascii_of_string digitsValue]. rewrite digitsValue_acc, Hb.
    replace (List.length (list_ascii_of_string acc)) with (String.length acc)
      by (clear; induction acc as [|a s IHs]; cbn; [reflexivity|]; rewrite <- IHs;
          reflexivity).
    lia. }
  pose proof (Nat.div_mod_eq n 10) as Hdm.
  destruct (Nat.eqb_spec (n / 10) 0) as [Hz|Hnz].
  - rewrite Hacc'. replace (n mod 10)%nat with n by lia. reflexivity.
  - rewrite IH by lia. rewrite Hacc'. cbn [String.length].
    rewrite Nat2Z.inj_succ, Z.pow_succ_r by lia.
    replace (Z.of_nat n) with (10 * Z.of_nat (n / 10) + Z.of_nat (n mod 10))%Z by lia.
    lia.
Qed.

Lemma itoa_go_nodot (fuel : nat) :
  forall n acc, IndexRune acc "."%char = None ->
    IndexRune (itoa_go fuel n acc) "."%char = None.
Proof.
  induction fuel as [|fuel IH]; intros n acc Hacc; [exact Hacc|].
  cbn [itoa_go].
  assert (Hd : (n mod 10 < 10)%nat) by (apply Nat.mod_upper_bound; lia).
  destruct (digit_facts _ Hd) as [_ Hne].
  assert (Hacc' : IndexRune (String (digit (n mod 10)) acc) "."%char = None).
  { cbn [IndexRune]. rewrite Hne, Hacc. reflexivity. }
  destruct (n / 10 =? 0)%nat; [exact Hacc'|apply IH; exact Hacc'].
Qed.

Lemma itoa_injective (n1 n2 : nat) : itoa n1 = itoa n2 -> n1 = n2.
Proof.
  unfold itoa. intros H.
  pose proof (itoa_go_value (S n1) n1 "" ltac:(lia)) as H1.
  pose proof (itoa_go_value (S n2) n2 "" ltac:(lia)) as H2.
  rewrite H in H1. rewrite H1 in H2. cbn in H2. lia.
Qed.

Lemma IndexRune_found (t p : string) (r : ascii) :
  IndexRune (t ++ String r p) r <> None.
Proof.
  induction t as [|a t IH].
  - change (IndexRune (String r p) r <> None). cbn [IndexRune].
    rewrite Ascii.eqb_refl. discriminate.
  - change (IndexRune (String a (t ++ String r p)) r <> None). cbn [IndexRune].
    destruct (Ascii.eqb a r); [discriminate|].
    destruct (IndexRune (t ++ String r p) r); [discriminate|contradiction].
Qed.

Lemma split_at_last (r : ascii) (t1 : string) :
  forall t2 d1 d2,
    IndexRune d1 r = None -> IndexRune d2 r = None ->
    (t1 ++ String r d1)%string = (t2 ++ String r d2)%string ->
    t1 = t2 /\ d1 = d2.
Proof.
  induction t1 as [|a t1 IH]; intros t2 d1 d2 H1 H2 H; destruct t2 as [|b t2].
  - injection H as <-. split; reflexivity.
  - change (String r d1 = String b (t2 ++ String r d2)) in H.
    injection H as <- ->. exfalso. exact (IndexRune_found _ _ _ H1).
  - change (String a (t1 ++ String r d1) = String r d2) in H.
    injection H as -> <-. exfalso. exact (IndexRune_found _ _ _ H2).
  - change (String a (t1 ++ String r d1) = String b (t2 ++ String r d2)) in H.
    injection H as <- H. destruct (IH _ _ _ H1 H2 H) as [-> ->]. split; reflexivity.
Qed.

End ParamsKeyFacts.

(** X21.  [getParamsKey] is injective: two parameter keys are equal
    exactly when the type renderings and the field indexes are. *)
Theorem getParamsKey_injective (type1 type2 : string) (i1 i2 : nat) :
  getParamsKey type1 i1 = getParamsKey type2 i2 <-> type1 = type2 /\ i1 = i2.
Proof.
  split; [|intros [-> ->]; reflexivity].
  unfold getParamsKey. intros H.
  destruct (ParamsKeyFacts.split_at_last "."%char type1 type2
              (GoStrings.itoa i1) (GoStrings.itoa i2)) as [Ht Hi].
  - apply ParamsKeyFacts.itoa_go_nodot. reflexivity.
  - apply ParamsKeyFacts.itoa_go_nodot. reflexivity.
  - exact H.
  - split; [exact Ht|]. apply ParamsKeyFacts.itoa_injective. exact Hi.
Qed.
